(** * kanban-mcp: dependency-graph integrity and data migration

    A shallow embedding of [mcp-server/src/ticket-manager.ts] (class
    [TicketManager]), of the migration manager ([MigrationManager]) and of
    the migration step [migrateFrom0_1_0To0_2_0], with the properties the
    design document states about them.

    Modelling conventions.
    - A ticket is a JSON object.  A property of the [Ticket] interface
      may be absent from it (the spread in [updateTickets] builds such
      objects), so every field is an [option]; a property that is
      present has the type the interface declares.  Properties outside
      the interface are copied along by every spread and never read;
      they are left out.
    - [storage.tickets] is a JavaScript object used as a dictionary: its
      own properties are a [gmap string Ticket].  A read
      [storage.tickets[k]] that finds no own property continues in
      [Object.prototype], whose member names are [prototypeMembers];
      [getTicket] is that read.  [Object.values] is [map_to_list], whose
      enumeration order is left abstract.
    - [nextId] is a JavaScript number holding a non-negative integer
      below [10^21] (where [toString] prints plain digits); [+= 1]
      rounds to the nearest double, [toDouble].
    - The data file holds one JSON document; its parsed value is the
      state of the exception/state monad [M].  [readData] and
      [writeData] are the only accesses, so a thrown exception leaves the
      file as the last [writeData] left it.
    - [new Date().toISOString()] is the argument [now] of the mutating
      operations; [new Date(s).getTime()] and [String.toLowerCase] are
      parameters of the section that uses them, the former with [None]
      for [NaN].
    - Recursion that JavaScript bounds only by its call stack carries a
      fuel argument; the theorems show that the fuel supplied by the
      callers is always enough. *)

From stdpp Require Import gmap strings list fin_maps relations sorting pretty.

Open Scope string_scope.
Open Scope list_scope.
Open Scope nat_scope.

#[global] Set Warnings "-clear-no-such-hyp".

(** ** Data model ([types.ts]) *)

(** [projectId] is kept because the list filters test it (documents
    written by earlier releases). *)
Record Ticket := mkTicket {
  id : option string;
  title : option string;
  description : option string;
  projects : option (list string);
  projectId : option string;
  blockedBy : option (list string);
  createdAt : option string;
  updatedAt : option string;
  status : option string
}.

#[global] Instance Ticket_eq_dec : EqDecision Ticket.
Proof. solve_decision. Defined.

Record TicketStorage := mkStorage {
  version : string;
  tickets : gmap string Ticket;
  nextId : N
}.

(** An update record as the tool handler passes it on: the properties
    [interface TicketUpdateData] declares ([ticketId], [title],
    [description], [blockedBy], [status]) and whatever else of a ticket
    the client put into it. *)
Record TicketUpdateData := mkUpdate {
  u_ticketId : string;
  u_title : option string;
  u_description : option string;
  u_blockedBy : option (list string);
  u_status : option string;
  u_id : option string;
  u_projects : option (list string);
  u_projectId : option string;
  u_createdAt : option string;
  u_updatedAt : option string
}.

Record TicketCreateData := mkCreate {
  c_title : string;
  c_description : string;
  c_projects : option (list string);
  c_blockedBy : option (list string)
}.

#[warnings="-register-all"]
Inductive ResearchTreeNode :=
  TreeNode (n_id : option string) (n_title : option string)
           (unblocks : list ResearchTreeNode).

(** [NextTicket extends Omit<Ticket, 'blockedBy'>] *)
Record NextTicket := mkNext {
  nt_id : option string;
  nt_title : option string;
  nt_description : option string;
  nt_projects : option (list string);
  nt_projectId : option string;
  nt_createdAt : option string;
  nt_updatedAt : option string;
  nt_status : option string;
  researchTree : list ResearchTreeNode
}.

(** ** Exceptions and the file monad *)

Inductive Exception :=
  | SelfDependency                       (* McpError 'A ticket cannot depend on itself' *)
  | DependencyMissing (depId : string)   (* McpError 'Dependency ticket ... does not exist' *)
  | CircularDependency                   (* McpError 'Circular dependency detected' *)
  | TicketNotFound (ticketId : string)   (* McpError 'Ticket ... not found' *)
  | TypeError                            (* a property read on [undefined] *)
  | StackExhausted.                      (* recursion deeper than the fuel *)

Inductive result (A : Type) :=
  | Ok (a : A)
  | Throw (e : Exception).
Arguments Ok {A} a.
Arguments Throw {A} e.

#[global] Instance Exception_eq_dec : EqDecision Exception.
Proof. solve_decision. Defined.

#[global] Instance result_eq_dec {A} `{EqDecision A} : EqDecision (result A).
Proof. solve_decision. Defined.

Definition rbind {A B} (r : result A) (k : A → result B) : result B :=
  match r with Ok a => k a | Throw e => Throw e end.

(** A computation over the data file: the second component is the file
    after the call. *)
Definition M (A : Type) := TicketStorage → result A * TicketStorage.

Definition ret {A} (a : A) : M A := λ file, (Ok a, file).
Definition bind {A B} (m : M A) (k : A → M B) : M B :=
  λ file, match m file with
          | (Ok a, file') => k a file'
          | (Throw e, file') => (Throw e, file')
          end.
Definition lift {A} (r : result A) : M A := λ file, (r, file).
Definition readData : M TicketStorage := λ file, (Ok file, file).
Definition writeData (data : TicketStorage) : M unit := λ _, (Ok tt, data).

Notation "'do!' x := m 'in' k" := (bind m (λ x, k))
  (at level 10, x name, m at level 100, k at level 200, only parsing).
Notation "'do!' ' p := m 'in' k" := (bind m (λ p, k))
  (at level 10, p pattern, m at level 100, k at level 200, only parsing).
Notation "'try!' x := m 'in' k" := (rbind m (λ x, k))
  (at level 10, x name, m at level 100, k at level 200, only parsing).
Notation "'try!' ' p := m 'in' k" := (rbind m (λ p, k))
  (at level 10, p pattern, m at level 100, k at level 200, only parsing).

(** [array.filter(f)] with a callback that may throw. *)
Definition tryFilter {A} (f : A → result bool) : list A → result (list A) :=
  fix go l :=
    match l with
    | [] => Ok []
    | x :: rest =>
        try! keep := f x in
        try! kept := go rest in
        Ok (if keep then x :: kept else kept)
    end.

(** [array.map(f)] with a callback that may throw. *)
Definition tryMap {A B} (f : A → result B) : list A → result (list B) :=
  fix go l :=
    match l with
    | [] => Ok []
    | x :: rest =>
        try! y := f x in
        try! ys := go rest in
        Ok (y :: ys)
    end.

(** ** Property reads on [storage.tickets] *)

(** The names every object inherits from [Object.prototype]. *)
Definition prototypeMembers : list string :=
  ["constructor"; "__defineGetter__"; "__defineSetter__"; "hasOwnProperty";
   "__lookupGetter__"; "__lookupSetter__"; "isPrototypeOf";
   "propertyIsEnumerable"; "toString"; "valueOf"; "__proto__";
   "toLocaleString"].

(** What a read finds: a stored ticket, or the inherited member (a
    function, or for ["__proto__"] the prototype itself).  Either is
    truthy; an inherited member has none of the ticket properties. *)
Inductive Value :=
  | TicketValue (ticket : Ticket)
  | PrototypeMember (name : string).

(** [storage.tickets[i]]; [None] is [undefined]. *)
Definition getTicket (storage : TicketStorage) (i : string) : option Value :=
  match tickets storage !! i with
  | Some ticket => Some (TicketValue ticket)
  | None => if decide (i ∈ prototypeMembers) then Some (PrototypeMember i)
            else None
  end.

(** ** Record store: id generation *)

(** The double nearest to a non-negative integer, ties to even: integers
    of at most 53 binary digits are doubles. *)
Definition toDouble (n : N) : N :=
  let bits := N.log2 n in
  if (bits <? 53)%N then n
  else
    let ulp := (2 ^ (bits - 52))%N in
    let q := (n / ulp)%N in
    let r := (n mod ulp)%N in
    if (2 * r <? ulp)%N then (q * ulp)%N
    else if (ulp <? 2 * r)%N then ((q + 1) * ulp)%N
    else if N.even q then (q * ulp)%N
    else ((q + 1) * ulp)%N.

(** [s.padStart(4, '0')] *)
Definition padStart4 (s : string) : string :=
  String.concat "" (replicate (4 - String.length s) "0") +:+ s.

(** [generateId]: returns the id and the storage with the counter bumped. *)
Definition generateId (storage : TicketStorage) : string * TicketStorage :=
  ("TICKET-" +:+ padStart4 (pretty (nextId storage)),
   mkStorage (version storage) (tickets storage)
             (toDouble (nextId storage + 1))).

(** ** Dependency validator *)

(** [validateDependencies(dependencies, storage, excludeId?)] *)
Fixpoint validateDependencies (dependencies : list string)
    (storage : TicketStorage) (excludeId : option string) : result unit :=
  match dependencies with
  | [] => Ok tt
  | depId :: rest =>
      if decide (Some depId = excludeId) then Throw SelfDependency
      else match getTicket storage depId with
           | None => Throw (DependencyMissing depId)
           | Some _ => validateDependencies rest storage excludeId
           end
  end.

(** The two mark sets of [checkCircularDependency]. *)
Record Marks := mkMarks {
  visiting : gset string;
  visited : gset string
}.

(** [id === ticketId ? blockedBy : (storage.tickets[id]?.blockedBy || [])] *)
Definition depsOf (ticketId : string) (candidate : list string)
    (storage : TicketStorage) (i : string) : list string :=
  if decide (i = ticketId) then candidate
  else match getTicket storage i with
       | Some (TicketValue ticket) => default [] (blockedBy ticket)
       | Some (PrototypeMember _) => []
       | None => []
       end.

(** [for (const depId of deps) if (hasCycle(depId)) return true;] *)
Fixpoint forDeps (rec : string → Marks → option (bool * Marks))
    (deps : list string) (m : Marks) : option (bool * Marks) :=
  match deps with
  | [] => Some (false, m)
  | depId :: rest =>
      match rec depId m with
      | None => None
      | Some (true, m') => Some (true, m')
      | Some (false, m') => forDeps rec rest m'
      end
  end.

(** The closure [hasCycle]; [None] is a recursion deeper than [fuel]. *)
Fixpoint hasCycle (fuel : nat) (ticketId : string) (candidate : list string)
    (storage : TicketStorage) (i : string) (m : Marks) : option (bool * Marks) :=
  match fuel with
  | O => None
  | S fuel' =>
      if decide (i ∈ visiting m) then Some (true, m)
      else if decide (i ∈ visited m) then Some (false, m)
      else
        let m1 := mkMarks ({[i]} ∪ visiting m) (visited m) in
        match forDeps (hasCycle fuel' ticketId candidate storage)
                      (depsOf ticketId candidate storage i) m1 with
        | None => None
        | Some (true, m') => Some (true, m')
        | Some (false, m2) =>
            Some (false, mkMarks (visiting m2 ∖ {[i]}) ({[i]} ∪ visited m2))
        end
  end.

(** Depth of recursion granted to [hasCycle]: every frame but the last
    one puts on the path a different id among [ticketId] and the keys
    of [storage.tickets]. *)
Definition cycleFuel (storage : TicketStorage) : nat :=
  S (S (size (tickets storage))).

(** [checkCircularDependency(ticketId, blockedBy, storage)] *)
Definition checkCircularDependency (ticketId : string) (candidate : list string)
    (storage : TicketStorage) : result unit :=
  match hasCycle (cycleFuel storage) ticketId candidate storage ticketId
                 (mkMarks ∅ ∅) with
  | None => Throw StackExhausted
  | Some (true, _) => Throw CircularDependency
  | Some (false, _) => Ok tt
  end.

(** ** Ticket service *)

(** [storage.tickets[id] = ticket], for an [id] that is an own key or
    is not ["__proto__"]. *)
Definition setTicket (i : string) (t : Ticket) (storage : TicketStorage)
    : TicketStorage :=
  mkStorage (version storage) (<[i := t]> (tickets storage)) (nextId storage).

(** [Object.values(storage.tickets)] *)
Definition ticketValues (storage : TicketStorage) : list Ticket :=
  (map_to_list (tickets storage)).*2.

(** [createTicket(title, description, projects = [], blockedBy = [])] *)
Definition createTicket (now title description : string)
    (projects blockedBy : list string) : M Ticket :=
  do! storage := readData in
  do! _ := lift (validateDependencies blockedBy storage None) in
  let '(i, storage) := generateId storage in
  let ticket :=
    mkTicket (Some i) (Some title) (Some description) (Some projects) None
             (Some blockedBy) (Some now) (Some now) (Some "open") in
  do! _ := lift (checkCircularDependency i blockedBy storage) in
  let storage := setTicket i ticket storage in
  do! _ := writeData storage in
  ret ticket.

(** First pass of [createTickets]: validate all dependencies exist. *)
Fixpoint createValidate (items : list TicketCreateData)
    (storage : TicketStorage) : result unit :=
  match items with
  | [] => Ok tt
  | ticketData :: rest =>
      try! _ := validateDependencies (default [] (c_blockedBy ticketData))
                                     storage None in
      createValidate rest storage
  end.

(** Second pass of [createTickets]: mint, cycle-check against the
    storage as it accumulates the new tickets, insert. *)
Fixpoint createAll (now : string) (items : list TicketCreateData)
    (storage : TicketStorage) (createdTickets : list Ticket)
    : result (TicketStorage * list Ticket) :=
  match items with
  | [] => Ok (storage, createdTickets)
  | ticketData :: rest =>
      let blockedBy := default [] (c_blockedBy ticketData) in
      let '(i, storage) := generateId storage in
      let ticket :=
        mkTicket (Some i) (Some (c_title ticketData))
                 (Some (c_description ticketData)) (c_projects ticketData) None
                 (Some blockedBy) (Some now) (Some now) (Some "open") in
      try! _ := checkCircularDependency i blockedBy storage in
      createAll now rest (setTicket i ticket storage) (createdTickets ++ [ticket])
  end.

Definition createTickets (now : string) (items : list TicketCreateData)
    : M (list Ticket) :=
  do! storage := readData in
  do! _ := lift (createValidate items storage) in
  do! '(storage, createdTickets) := lift (createAll now items storage []) in
  do! _ := writeData storage in
  ret createdTickets.

(** [readTicket(ticketId)]: whatever the read finds is returned. *)
Definition readTicket (ticketId : string) : M Value :=
  do! storage := readData in
  match getTicket storage ticketId with
  | None => lift (Throw (TicketNotFound ticketId))
  | Some ticket => ret ticket
  end.

(** First loop of [updateTickets]: every ticket exists. *)
Fixpoint updateExist (updates : list TicketUpdateData)
    (storage : TicketStorage) : result unit :=
  match updates with
  | [] => Ok tt
  | update :: rest =>
      match getTicket storage (u_ticketId update) with
      | None => Throw (TicketNotFound (u_ticketId update))
      | Some _ => updateExist rest storage
      end
  end.

(** Second loop of [updateTickets]: dependencies and cycles, each update
    against the storage as it was read. *)
Fixpoint updateValidate (updates : list TicketUpdateData)
    (storage : TicketStorage) : result unit :=
  match updates with
  | [] => Ok tt
  | update :: rest =>
      try! _ := match u_blockedBy update with
                | Some deps =>
                    try! _ := validateDependencies deps storage
                                (Some (u_ticketId update)) in
                    checkCircularDependency (u_ticketId update) deps storage
                | None => Ok tt
                end in
      updateValidate rest storage
  end.

(** A property of [{ ...a, ...b }]: the one of [b] when [b] has it. *)
Definition override {A} (b a : option A) : option A :=
  match b with Some v => Some v | None => a end.

(** [{ ...ticket, ...updateFields, updatedAt: now }], where
    [updateFields] is the record without [ticketId]. *)
Definition mergeUpdate (now : string) (ticket : Ticket)
    (update : TicketUpdateData) : Ticket :=
  mkTicket (override (u_id update) (id ticket))
           (override (u_title update) (title ticket))
           (override (u_description update) (description ticket))
           (override (u_projects update) (projects ticket))
           (override (u_projectId update) (projectId ticket))
           (override (u_blockedBy update) (blockedBy ticket))
           (override (u_createdAt update) (createdAt ticket))
           (Some now)
           (override (u_status update) (status ticket)).

(** What spreading an inherited member contributes: nothing. *)
Definition noTicket : Ticket :=
  mkTicket None None None None None None None None None.

(** Third loop of [updateTickets]: apply all updates.  An assignment
    [storage.tickets[ticketId] = updatedTicket] creates or replaces an
    own property, except for ["__proto__"] without such an own key:
    that one installs [updatedTicket] as the prototype of
    [storage.tickets], kept in [proto], where a later read of
    ["__proto__"] finds it. *)
Fixpoint updateApply (now : string) (updates : list TicketUpdateData)
    (storage : TicketStorage) (proto : option Ticket)
    (updatedTickets : list Ticket) : TicketStorage * list Ticket :=
  match updates with
  | [] => (storage, updatedTickets)
  | update :: rest =>
      let ticketId := u_ticketId update in
      match tickets storage !! ticketId with
      | Some ticket =>
          let updatedTicket := mergeUpdate now ticket update in
          updateApply now rest (setTicket ticketId updatedTicket storage) proto
                      (updatedTickets ++ [updatedTicket])
      | None =>
          if decide (ticketId = "__proto__") then
            let updatedTicket :=
              mergeUpdate now (default noTicket proto) update in
            updateApply now rest storage (Some updatedTicket)
                        (updatedTickets ++ [updatedTicket])
          else
            let updatedTicket := mergeUpdate now noTicket update in
            updateApply now rest (setTicket ticketId updatedTicket storage) proto
                        (updatedTickets ++ [updatedTicket])
      end
  end.

Definition updateTickets (now : string) (updates : list TicketUpdateData)
    : M (list Ticket) :=
  do! storage := readData in
  do! _ := lift (updateExist updates storage) in
  do! _ := lift (updateValidate updates storage) in
  let '(storage, updatedTickets) := updateApply now updates storage None [] in
  do! _ := writeData storage in
  ret updatedTickets.

(** [ticket.blockedBy = ticket.blockedBy.filter(dep => dep !== ticketId)] *)
Definition stripDependency (ticketId : string) (ticket : Ticket) : Ticket :=
  mkTicket (id ticket) (title ticket) (description ticket) (projects ticket)
           (projectId ticket)
           (filter (λ dep, dep ≠ ticketId) <$> blockedBy ticket)
           (createdAt ticket) (updatedAt ticket) (status ticket).

(** The [forEach] of [deleteTicket] over [Object.values]: a ticket
    without [blockedBy] makes the read of [filter] throw. *)
Definition stripAll (ticketId : string) (storage : TicketStorage)
    : result (gmap string Ticket) :=
  if forallb (λ ticket, bool_decide (is_Some (blockedBy ticket)))
             (ticketValues storage)
  then Ok (stripDependency ticketId <$> tickets storage)
  else Throw TypeError.

Definition deleteTicket (ticketId : string) : M bool :=
  do! storage := readData in
  match getTicket storage ticketId with
  | None => lift (Throw (TicketNotFound ticketId))
  | Some _ =>
      do! stripped := lift (stripAll ticketId storage) in
      let storage :=
        mkStorage (version storage) (delete ticketId stripped) (nextId storage) in
      do! _ := writeData storage in
      ret true
  end.

(** ** Research tree builder *)

(** The filter callback of [buildResearchTree]:
    [ticket.blockedBy.includes(ticketId) && ticket.status !== 'closed'];
    [ticketId] is [undefined] when the dependent had no [id]. *)
Definition isDependent (ticketId : option string) (ticket : Ticket)
    : result bool :=
  match blockedBy ticket with
  | None => Throw TypeError
  | Some deps =>
      Ok (match ticketId with
          | Some i => bool_decide (i ∈ deps)
          | None => false
          end
          && bool_decide (status ticket ≠ Some "closed"))
  end.

(** [buildResearchTree(ticketId, storage, visitedIds)].  Each recursive
    call receives [new Set(visitedIds)], a copy taken while [ticketId]
    is in the set; the final [visitedIds.delete] acts on the caller's
    own set only and is not observable. *)
Fixpoint buildResearchTree (fuel : nat) (ticketId : option string)
    (storage : TicketStorage) (visitedIds : gset (option string))
    : result (list ResearchTreeNode) :=
  match fuel with
  | O => Throw StackExhausted
  | S fuel' =>
      if decide (ticketId ∈ visitedIds) then Ok []
      else
        let visitedIds := {[ticketId]} ∪ visitedIds in
        try! dependents :=
          tryFilter (isDependent ticketId) (ticketValues storage) in
        tryMap (λ dependent,
                  try! unblocks :=
                    buildResearchTree fuel' (id dependent) storage visitedIds in
                  Ok (TreeNode (id dependent) (title dependent) unblocks))
               dependents
  end.

(** Recursion depth granted to [buildResearchTree]. *)
Definition treeFuel (storage : TicketStorage) : nat :=
  S (S (size (tickets storage))).

(** JavaScript truthiness of an optional string. *)
Definition truthy (o : option string) : option string :=
  match o with
  | Some v => if decide (v = "") then None else Some v
  | None => None
  end.

Section Listing.
(** [new Date(s).getTime()], with [None] for [NaN], and
    [s.toLowerCase()] *)
Variable getTime : string → option Z.
Variable toLowerCase : string → string.

(** The readiness filter of [nextTickets]. *)
Definition isUnblocked (storage : TicketStorage) (ticket : Ticket)
    : result bool :=
  if decide (status ticket = Some "closed") then Ok false
  else match blockedBy ticket with
       | None => Throw TypeError
       | Some deps =>
           if decide (length deps = 0) then Ok true
           else Ok (forallb (λ depId,
                      match getTicket storage depId with
                      | Some (TicketValue depTicket) =>
                          bool_decide (status depTicket = Some "closed")
                      | Some (PrototypeMember _) => false
                      | None => false
                      end) deps)
       end.

(** The project filter shared by [listTickets] and [nextTickets]. *)
Definition inProject (project : string) (ticket : Ticket) : bool :=
  match projects ticket with
  | Some ps =>
      existsb (λ p, bool_decide (toLowerCase p = toLowerCase project)) ps
  | None =>
      match truthy (projectId ticket) with
      | Some pid => bool_decide (toLowerCase pid = toLowerCase project)
      | None => false
      end
  end.

(** [new Date(ticket.createdAt).getTime()]; a missing [createdAt] gives
    [NaN] as well. *)
Definition createdTime (ticket : Ticket) : option Z :=
  match createdAt ticket with
  | Some s => getTime s
  | None => None
  end.

(** The comparator of the two sorts,
    [new Date(b.createdAt).getTime() - new Date(a.createdAt).getTime()];
    [None] is [NaN]. *)
Definition compareCreated (a b : Ticket) : option Z :=
  match createdTime b, createdTime a with
  | Some tb, Some ta => Some (tb - ta)%Z
  | _, _ => None
  end.

(** The comparator does not ask for [b] before [a]: its value is not
    positive, [NaN] counting as zero.  With a date that does not parse
    the comparator is not consistent and the order [Array.prototype.sort]
    produces is implementation-defined; the sort below is one such
    order. *)
Definition newestFirst (a b : Ticket) : Prop :=
  match compareCreated a b with
  | Some v => (v ≤ 0)%Z
  | None => True
  end.

#[local] Instance newestFirst_dec a b : Decision (newestFirst a b).
Proof. unfold newestFirst. destruct (compareCreated a b); apply _. Defined.

(** [{ ...ticketWithoutDeps, researchTree }] *)
Definition toNextTicket (ticket : Ticket) (tree : list ResearchTreeNode)
    : NextTicket :=
  mkNext (id ticket) (title ticket) (description ticket) (projects ticket)
         (projectId ticket) (createdAt ticket) (updatedAt ticket)
         (status ticket) tree.

(** The tickets [nextTickets] selects, in output order. *)
Definition nextSelection (project : option string) (storage : TicketStorage)
    : result (list Ticket) :=
  try! tickets1 := tryFilter (isUnblocked storage) (ticketValues storage) in
  let tickets2 :=
    match truthy project with
    | Some p => filter (λ t, inProject p t = true) tickets1
    | None => tickets1
    end in
  Ok (merge_sort newestFirst tickets2).

Definition nextTickets (project : option string) : M (list NextTicket) :=
  do! storage := readData in
  do! sortedTickets := lift (nextSelection project storage) in
  lift (tryMap (λ ticket,
                  try! tree := buildResearchTree (treeFuel storage) (id ticket)
                                                 storage ∅ in
                  Ok (toNextTicket ticket tree))
               sortedTickets).

(** The [dependsOn] filter callback, [ticket.blockedBy.includes(dependsOn)]. *)
Definition dependsOnTicket (dependsOn : string) (ticket : Ticket)
    : result bool :=
  match blockedBy ticket with
  | None => Throw TypeError
  | Some deps => Ok (bool_decide (dependsOn ∈ deps))
  end.

(** The tickets [listTickets] returns, in output order: the three
    optional filters, each applied when its argument is truthy, then the
    sort by creation date. *)
Definition listSelection (project statusFilter dependsOn : option string)
    (storage : TicketStorage) : result (list Ticket) :=
  let tickets0 := ticketValues storage in
  let tickets1 :=
    match truthy project with
    | Some p => filter (λ t, inProject p t = true) tickets0
    | None => tickets0
    end in
  let tickets2 :=
    match truthy statusFilter with
    | Some s => filter (λ t, status t = Some s) tickets1
    | None => tickets1
    end in
  try! tickets3 :=
    match truthy dependsOn with
    | Some d => tryFilter (dependsOnTicket d) tickets2
    | None => Ok tickets2
    end in
  Ok (merge_sort newestFirst tickets3).

(** [listTickets(project?, status?, dependsOn?)] *)
Definition listTickets (project statusFilter dependsOn : option string)
    : M (list Ticket) :=
  do! storage := readData in
  lift (listSelection project statusFilter dependsOn storage).
End Listing.

(** ** Migration manager *)

(** A ticket as [JSON.parse] yields it, before any schema is assumed:
    the v0.1.0 field [dependencies] and the v0.2.0 field [blockedBy]
    may each be present or not. *)
Record RawTicket := mkRaw {
  r_id : string;
  r_title : string;
  r_description : string;
  r_projects : option (list string);
  r_dependencies : option (list string);
  r_blockedBy : option (list string);
  r_createdAt : string;
  r_updatedAt : string;
  r_status : string
}.

(** A parsed document; [r_tickets] keeps the order of [Object.entries]. *)
Record RawData := mkRawData {
  r_version : option string;
  r_tickets : option (list (string * RawTicket));
  r_nextId : N
}.

(** The files the migration touches, by path, with the sequence of
    paths written so far. *)
Record Files := mkFiles {
  contents : gmap string RawData;
  written : list string
}.

Definition readFileSync (path : string) (fs : Files) : option RawData :=
  contents fs !! path.

Definition writeFileSync (path : string) (data : RawData) (fs : Files) : Files :=
  mkFiles (<[path := data]> (contents fs)) (written fs ++ [path]).

(** [interface MigrationPath]; [migrate] returns [false] when it threw. *)
Record MigrationPath := mkMigration {
  fromVersion : string;
  toVersion : string;
  migrationFile : string;
  migrate : string → Files → bool * Files
}.

Definition currentAppVersion : string := "0.2.0".

(** ['f' in firstTicket && Array.isArray(firstTicket.f)] *)
Definition isArrayField (o : option (list string)) : bool :=
  match o with Some _ => true | None => false end.

(** [detectDataVersion(rawData)] *)
Definition detectDataVersion (rawData : RawData) : string :=
  match truthy (r_version rawData) with
  | Some v => v
  | None =>
      match r_tickets rawData with
      | Some ((_, firstTicket) :: _) =>
          if isArrayField (r_dependencies firstTicket) then "0.1.0"
          else if isArrayField (r_blockedBy firstTicket) then "0.2.0"
          else "0.1.0"
      | _ => "0.1.0"
      end
  end.

(** The inner [for] of [findMigrationPath]: enqueue the unvisited
    targets of the migrations leaving the current version. *)
Fixpoint enqueueAll (path : list MigrationPath)
    (possibleMigrations : list MigrationPath)
    (queue : list (string * list MigrationPath)) (seen : gset string)
    : list (string * list MigrationPath) * gset string :=
  match possibleMigrations with
  | [] => (queue, seen)
  | migration :: rest =>
      if decide (toVersion migration ∈ seen) then enqueueAll path rest queue seen
      else enqueueAll path rest
             (queue ++ [(toVersion migration, path ++ [migration])])
             ({[toVersion migration]} ∪ seen)
  end.

(** The [while (queue.length > 0)] loop; [None] is more than [fuel]
    iterations. *)
Fixpoint searchLoop (fuel : nat) (availableMigrations : list MigrationPath)
    (target : string) (queue : list (string * list MigrationPath))
    (seen : gset string) : option (list MigrationPath) :=
  match fuel with
  | O => None
  | S fuel' =>
      match queue with
      | [] => Some []
      | (currentVersion, path) :: queue' =>
          if decide (currentVersion = target) then Some path
          else
            let possibleMigrations :=
              filter (λ migration, fromVersion migration = currentVersion)
                     availableMigrations in
            let '(queue'', seen') :=
              enqueueAll path possibleMigrations queue' seen in
            searchLoop fuel' availableMigrations target queue'' seen'
      end
  end.

(** [findMigrationPath(fromVersion, toVersion)]; the loop dequeues the
    start version and then at most one entry per catalog step. *)
Definition findMigrationPath (availableMigrations : list MigrationPath)
    (source target : string) : option (list MigrationPath) :=
  searchLoop (S (S (length availableMigrations))) availableMigrations target
             [(source, [])] {[source]}.

(** [for (const step of migrationPath) step.migrate(this.dataFile)] *)
Fixpoint executeMigrations (migrationPath : list MigrationPath)
    (dataFile : string) (fs : Files) : bool * Files :=
  match migrationPath with
  | [] => (true, fs)
  | step :: rest =>
      match migrate step dataFile fs with
      | (true, fs') => executeMigrations rest dataFile fs'
      | (false, fs') => (false, fs')
      end
  end.

Inductive Outcome := Returned | ProcessExit.

(** [runMigrationIfNeeded()], after [discoverMigrations] has filled
    [availableMigrations]. *)
Definition runMigrationIfNeeded (availableMigrations : list MigrationPath)
    (dataFile : string) (fs : Files) : Outcome * Files :=
  match readFileSync dataFile fs with
  | None => (ProcessExit, fs)
  | Some rawData =>
      let currentDataVersion := detectDataVersion rawData in
      if decide (currentDataVersion = currentAppVersion) then (Returned, fs)
      else
        match findMigrationPath availableMigrations currentDataVersion
                                currentAppVersion with
        | None | Some [] => (ProcessExit, fs)
        | Some migrationPath =>
            match executeMigrations migrationPath dataFile fs with
            | (true, fs') => (Returned, fs')
            | (false, fs') => (ProcessExit, fs')
            end
        end
  end.

(** ** Migration v0.1.0 to v0.2.0 *)

(** [s.replace(pattern, replacement)] with a string pattern: the first
    occurrence only. *)
Fixpoint replaceFirst (pattern replacement s : string) : string :=
  if String.prefix pattern s then
    replacement +:+ String.substring (String.length pattern)
                      (String.length s - String.length pattern) s
  else match s with
       | EmptyString => EmptyString
       | String c s' => String c (replaceFirst pattern replacement s')
       end.

(** [{ ...legacyTicket, blockedBy: legacyTicket.dependencies }] followed
    by [delete newTickets[id].dependencies]. *)
Definition renameDependencies (legacyTicket : RawTicket) : RawTicket :=
  mkRaw (r_id legacyTicket) (r_title legacyTicket) (r_description legacyTicket)
        (r_projects legacyTicket) None (r_dependencies legacyTicket)
        (r_createdAt legacyTicket) (r_updatedAt legacyTicket)
        (r_status legacyTicket).

(** [newTickets[id] = ...] on the object literal [newTickets]: a key
    already there is replaced in place, a new one is appended, and
    ["__proto__"] sets the prototype of [newTickets] instead of adding
    a key, so that [JSON.stringify] does not see the entry. *)
Fixpoint assignOwn (i : string) (t : RawTicket) (o : list (string * RawTicket))
    : list (string * RawTicket) :=
  match o with
  | [] => [(i, t)]
  | (k, v) :: rest => if decide (k = i) then (k, t) :: rest
                      else (k, v) :: assignOwn i t rest
  end.

Definition assign (i : string) (t : RawTicket) (o : list (string * RawTicket))
    : list (string * RawTicket) :=
  if decide (i = "__proto__") then o else assignOwn i t o.

Definition migrateFrom0_1_0To0_2_0 (dataFile : string) (fs : Files)
    : bool * Files :=
  let backupFile := replaceFirst ".json" ".0.1.0.json" dataFile in
  match readFileSync dataFile fs with
  | None => (false, fs)
  | Some originalData =>
      let fs := writeFileSync backupFile originalData fs in
      match r_tickets originalData with
      | None => (false, fs)        (* [Object.entries(undefined)] throws *)
      | Some legacyTickets =>
          let newTickets :=
            fold_left (λ acc '(i, legacyTicket),
                         assign i (renameDependencies legacyTicket) acc)
                      legacyTickets [] in
          let newData :=
            mkRawData (Some "0.2.0") (Some newTickets) (r_nextId originalData) in
          (true, writeFileSync dataFile newData fs)
      end
  end.

(** [export const migration] *)
Definition migration : MigrationPath :=
  mkMigration "0.1.0" "0.2.0" "v0.1.0-to-v0.2.0.js" migrateFrom0_1_0To0_2_0.

(** ** Start-up *)

(** [initializeDataFile()]: a missing file is created empty at the
    current version; an existing one goes through the migration check. *)
Definition initialData : RawData := mkRawData (Some "0.2.0") (Some []) 1.

Definition initializeDataFile (availableMigrations : list MigrationPath)
    (dataFile : string) (fs : Files) : Outcome * Files :=
  if decide (is_Some (contents fs !! dataFile)) then
    runMigrationIfNeeded availableMigrations dataFile fs
  else (Returned, writeFileSync dataFile initialData fs).

(** ** Notions the properties are stated with *)

(** *** The hypothetical dependency graph of a cycle check *)

(** [u] is blocked by [v] in the graph of a check: the edges of
    [ticketId] are the candidate list, those of any other stored ticket
    are its stored [blockedBy]. *)
Definition edge (ticketId : string) (candidate : list string)
    (storage : TicketStorage) (u v : string) : Prop :=
  (u = ticketId ∧ v ∈ candidate)
  ∨ (u ≠ ticketId ∧
     ∃ t deps, tickets storage !! u = Some t ∧ blockedBy t = Some deps ∧ v ∈ deps).

(** Nodes of that graph: the stored tickets plus [ticketId]. *)
Definition graphNodes (ticketId : string) (storage : TicketStorage)
    : gset string :=
  {[ticketId]} ∪ dom (tickets storage).

(** Its edges: a reference to an id outside the node set is no edge. *)
Definition graphEdge (ticketId : string) (candidate : list string)
    (storage : TicketStorage) (u v : string) : Prop :=
  u ∈ graphNodes ticketId storage ∧ v ∈ graphNodes ticketId storage ∧
  edge ticketId candidate storage u v.

(** A cycle that can be reached from [ticketId]. *)
Definition cycleReachable (ticketId : string) (candidate : list string)
    (storage : TicketStorage) : Prop :=
  ∃ c, rtc (graphEdge ticketId candidate storage) ticketId c ∧
       tc (graphEdge ticketId candidate storage) c c.

Definition closedUnder (R : relation string) (X : gset string) : Prop :=
  ∀ v w, v ∈ X → R v w → w ∈ X.

Definition cycleFree (R : relation string) (X : gset string) : Prop :=
  ∀ v, v ∈ X → ¬ tc R v v.

Definition marked (m : Marks) : gset string := visiting m ∪ visited m.

(** What one call of [hasCycle] guarantees about the marks. *)
Definition callSpec (R : relation string)
    (rec : string → Marks → option (bool * Marks)) : Prop :=
  ∀ i m r m',
    rec i m = Some (r, m') →
    closedUnder R (visited m) → cycleFree R (visited m) →
    (∀ v, v ∈ visiting m → tc R v i) →
    if r then ∃ c, rtc R i c ∧ tc R c c
    else visited m ⊆ visited m' ∧ i ∈ visited m' ∧
         closedUnder R (visited m') ∧ cycleFree R (visited m') ∧
         visiting m' ⊆ visiting m.

(** A call returns whenever the fuel exceeds the number of unmarked nodes. *)
Definition callTotal (nodes : gset string) (fuel : nat)
    (rec : string → Marks → option (bool * Marks)) : Prop :=
  ∀ i m, size (nodes ∖ marked m) < fuel →
         ∃ r m', rec i m = Some (r, m') ∧ marked m ⊆ marked m'.

(** *** Ids the existence tests accept *)

(** The read [storage.tickets[i]] is truthy: [i] is a key of [tickets]
    or a name inherited from [Object.prototype]. *)
Definition resolves (storage : TicketStorage) (i : string) : Prop :=
  is_Some (tickets storage !! i) ∨ i ∈ prototypeMembers.

(** Every stored ticket has a [blockedBy] array. *)
Definition allBlockedBy (storage : TicketStorage) : Prop :=
  ∀ k t, tickets storage !! k = Some t → is_Some (blockedBy t).

(** The entries of a ticket's [blockedBy], none when it is absent. *)
Definition blockers (t : Ticket) : list string := default [] (blockedBy t).

(** The largest counter value [+= 1] still advances from. *)
Definition maxSafe : N := (2 ^ 53)%N.

(** *** Failing batch items *)

(** Some item of a [createTickets] batch fails: one of its dependencies
    does not resolve in the document as read, or a cycle is reachable
    from the id minted for it in the snapshot that holds the siblings
    created before it. *)
Definition createItemFails (now : string) (items : list TicketCreateData)
    (file : TicketStorage) : Prop :=
  (∃ item d, item ∈ items ∧ d ∈ default [] (c_blockedBy item)
             ∧ ¬ resolves file d)
  ∨ (∃ before item after storage created,
       items = before ++ item :: after ∧
       createAll now before file [] = Ok (storage, created) ∧
       cycleReachable (generateId storage).1
         (default [] (c_blockedBy item)) (generateId storage).2).

(** Some item of an [updateTickets] batch fails: its ticket is not
    found, or its new [blockedBy] holds its own id, holds an id that
    does not resolve, or closes a cycle. *)
Definition updateItemFails (updates : list TicketUpdateData)
    (file : TicketStorage) : Prop :=
  ∃ update, update ∈ updates ∧
    (¬ resolves file (u_ticketId update)
     ∨ ∃ deps, u_blockedBy update = Some deps ∧
         (u_ticketId update ∈ deps
          ∨ (∃ d, d ∈ deps ∧ ¬ resolves file d)
          ∨ cycleReachable (u_ticketId update) deps file)).

(** *** Sample documents *)

Definition sampleTicket (i : string) (deps : list string) (st : string)
    : Ticket :=
  mkTicket (Some i) (Some ("Title of " +:+ i)) (Some "") (Some ["demo"]) None
           (Some deps) (Some "2025-01-01T00:00:00.000Z")
           (Some "2025-01-01T00:00:00.000Z") (Some st).

(** Two open tickets without dependencies. *)
Definition docTwo : TicketStorage :=
  mkStorage "0.2.0"
    (<["TICKET-0001" := sampleTicket "TICKET-0001" [] "open"]>
       (<["TICKET-0002" := sampleTicket "TICKET-0002" [] "open"]> ∅))
    3.

(** [TICKET-0002] is blocked by [TICKET-0001]. *)
Definition docChain : TicketStorage :=
  mkStorage "0.2.0"
    (<["TICKET-0001" := sampleTicket "TICKET-0001" [] "open"]>
       (<["TICKET-0002" := sampleTicket "TICKET-0002" ["TICKET-0001"] "open"]> ∅))
    3.

(** An update record with the declared properties only. *)
Definition declaredUpdate (ticketId : string) (title description : option string)
    (blockedBy : option (list string)) (status : option string)
    : TicketUpdateData :=
  mkUpdate ticketId title description blockedBy status None None None None None.

(** *** Update records of one ticket *)

(** The records of a batch that address ticket [k], in batch order. *)
Definition updatesFor (k : string) (updates : list TicketUpdateData)
    : list TicketUpdateData :=
  filter (λ u, u_ticketId u = k) updates.

(** What the third loop of [updateTickets] spreads for key [k]: the
    stored ticket; for an inherited member nothing, except that
    ["__proto__"] yields the object an earlier record installed. *)
Definition baseTicket (storage : TicketStorage) (proto : option Ticket)
    (k : string) : Ticket :=
  match tickets storage !! k with
  | Some t => t
  | None => if decide (k = "__proto__") then default noTicket proto
            else noTicket
  end.

(** The object [storage.tickets] after one record. *)
Definition applied (now : string) (u : TicketUpdateData)
    (storage : TicketStorage) (proto : option Ticket)
    : TicketStorage * option Ticket :=
  let updatedTicket :=
    mergeUpdate now (baseTicket storage proto (u_ticketId u)) u in
  match tickets storage !! u_ticketId u with
  | Some _ => (setTicket (u_ticketId u) updatedTicket storage, proto)
  | None =>
      if decide (u_ticketId u = "__proto__") then (storage, Some updatedTicket)
      else (setTicket (u_ticketId u) updatedTicket storage, proto)
  end.

(** A key that is never stored: ["__proto__"] when the document does
    not have it as an own key. *)
Definition protoKey (storage : TicketStorage) (k : string) : Prop :=
  k = "__proto__" ∧ tickets storage !! k = None.

(** The fields a batch leaves alone in a ticket: each property that none
    of the records addressed to it carries. *)
Definition untouched (records : list TicketUpdateData) (t t' : Ticket) : Prop :=
  (Forall (λ u, u_id u = None) records → id t' = id t)
  ∧ (Forall (λ u, u_title u = None) records → title t' = title t)
  ∧ (Forall (λ u, u_description u = None) records →
       description t' = description t)
  ∧ (Forall (λ u, u_projects u = None) records → projects t' = projects t)
  ∧ (Forall (λ u, u_projectId u = None) records → projectId t' = projectId t)
  ∧ (Forall (λ u, u_blockedBy u = None) records → blockedBy t' = blockedBy t)
  ∧ (Forall (λ u, u_createdAt u = None) records → createdAt t' = createdAt t)
  ∧ (Forall (λ u, u_status u = None) records → status t' = status t).

(** A record that carries only what [interface TicketUpdateData]
    declares. *)
Definition declared (u : TicketUpdateData) : Prop :=
  u_id u = None ∧ u_projects u = None ∧ u_projectId u = None
  ∧ u_createdAt u = None ∧ u_updatedAt u = None.

(** The identity fields of a ticket. *)
Definition sameIdentity (t t' : Ticket) : Prop :=
  id t' = id t ∧ createdAt t' = createdAt t ∧ projects t' = projects t
  ∧ projectId t' = projectId t.

(** *** Committed documents *)

(** One successful mutating operation of the ticket service: the file
    goes from [file] to [file']. *)
Inductive commit (file file' : TicketStorage) : Prop :=
  | commit_create now title description projects blockedBy ticket :
      createTicket now title description projects blockedBy file
        = (Ok ticket, file') → commit file file'
  | commit_createBatch now items created :
      createTickets now items file = (Ok created, file') → commit file file'
  | commit_updateBatch now updates updated :
      updateTickets now updates file = (Ok updated, file') → commit file file'
  | commit_delete ticketId :
      deleteTicket ticketId file = (Ok true, file') → commit file file'.

(** One successful mutating operation whose update batch, if any, has a
    single record. *)
Inductive commitOne (file file' : TicketStorage) : Prop :=
  | one_create now title description projects blockedBy ticket :
      createTicket now title description projects blockedBy file
        = (Ok ticket, file') → commitOne file file'
  | one_createBatch now items created :
      createTickets now items file = (Ok created, file') → commitOne file file'
  | one_update now update updated :
      updateTickets now [update] file = (Ok updated, file') →
      commitOne file file'
  | one_delete ticketId :
      deleteTicket ticketId file = (Ok true, file') → commitOne file file'.

(** *** The stored dependency graph *)

(** [u] is a stored ticket whose [blockedBy] holds [v]. *)
Definition blocks (storage : TicketStorage) (u v : string) : Prop :=
  ∃ t deps, tickets storage !! u = Some t ∧ blockedBy t = Some deps ∧ v ∈ deps.

Definition acyclic (storage : TicketStorage) : Prop :=
  ∀ c, ¬ tc (blocks storage) c c.

(** The batch that makes two tickets block each other. *)
Definition mutualUpdates : list TicketUpdateData :=
  [declaredUpdate "TICKET-0001" None None (Some ["TICKET-0002"]) None;
   declaredUpdate "TICKET-0002" None None (Some ["TICKET-0001"]) None].

(** *** Self-references *)




(** A v0.1.0 data file whose only ticket depends on itself. *)
Definition legacySelf : RawData :=
  mkRawData None
    (Some [("TICKET-0001",
            mkRaw "TICKET-0001" "Legacy" "" (Some []) (Some ["TICKET-0001"]) None
                  "2025-01-01T00:00:00.000Z" "2025-01-01T00:00:00.000Z" "open")])
    2.

Definition legacyFiles : Files :=
  mkFiles {["data/tickets.json" := legacySelf]} [].

(** *** Research trees *)

(** The [id] fields of the stored tickets. *)
Definition storedIds (storage : TicketStorage) : gset (option string) :=
  list_to_set (id <$> ticketValues storage).

(** The [(id, title)] pairs of all nodes of a tree. *)
Fixpoint nodeLabels (n : ResearchTreeNode)
    : list (option string * option string) :=
  match n with
  | TreeNode i t kids => (i, t) :: concat (map nodeLabels kids)
  end.

Definition treeLabels (tree : list ResearchTreeNode)
    : list (option string * option string) :=
  concat (map nodeLabels tree).

(** Number of nodes on the longest root-to-leaf chain.  A node at depth
    [k] is built by a chain of [k] recursive calls. *)
Fixpoint nodeDepth (n : ResearchTreeNode) : nat :=
  match n with
  | TreeNode _ _ kids => S (max_list (map nodeDepth kids))
  end.

Definition treeDepth (tree : list ResearchTreeNode) : nat :=
  max_list (map nodeDepth tree).

(** A node that stands for a stored ticket that is not closed. *)
Definition openTicketLabel (storage : TicketStorage)
    (l : option string * option string) : Prop :=
  ∃ k t, tickets storage !! k = Some t ∧ id t = l.1 ∧ title t = l.2
         ∧ status t ≠ Some "closed".

(** Two tickets that block each other (stored cycle). *)
Definition docMutual : TicketStorage :=
  mkStorage "0.2.0"
    (<["TICKET-0001" := sampleTicket "TICKET-0001" ["TICKET-0002"] "open"]>
       (<["TICKET-0002" := sampleTicket "TICKET-0002" ["TICKET-0001"] "open"]> ∅))
    3.

(** A single ticket that lists itself in [blockedBy] (stored cycle). *)
Definition docSelf : TicketStorage :=
  mkStorage "0.2.0"
    (<["TICKET-0001" := sampleTicket "TICKET-0001" ["TICKET-0001"] "open"]> ∅) 2.

(** *** Sample data files *)

(** A current-version data file, with its explicit [version] field. *)
Definition currentData : RawData :=
  mkRawData (Some "0.2.0")
    (Some [("TICKET-0001",
            mkRaw "TICKET-0001" "Current" "" (Some []) None (Some [])
                  "2025-01-01T00:00:00.000Z" "2025-01-01T00:00:00.000Z" "open")])
    2.

Definition currentFiles : Files :=
  mkFiles {["data/tickets.json" := currentData]} [].

(** *** Chains of migration steps *)

(** [steps] are catalog steps that lead from [source] to [target], each
    starting at the version the previous one produced. *)
Fixpoint chain (catalog : list MigrationPath) (source target : string)
    (steps : list MigrationPath) : Prop :=
  match steps with
  | [] => source = target
  | step :: rest =>
      step ∈ catalog ∧ fromVersion step = source
      ∧ chain catalog (toVersion step) target rest
  end.

(** Versions some catalog step produces. *)
Definition catalogTargets (catalog : list MigrationPath) : gset string :=
  list_to_set (toVersion <$> catalog).

(** The state of the search loop between two iterations.  The queue is
    [level ++ next]: entries whose path has [d] steps, then entries
    whose path has [d + 1] steps; [finished] are the versions already
    dequeued. *)
Record searchInv (catalog : list MigrationPath) (source target : string)
    (d : nat) (level next : list (string * list MigrationPath))
    (seen finished : gset string) : Prop := mkSearchInv {
  inv_chain : ∀ v p, (v, p) ∈ level ++ next → chain catalog source v p;
  inv_level : ∀ v p, (v, p) ∈ level → length p = d;
  inv_next : ∀ v p, (v, p) ∈ next → length p = S d;
  inv_seen : ∀ v, v ∈ seen ↔ v ∈ finished ∨ v ∈ (level ++ next).*1;
  inv_finished : ∀ v, v ∈ finished →
      v ≠ target
      ∧ ∀ m, m ∈ catalog → fromVersion m = v → toVersion m ∈ seen;
  inv_near : ∀ w steps, chain catalog source w steps → length steps ≤ d →
      w ∈ finished ∨ (length steps = d ∧ w ∈ level.*1)
}.

(** What the search must return. *)
Definition shortestChain (catalog : list MigrationPath)
    (source target : string) (path : list MigrationPath) : Prop :=
  (∀ steps, chain catalog source target steps →
     chain catalog source target path ∧ length path ≤ length steps)
  ∧ ((∀ steps, ¬ chain catalog source target steps) → path = []).

(** *** The renamed field *)

(** [t'] is the legacy ticket [t] with [dependencies] renamed to
    [blockedBy]: the new [blockedBy] is the old [dependencies], there is
    no [dependencies] any more, and the other fields are kept. *)
Definition renamed (t t' : RawTicket) : Prop :=
  r_blockedBy t' = r_dependencies t ∧ r_dependencies t' = None
  ∧ r_id t' = r_id t ∧ r_title t' = r_title t
  ∧ r_description t' = r_description t ∧ r_projects t' = r_projects t
  ∧ r_createdAt t' = r_createdAt t ∧ r_updatedAt t' = r_updatedAt t
  ∧ r_status t' = r_status t.

(** The entries of a parsed object that an assignment by key can
    store: all but ["__proto__"]. *)
Definition storable (entries : list (string * RawTicket))
    : list (string * RawTicket) :=
  filter (λ entry, entry.1 ≠ "__proto__") entries.

(** *** Minted ids *)

(** The id minted from counter value [n]. *)
Definition ticketIdOf (n : N) : string := "TICKET-" +:+ padStart4 (pretty n).

(** A decimal digit. *)
Definition isDigit (c : Ascii.ascii) : Prop :=
  (48 ≤ Ascii.N_of_ascii c ≤ 57)%N.

Fixpoint allDigits (s : string) : Prop :=
  match s with
  | EmptyString => True
  | String c rest => isDigit c ∧ allDigits rest
  end.

(** Decimal value of a string of digits, most significant first. *)
Fixpoint decimalValue (s : string) : N :=
  match s with
  | EmptyString => 0
  | String c rest =>
      ((Ascii.N_of_ascii c - 48) * 10 ^ N.of_nat (String.length rest)
       + decimalValue rest)%N
  end.

(** The number after the ["TICKET-"] prefix of an id. *)
Definition idNumber (i : string) : N :=
  decimalValue (String.substring 7 (String.length i - 7) i).

(** *** Invariants of committed documents *)

(** Every id a [blockedBy] list names resolves. *)
Definition depsResolve (storage : TicketStorage) : Prop :=
  ∀ k t d, tickets storage !! k = Some t → d ∈ blockers t →
           resolves storage d.

(** No id the counter can still mint is in use. *)
Definition counterFresh (storage : TicketStorage) : Prop :=
  ∀ n, (nextId storage ≤ n)%N → tickets storage !! ticketIdOf n = None.

(** An empty document whose counter has reached the largest value
    [+= 1] cannot advance from. *)
Definition docFull : TicketStorage := mkStorage "0.2.0" ∅ maxSafe.

(** *** Listing and selection *)

(** A filter argument that is given and not empty. *)
Definition given (arg : option string) (v : string) : Prop :=
  arg = Some v ∧ v ≠ "".

(** [t] belongs to [project], names compared through [toLowerCase]: by
    its [projects] array when it has one, else by a non-empty legacy
    [projectId]. *)
Definition belongsTo (toLowerCase : string → string) (project : string)
    (t : Ticket) : Prop :=
  (∃ ps p, projects t = Some ps ∧ p ∈ ps ∧ toLowerCase p = toLowerCase project)
  ∨ (projects t = None
     ∧ ∃ pid, projectId t = Some pid ∧ pid ≠ ""
              ∧ toLowerCase pid = toLowerCase project).

(** [t] is stored and passes every filter that is given. *)
Definition listed (toLowerCase : string → string)
    (project statusFilter dependsOn : option string) (storage : TicketStorage)
    (t : Ticket) : Prop :=
  (∃ k, tickets storage !! k = Some t)
  ∧ (∀ p, given project p → belongsTo toLowerCase p t)
  ∧ (∀ s, given statusFilter s → status t = Some s)
  ∧ (∀ d, given dependsOn d → d ∈ blockers t).

(** [t] is not closed and every id in its [blockedBy] is the key of a
    closed ticket. *)
Definition ready (storage : TicketStorage) (t : Ticket) : Prop :=
  status t ≠ Some "closed"
  ∧ ∃ deps, blockedBy t = Some deps
      ∧ ∀ d, d ∈ deps →
          ∃ dt, tickets storage !! d = Some dt ∧ status dt = Some "closed".

(** The creation date parses. *)
Definition dated (getTime : string → option Z) (created : option string)
    : Prop :=
  ∃ s z, created = Some s ∧ getTime s = Some z.

(** Both creation dates parse and the first is not the older one. *)
Definition notOlder (getTime : string → option Z) (a b : option string)
    : Prop :=
  ∃ sa sb ta tb, a = Some sa ∧ b = Some sb
    ∧ getTime sa = Some ta ∧ getTime sb = Some tb ∧ (tb ≤ ta)%Z.

(** * Properties *)

(** ** Callbacks that may throw *)

Lemma not_Ok_Throw (r : result unit) : r ≠ Ok tt ↔ ∃ e, r = Throw e.
Proof. destruct r as [[]|e]; split; [done|by intros [? ?]|eauto|done]. Qed.

Lemma tryFilter_Ok {A} (f : A → result bool) l l' :
  tryFilter f l = Ok l' →
  Forall (λ x, ∃ b, f x = Ok b) l ∧ l' = filter (λ x, f x = Ok true) l.
Proof.
  revert l'. induction l as [|x l IH]; intros l'; simpl.
  - intros [= <-]. by split.
  - destruct (f x) as [b|] eqn:Hx; simpl; [|done].
    destruct (tryFilter f l) as [kept|]; simpl; [|done].
    intros [= <-]. destruct (IH kept eq_refl) as [Hall ->].
    split; [constructor; eauto|].
    rewrite filter_cons. destruct b.
    + rewrite decide_True by done. done.
    + rewrite decide_False by congruence. done.
Qed.

Lemma tryFilter_total {A} (f : A → result bool) l :
  Forall (λ x, ∃ b, f x = Ok b) l →
  tryFilter f l = Ok (filter (λ x, f x = Ok true) l).
Proof.
  induction 1 as [|x l [b Hb] _ IH]; simpl; [done|].
  rewrite Hb, IH. simpl. rewrite filter_cons. destruct b.
  - rewrite decide_True by done. done.
  - rewrite decide_False by congruence. done.
Qed.

Lemma tryFilter_Throw {A} (f : A → result bool) l e :
  tryFilter f l = Throw e → ∃ x, x ∈ l ∧ f x = Throw e.
Proof.
  induction l as [|x l IH]; simpl; [done|].
  destruct (f x) as [b|e'] eqn:Hx; simpl.
  - destruct (tryFilter f l) as [kept|e'']; simpl; [done|].
    intros [= ->]. destruct IH as (y & Hy & Hf); [done|].
    exists y. split; [by apply list_elem_of_further|done].
  - intros [= ->]. exists x. split; [apply list_elem_of_here|done].
Qed.

Lemma tryMap_Ok {A B} (f : A → result B) l l' :
  tryMap f l = Ok l' ↔ Forall2 (λ x y, f x = Ok y) l l'.
Proof.
  revert l'. induction l as [|x l IH]; intros l'; simpl.
  - split; [intros [= <-]; constructor|by inversion 1].
  - split.
    + destruct (f x) as [y|] eqn:Hx; simpl; [|done].
      destruct (tryMap f l) as [ys|]; simpl; [|done].
      intros [= <-]. constructor; [done|]. by apply IH.
    + inversion 1 as [|? y ? ys Hy Hys]; subst.
      rewrite Hy. simpl. apply IH in Hys. by rewrite Hys.
Qed.

Lemma tryMap_Throw {A B} (f : A → result B) l e :
  tryMap f l = Throw e → ∃ x, x ∈ l ∧ f x = Throw e.
Proof.
  induction l as [|x l IH]; simpl; [done|].
  destruct (f x) as [b|e'] eqn:Hx; simpl.
  - destruct (tryMap f l) as [kept|e'']; simpl; [done|].
    intros [= ->]. destruct IH as (y & Hy & Hf); [done|].
    exists y. split; [by apply list_elem_of_further|done].
  - intros [= ->]. exists x. split; [apply list_elem_of_here|done].
Qed.

Lemma tryMap_total {A B} (f : A → result B) l :
  (∀ x, x ∈ l → ∃ y, f x = Ok y) → ∃ l', tryMap f l = Ok l'.
Proof.
  induction l as [|x l IH]; intros Hall; simpl; [eauto|].
  destruct (Hall x) as [y ->]; [apply list_elem_of_here|].
  destruct IH as [ys ->]; [intros; apply Hall; by apply list_elem_of_further|].
  simpl. eauto.
Qed.

Lemma Forall2_elem_r {A B} (P : A → B → Prop) l k y :
  Forall2 P l k → y ∈ k → ∃ x, x ∈ l ∧ P x y.
Proof.
  induction 1 as [|x y' l k Hxy _ IH]; intros Hin; [by apply elem_of_nil in Hin|].
  apply elem_of_cons in Hin as [->|Hin].
  - exists x. split; [apply list_elem_of_here|done].
  - destruct (IH Hin) as (x' & Hx' & HP). exists x'.
    split; [by apply list_elem_of_further|done].
Qed.

Lemma Forall2_elem_l {A B} (P : A → B → Prop) l k x :
  Forall2 P l k → x ∈ l → ∃ y, y ∈ k ∧ P x y.
Proof.
  induction 1 as [|x' y l k Hxy _ IH]; intros Hin; [by apply elem_of_nil in Hin|].
  apply elem_of_cons in Hin as [->|Hin].
  - exists y. split; [apply list_elem_of_here|done].
  - destruct (IH Hin) as (y' & Hy' & HP). exists y'.
    split; [by apply list_elem_of_further|done].
Qed.

(** ** Reads on [storage.tickets] *)

Lemma getTicket_resolves storage i :
  is_Some (getTicket storage i) ↔ resolves storage i.
Proof.
  unfold getTicket, resolves. destruct (tickets storage !! i) as [t|].
  - split; [intros _; left; eauto|eauto].
  - destruct (decide (i ∈ prototypeMembers)); split; eauto.
    + intros [? ?]; done.
    + intros [[? ?]|?]; done.
Qed.

Lemma getTicket_None storage i :
  getTicket storage i = None ↔ ¬ resolves storage i.
Proof.
  rewrite <- getTicket_resolves, eq_None_not_Some. done.
Qed.

Lemma getTicket_own storage i t :
  tickets storage !! i = Some t → getTicket storage i = Some (TicketValue t).
Proof. unfold getTicket. by intros ->. Qed.

Lemma getTicket_TicketValue storage i t :
  getTicket storage i = Some (TicketValue t) ↔ tickets storage !! i = Some t.
Proof.
  unfold getTicket. destruct (tickets storage !! i) as [t'|].
  - split; by intros [= ->].
  - by destruct (decide (i ∈ prototypeMembers)).
Qed.

Lemma elem_of_ticketValues storage t :
  t ∈ ticketValues storage ↔ ∃ k, tickets storage !! k = Some t.
Proof.
  unfold ticketValues. rewrite list_elem_of_fmap. split.
  - intros ([k t'] & -> & Hin). exists k. by apply elem_of_map_to_list.
  - intros (k & Hk). exists (k, t). split; [done|]. by apply elem_of_map_to_list.
Qed.

Lemma allBlockedBy_forallb storage :
  forallb (λ ticket, bool_decide (is_Some (blockedBy ticket)))
          (ticketValues storage) = true ↔ allBlockedBy storage.
Proof.
  rewrite forallb_forall. unfold allBlockedBy. split.
  - intros Hall k t Hk. eapply bool_decide_eq_true_1, Hall, list_elem_of_In.
    apply elem_of_ticketValues. eauto.
  - intros Hall t Ht. apply list_elem_of_In, elem_of_ticketValues in Ht as [k Hk].
    apply bool_decide_eq_true. eauto.
Qed.

(** ** The counter *)

Lemma toDouble_safe n : (n ≤ maxSafe)%N → toDouble n = n.
Proof.
  unfold maxSafe. intros Hn.
  destruct (decide (n = 2 ^ 53)%N) as [->|Hne]; [by vm_compute|].
  unfold toDouble. destruct (decide (n = 0%N)) as [->|Hpos]; [done|].
  assert (N.log2 n < 53)%N as Hlog by (apply N.log2_lt_pow2; lia).
  apply N.ltb_lt in Hlog. by rewrite Hlog.
Qed.

Lemma toDouble_succ n : (n < maxSafe)%N → toDouble (n + 1) = (n + 1)%N.
Proof. intros Hn. apply toDouble_safe. lia. Qed.

Lemma toDouble_stall : toDouble (maxSafe + 1) = maxSafe.
Proof. by vm_compute. Qed.

(** Within the safe range the counter never goes down and never leaves
    the range. *)
Lemma toDouble_succ_range n :
  (n ≤ maxSafe)%N →
  (n ≤ toDouble (n + 1) ≤ maxSafe)%N
  ∧ ((n < maxSafe)%N → toDouble (n + 1) = (n + 1)%N)
  ∧ (n = maxSafe → toDouble (n + 1) = n).
Proof.
  intros Hn. destruct (decide (n = maxSafe)) as [->|Hne].
  - rewrite toDouble_stall. split_and!; [lia|lia|lia|done].
  - rewrite toDouble_succ by lia. split_and!; [lia|lia|done|done].
Qed.

(** ** Cycle detection *)

(** The edges of the graph are what [hasCycle] iterates over. *)
Lemma edge_depsOf ticketId candidate storage u v :
  edge ticketId candidate storage u v
  ↔ v ∈ depsOf ticketId candidate storage u.
Proof.
  unfold edge, depsOf, getTicket.
  destruct (decide (u = ticketId)) as [->|Hne].
  - split; [intros [[_ ?]|[? _]]; done|by left].
  - split.
    + intros [[? _]|(_ & t & deps & Ht & Hd & Hv)]; [done|].
      by rewrite Ht; simpl; rewrite Hd.
    + intros Hv. right. split; [done|].
      destruct (tickets storage !! u) as [t|] eqn:Ht.
      * destruct (blockedBy t) as [deps|] eqn:Hd; simpl in Hv.
        -- eauto.
        -- by apply elem_of_nil in Hv.
      * destruct (decide (u ∈ prototypeMembers)); by apply elem_of_nil in Hv.
Qed.

(** An id outside the graph has no successors. *)
Lemma depsOf_outside ticketId candidate storage i :
  i ∉ graphNodes ticketId storage → depsOf ticketId candidate storage i = [].
Proof.
  unfold graphNodes, depsOf, getTicket. intros Hi.
  destruct (decide (i = ticketId)) as [->|_]; [set_solver|].
  destruct (tickets storage !! i) eqn:Hl.
  - exfalso. apply Hi, elem_of_union_r, elem_of_dom. eauto.
  - by destruct (decide (i ∈ prototypeMembers)).
Qed.

Section CycleCheck.
Variable ticketId : string.
Variable candidate : list string.
Variable storage : TicketStorage.

#[local] Abbreviation edge := (edge ticketId candidate storage).
#[local] Abbreviation graphNodes := (graphNodes ticketId storage).
#[local] Abbreviation graphEdge := (graphEdge ticketId candidate storage).
#[local] Abbreviation cycleReachable := (cycleReachable ticketId candidate storage).
#[local] Abbreviation closedUnder := (closedUnder edge).
#[local] Abbreviation cycleFree := (cycleFree edge).
#[local] Abbreviation callSpec := (callSpec edge).
#[local] Abbreviation callTotal := (callTotal graphNodes).

Lemma closedUnder_rtc X v w : closedUnder X → v ∈ X → rtc edge v w → w ∈ X.
Proof. intros HX Hv Hr. induction Hr; eauto. Qed.

Lemma closedUnder_extend X i :
  closedUnder X → (∀ w, edge i w → w ∈ X) → closedUnder ({[i]} ∪ X).
Proof.
  intros HX Hi v w Hv Hvw. apply elem_of_union in Hv as [Hv|Hv].
  - apply elem_of_singleton in Hv as ->. set_solver.
  - apply elem_of_union_r. eauto.
Qed.

Lemma cycleFree_extend X i :
  closedUnder X → cycleFree X → (∀ w, edge i w → w ∈ X) →
  cycleFree ({[i]} ∪ X).
Proof.
  intros HX HA Hi v Hv Hc.
  assert (v ∈ X) as HvX; [|by eapply HA].
  apply elem_of_union in Hv as [Hv|Hv]; [|done].
  apply elem_of_singleton in Hv as ->.
  inversion Hc as [? ? Hstep|? w ? Hstep Hrest]; subst.
  - by apply Hi.
  - eapply closedUnder_rtc; [done|by apply Hi|]. by apply tc_rtc.
Qed.

Lemma forDeps_spec rec owner :
  callSpec rec →
  ∀ deps m r m',
    forDeps rec deps m = Some (r, m') →
    (∀ d, d ∈ deps → edge owner d) →
    closedUnder (visited m) → cycleFree (visited m) →
    (∀ v, v ∈ visiting m → rtc edge v owner) →
    if r then ∃ c, rtc edge owner c ∧ tc edge c c
    else visited m ⊆ visited m' ∧ (∀ d, d ∈ deps → d ∈ visited m') ∧
         closedUnder (visited m') ∧ cycleFree (visited m') ∧
         visiting m' ⊆ visiting m.
Proof.
  intros Hrec deps. induction deps as [|d deps IH]; intros m r m' Hrun Hdeps HC HA HP.
  - simpl in Hrun. injection Hrun as <- <-. split_and!; set_solver.
  - simpl in Hrun.
    assert (∀ v, v ∈ visiting m → tc edge v d) as HPd.
    { intros v Hv. eapply tc_rtc_l; [by apply HP|].
      apply tc_once, Hdeps. set_solver. }
    destruct (rec d m) as [[[] m1]|] eqn:Hd; [| |done].
    + injection Hrun as <- <-.
      destruct (Hrec _ _ _ _ Hd HC HA HPd) as (c & Hdc & Hcc).
      exists c. split; [|done].
      eapply rtc_l; [|done]. apply Hdeps. set_solver.
    + destruct (Hrec _ _ _ _ Hd HC HA HPd) as (Hsub & Hdin & HC1 & HA1 & Hvis).
      assert (∀ v, v ∈ visiting m1 → rtc edge v owner) as HP1 by set_solver.
      assert (∀ d', d' ∈ deps → edge owner d') as Hdeps' by set_solver.
      pose proof (IH _ _ _ Hrun Hdeps' HC1 HA1 HP1) as Hrest.
      destruct r; [done|].
      destruct Hrest as (Hsub' & Hall & HC2 & HA2 & Hvis').
      split_and!; [set_solver| |done|done|set_solver].
      intros d' Hd'. apply elem_of_cons in Hd' as [->|Hd']; [set_solver|eauto].
Qed.

Lemma hasCycle_spec fuel : callSpec (hasCycle fuel ticketId candidate storage).
Proof.
  induction fuel as [|fuel IH]; intros i m r m' Hrun HC HA HP; [done|].
  simpl in Hrun.
  destruct (decide (i ∈ visiting m)) as [Hin|Hnin].
  { injection Hrun as <- <-. exists i. split; [done|by apply HP]. }
  destruct (decide (i ∈ visited m)) as [Hdone|Hnew].
  { injection Hrun as <- <-. split_and!; set_solver. }
  set (m1 := mkMarks ({[i]} ∪ visiting m) (visited m)) in *.
  assert (∀ v, v ∈ visiting m1 → rtc edge v i) as HP1.
  { simpl. intros v Hv. apply elem_of_union in Hv as [Hv|Hv].
    - apply elem_of_singleton in Hv as ->. done.
    - by apply tc_rtc, HP. }
  assert (∀ d, d ∈ depsOf ticketId candidate storage i → edge i d) as Hdeps
    by (intros d Hd; by apply edge_depsOf).
  destruct (forDeps _ _ _) as [[[] m2]|] eqn:Hloop; [| |done].
  - injection Hrun as <- <-.
    exact (forDeps_spec _ i IH _ _ _ _ Hloop Hdeps HC HA HP1).
  - injection Hrun as <- <-.
    destruct (forDeps_spec _ i IH _ _ _ _ Hloop Hdeps HC HA HP1)
      as (Hsub & Hall & HC2 & HA2 & Hvis).
    simpl in *. split_and!; [set_solver|set_solver| | |set_solver].
    + apply closedUnder_extend; [done|].
      intros w Hw. apply Hall. by apply edge_depsOf.
    + apply cycleFree_extend; [done|done|].
      intros w Hw. apply Hall. by apply edge_depsOf.
Qed.

(** *** The fuel is enough *)

Lemma forDeps_total fuel rec :
  callTotal fuel rec →
  ∀ deps m, size (graphNodes ∖ marked m) < fuel →
            ∃ r m', forDeps rec deps m = Some (r, m') ∧ marked m ⊆ marked m'.
Proof.
  intros Hrec deps. induction deps as [|d deps IH]; intros m Hm; simpl.
  - eauto.
  - destruct (Hrec d m Hm) as (r & m1 & -> & Hsub). destruct r; [eauto|].
    destruct (IH m1) as (r & m2 & -> & Hsub').
    + eapply Nat.le_lt_trans; [|done]. apply subseteq_size. set_solver.
    + exists r, m2. split; [done|set_solver].
Qed.

Lemma hasCycle_unfold fuel i m :
  hasCycle (S fuel) ticketId candidate storage i m =
  if decide (i ∈ visiting m) then Some (true, m)
  else if decide (i ∈ visited m) then Some (false, m)
  else
    let m1 := mkMarks ({[i]} ∪ visiting m) (visited m) in
    match forDeps (hasCycle fuel ticketId candidate storage)
                  (depsOf ticketId candidate storage i) m1 with
    | None => None
    | Some (true, m') => Some (true, m')
    | Some (false, m2) =>
        Some (false, mkMarks (visiting m2 ∖ {[i]}) ({[i]} ∪ visited m2))
    end.
Proof. reflexivity. Qed.

Lemma hasCycle_total fuel :
  callTotal fuel (hasCycle fuel ticketId candidate storage).
Proof.
  induction fuel as [|fuel IH]; intros i m Hm; [lia|].
  rewrite hasCycle_unfold.
  destruct (decide (i ∈ visiting m)); [eauto|].
  destruct (decide (i ∈ visited m)); [eauto|].
  cbv zeta. set (m1 := mkMarks ({[i]} ∪ visiting m) (visited m)).
  destruct (decide (i ∈ graphNodes)) as [Hi|Hout].
  - destruct (forDeps_total fuel _ IH
                (depsOf ticketId candidate storage i) m1) as (r & m2 & -> & Hsub).
    + assert (size (graphNodes ∖ marked m1) < size (graphNodes ∖ marked m)); [|lia].
      apply subset_size. unfold marked, m1; simpl. set_solver.
    + destruct r.
      * eexists _, _. split; [done|]. unfold marked, m1 in *; simpl in *. set_solver.
      * eexists _, _. split; [done|]. unfold marked, m1 in *; simpl in *.
        intros x Hx. destruct (decide (x = i)) as [->|]; set_solver.
  - rewrite depsOf_outside by done. simpl.
    eexists _, _. split; [done|]. unfold marked; simpl. set_solver.
Qed.

Lemma graphNodes_size : size graphNodes ≤ S (size (tickets storage)).
Proof.
  unfold graphNodes. rewrite size_union_alt, size_singleton.
  assert (size (dom (tickets storage) ∖ {[ticketId]}) ≤ size (dom (tickets storage)))
    by (apply subseteq_size; set_solver).
  rewrite size_dom in *. lia.
Qed.

(** The two outcomes of the check, on the unrestricted edge relation. *)
Lemma checkCircularDependency_cases :
  (checkCircularDependency ticketId candidate storage = Throw CircularDependency
   ∧ ∃ c, rtc edge ticketId c ∧ tc edge c c)
  ∨ (checkCircularDependency ticketId candidate storage = Ok tt
     ∧ ∀ c, rtc edge ticketId c → ¬ tc edge c c).
Proof.
  unfold checkCircularDependency.
  destruct (hasCycle_total (cycleFuel storage) ticketId (mkMarks ∅ ∅))
    as (r & m' & Hrun & _).
  { unfold cycleFuel. pose proof graphNodes_size.
    assert (size (graphNodes ∖ marked (mkMarks ∅ ∅)) ≤ size graphNodes)
      by (apply subseteq_size; set_solver).
    lia. }
  rewrite Hrun.
  pose proof (hasCycle_spec _ _ _ _ _ Hrun) as Hspec. simpl in Hspec.
  destruct r.
  - left. split; [done|]. apply Hspec; [intros ??|intros ?|intros ?]; set_solver.
  - right. split; [done|].
    destruct Hspec as (_ & Hin & HC & HA & _);
      [intros ??; set_solver|intros ?; set_solver|intros ?; set_solver|].
    intros c Hc. apply HA. by eapply closedUnder_rtc.
Qed.

Lemma edge_source u v : edge u v → u ∈ graphNodes.
Proof.
  intros Huv. destruct (decide (u ∈ graphNodes)) as [|Hout]; [done|].
  apply edge_depsOf in Huv.
  rewrite depsOf_outside in Huv by done. by apply elem_of_nil in Huv.
Qed.

Lemma graphEdge_edge u v : graphEdge u v → edge u v.
Proof. by intros (_ & _ & ?). Qed.

Lemma tc_edge_graphEdge u v :
  tc edge u v → v ∈ graphNodes → tc graphEdge u v.
Proof.
  induction 1 as [u v Huv|u w v Huw Hwv IH]; intros Hv.
  - apply tc_once. split_and!; [by eapply edge_source|done|done].
  - eapply tc_l; [|by apply IH]. split_and!; [by eapply edge_source| |done].
    inversion Hwv; subst; by eapply edge_source.
Qed.

Lemma rtc_edge_graphEdge u v :
  rtc edge u v → v ∈ graphNodes → rtc graphEdge u v.
Proof.
  intros Huv Hv. apply rtc_tc in Huv as [->|Huv]; [done|].
  by apply tc_rtc, tc_edge_graphEdge.
Qed.

Lemma cycleReachable_edge :
  cycleReachable ↔ ∃ c, rtc edge ticketId c ∧ tc edge c c.
Proof.
  split; intros (c & Hrc & Hcc); exists c.
  - split.
    + eapply rtc_subrel; [|done]. intros ??; apply graphEdge_edge.
    + eapply (tc_congruence (λ x, x)); [|done]. intros ??; apply graphEdge_edge.
  - assert (c ∈ graphNodes) as Hc.
    { inversion Hcc; subst; by eapply edge_source. }
    split; [by apply rtc_edge_graphEdge|by apply tc_edge_graphEdge].
Qed.
End CycleCheck.

(** The two outcomes of the check, on the graph of the stored tickets
    plus [ticketId]. *)
Lemma checkCircularDependency_spec ticketId candidate storage :
  (checkCircularDependency ticketId candidate storage = Throw CircularDependency
   ∧ cycleReachable ticketId candidate storage)
  ∨ (checkCircularDependency ticketId candidate storage = Ok tt
     ∧ ¬ cycleReachable ticketId candidate storage).
Proof.
  rewrite cycleReachable_edge.
  destruct (checkCircularDependency_cases ticketId candidate storage)
    as [[-> Hcyc]|[-> Hno]]; [by left|right].
  split; [done|]. intros (c & Hc & Hcc). by eapply Hno.
Qed.

Lemma checkCircularDependency_Ok_iff ticketId candidate storage :
  checkCircularDependency ticketId candidate storage = Ok tt
  ↔ ¬ cycleReachable ticketId candidate storage.
Proof.
  destruct (checkCircularDependency_spec ticketId candidate storage)
    as [[-> Hc]|[-> Hc]]; naive_solver.
Qed.

Lemma checkCircularDependency_Throw ticketId candidate storage e :
  checkCircularDependency ticketId candidate storage = Throw e →
  e = CircularDependency ∧ cycleReachable ticketId candidate storage.
Proof.
  destruct (checkCircularDependency_spec ticketId candidate storage)
    as [[-> Hc]|[-> Hc]]; naive_solver.
Qed.



(** C3. [checkCircularDependency(ticketId, blockedBy, storage)] throws
    the circular-dependency error exactly when the graph on the stored
    tickets plus [ticketId], in which the edges of [ticketId] are the
    candidate list (whatever is stored for it) and the edges of every
    other stored ticket are its stored [blockedBy], has a cycle reachable
    from [ticketId]; otherwise it returns normally.  The traversal is
    [hasCycle], a depth-first search over the [visiting] (on-path) and
    [visited] (processed) sets, and its recursion never exceeds
    [cycleFuel]. *)
Theorem checkCircularDependency_iff ticketId candidate storage :
  (checkCircularDependency ticketId candidate storage = Throw CircularDependency
   ↔ cycleReachable ticketId candidate storage)
  ∧ (checkCircularDependency ticketId candidate storage = Ok tt
     ↔ ¬ cycleReachable ticketId candidate storage)
  ∧ checkCircularDependency ticketId candidate storage ≠ Throw StackExhausted.
Proof.
  destruct (checkCircularDependency_spec ticketId candidate storage)
    as [[-> Hcyc]|[-> Hno]].
  - naive_solver.
  - naive_solver.
Qed.

(** ** Dependency validation *)

Lemma validateDependencies_Ok deps storage excludeId :
  validateDependencies deps storage excludeId = Ok tt ↔
  ∀ d, d ∈ deps → Some d ≠ excludeId ∧ resolves storage d.
Proof.
  induction deps as [|x deps IH]; simpl.
  - split; [intros _ d Hd; by apply elem_of_nil in Hd|done].
  - destruct (decide (Some x = excludeId)) as [Heq|Hne].
    { split; [done|]. intros Hall. destruct (Hall x); [apply list_elem_of_here|done]. }
    destruct (getTicket storage x) as [v|] eqn:Hx.
    + rewrite IH. split.
      * intros Hall d Hd. apply elem_of_cons in Hd as [->|Hd]; [|by apply Hall].
        split; [done|]. apply getTicket_resolves. eauto.
      * intros Hall d Hd. apply Hall. by apply list_elem_of_further.
    + split; [done|]. intros Hall.
      destruct (Hall x) as [_ Hres]; [apply list_elem_of_here|].
      apply getTicket_None in Hx. done.
Qed.

Lemma validateDependencies_Throw deps storage excludeId e :
  validateDependencies deps storage excludeId = Throw e →
  (e = SelfDependency ∧ ∃ d, d ∈ deps ∧ Some d = excludeId)
  ∨ (∃ d, e = DependencyMissing d ∧ d ∈ deps ∧ ¬ resolves storage d).
Proof.
  induction deps as [|x deps IH]; simpl; [done|].
  destruct (decide (Some x = excludeId)) as [Heq|Hne].
  { intros [= <-]. left. split; [done|]. exists x. split; [apply list_elem_of_here|done]. }
  destruct (getTicket storage x) as [v|] eqn:Hx.
  - intros Hrun. destruct (IH Hrun) as [(-> & d & Hd & Heq)|(d & -> & Hd & Hnone)].
    + left. split; [done|]. exists d. split; [by apply list_elem_of_further|done].
    + right. exists d. split_and!; [done|by apply list_elem_of_further|done].
  - intros [= <-]. right. exists x. split_and!; [done|apply list_elem_of_here|].
    by apply getTicket_None.
Qed.


(** ** The passes of the batch operations *)

Lemma createValidate_Ok items file :
  createValidate items file = Ok tt ↔
  ∀ item d, item ∈ items → d ∈ default [] (c_blockedBy item) → resolves file d.
Proof.
  induction items as [|x items IH]; simpl.
  - split; [intros _ item d Hin; by apply elem_of_nil in Hin|done].
  - destruct (validateDependencies (default [] (c_blockedBy x)) file None)
      as [[]|e] eqn:Hx; simpl.
    + rewrite IH. pose proof (proj1 (validateDependencies_Ok _ _ _) Hx) as Hx'.
      split.
      * intros Hall item d Hin Hd.
        apply elem_of_cons in Hin as [->|Hin]; [by apply Hx'|by eapply Hall].
      * intros Hall item d Hin Hd. eapply Hall; [|done].
        by apply list_elem_of_further.
    + split; [done|]. intros Hall.
      apply validateDependencies_Throw in Hx
        as [(_ & d & _ & ?)|(d & _ & Hd & Hnone)]; [done|].
      destruct Hnone. eapply Hall; [apply list_elem_of_here|done].
Qed.

Lemma createValidate_Throw items file e :
  createValidate items file = Throw e →
  ∃ item d, item ∈ items ∧ d ∈ default [] (c_blockedBy item) ∧ ¬ resolves file d.
Proof.
  induction items as [|x items IH]; simpl; [done|].
  destruct (validateDependencies (default [] (c_blockedBy x)) file None)
    as [[]|e'] eqn:Hx; simpl.
  - intros Hrun. destruct (IH Hrun) as (item & d & Hin & Hd & Hnone).
    exists item, d. split_and!; [by apply list_elem_of_further|done|done].
  - intros _. apply validateDependencies_Throw in Hx
      as [(_ & d & _ & ?)|(d & _ & Hd & Hnone)]; [done|].
    exists x, d. split_and!; [apply list_elem_of_here|done|done].
Qed.

Lemma createAll_app now before rest storage created :
  createAll now (before ++ rest) storage created =
  match createAll now before storage created with
  | Ok (storage', created') => createAll now rest storage' created'
  | Throw e => Throw e
  end.
Proof.
  revert storage created. induction before as [|x before IH]; intros storage created;
    [done|].
  simpl. destruct (checkCircularDependency _ _ _); simpl; [apply IH|done].
Qed.

(** A failing second pass fails at the cycle check of one item, after
    the items before it went through. *)
Lemma createAll_Throw now items :
  ∀ storage created e,
    createAll now items storage created = Throw e →
    ∃ before item after storage' created',
      items = before ++ item :: after
      ∧ createAll now before storage created = Ok (storage', created')
      ∧ checkCircularDependency (generateId storage').1
          (default [] (c_blockedBy item)) (generateId storage').2 = Throw e.
Proof.
  induction items as [|x items IH]; intros storage created e Hrun; [done|].
  simpl in Hrun.
  destruct (checkCircularDependency _ _ _) as [[]|e'] eqn:Hcheck; simpl in Hrun.
  - destruct (IH _ _ _ Hrun) as (before & item & after & s' & c' & -> & Hb & Hc).
    exists (x :: before), item, after, s', c'. split_and!; [done| |done].
    simpl. by rewrite Hcheck.
  - injection Hrun as ->. exists [], x, items, storage, created. done.
Qed.

Lemma updateExist_Ok updates storage :
  updateExist updates storage = Ok tt ↔
  ∀ u, u ∈ updates → resolves storage (u_ticketId u).
Proof.
  induction updates as [|x updates IH]; simpl.
  - split; [intros _ u Hin; by apply elem_of_nil in Hin|done].
  - destruct (getTicket storage (u_ticketId x)) as [v|] eqn:Hx.
    + rewrite IH. split.
      * intros Hall u Hin. apply elem_of_cons in Hin as [->|Hin]; [|by apply Hall].
        apply getTicket_resolves. eauto.
      * intros Hall u Hin. apply Hall. by apply list_elem_of_further.
    + split; [done|]. intros Hall. apply getTicket_None in Hx.
      destruct Hx. apply Hall, list_elem_of_here.
Qed.

(** The first loop reports the first record whose ticket is not found. *)
Lemma updateExist_Throw updates storage e :
  updateExist updates storage = Throw e →
  ∃ before u after,
    updates = before ++ u :: after ∧ e = TicketNotFound (u_ticketId u)
    ∧ ¬ resolves storage (u_ticketId u)
    ∧ ∀ u', u' ∈ before → resolves storage (u_ticketId u').
Proof.
  induction updates as [|x updates IH]; simpl; [done|].
  destruct (getTicket storage (u_ticketId x)) as [v|] eqn:Hx.
  - intros Hrun. destruct (IH Hrun) as (before & u & after & -> & -> & Hnone & Hall).
    exists (x :: before), u, after. split_and!; [done|done|done|].
    intros u' Hin. apply elem_of_cons in Hin as [->|Hin]; [|by apply Hall].
    apply getTicket_resolves. eauto.
  - intros [= <-]. exists [], x, updates. split_and!; [done|done| |].
    + by apply getTicket_None.
    + intros u' Hin. by apply elem_of_nil in Hin.
Qed.

Lemma updateValidate_Ok updates storage :
  updateValidate updates storage = Ok tt ↔
  ∀ u deps, u ∈ updates → u_blockedBy u = Some deps →
    validateDependencies deps storage (Some (u_ticketId u)) = Ok tt
    ∧ checkCircularDependency (u_ticketId u) deps storage = Ok tt.
Proof.
  induction updates as [|x updates IH]; simpl.
  - split; [intros _ u deps Hin; by apply elem_of_nil in Hin|done].
  - destruct (u_blockedBy x) as [deps|] eqn:Hdeps.
    + destruct (validateDependencies deps storage (Some (u_ticketId x)))
        as [[]|e] eqn:Hval; simpl.
      * destruct (checkCircularDependency (u_ticketId x) deps storage)
          as [[]|e] eqn:Hcheck; simpl.
        -- rewrite IH. split.
           ++ intros Hall u deps' Hin Hu.
              apply elem_of_cons in Hin as [->|Hin]; [|by apply Hall].
              rewrite Hdeps in Hu. by injection Hu as <-.
           ++ intros Hall u deps' Hin Hu. apply Hall; [|done].
              by apply list_elem_of_further.
        -- split; [done|]. intros Hall.
           destruct (Hall x deps) as [_ Hc]; [apply list_elem_of_here|done|].
           congruence.
      * split; [done|]. intros Hall.
        destruct (Hall x deps) as [Hv _]; [apply list_elem_of_here|done|].
        congruence.
    + simpl. rewrite IH. split.
      * intros Hall u deps' Hin Hu.
        apply elem_of_cons in Hin as [->|Hin]; [congruence|by apply Hall].
      * intros Hall u deps' Hin Hu. apply Hall; [|done].
        by apply list_elem_of_further.
Qed.

Lemma updateValidate_Throw updates storage e :
  updateValidate updates storage = Throw e →
  ∃ u deps, u ∈ updates ∧ u_blockedBy u = Some deps
    ∧ (validateDependencies deps storage (Some (u_ticketId u)) = Throw e
       ∨ checkCircularDependency (u_ticketId u) deps storage = Throw e).
Proof.
  induction updates as [|x updates IH]; simpl; [done|].
  destruct (u_blockedBy x) as [deps|] eqn:Hdeps.
  - destruct (validateDependencies deps storage (Some (u_ticketId x)))
      as [[]|e'] eqn:Hval; simpl.
    + destruct (checkCircularDependency (u_ticketId x) deps storage)
        as [[]|e'] eqn:Hcheck; simpl.
      * intros Hrun. destruct (IH Hrun) as (u & deps' & Hin & Hu & Hbad).
        exists u, deps'. split_and!; [by apply list_elem_of_further|done|done].
      * intros [= <-]. exists x, deps.
        split_and!; [apply list_elem_of_here|done|by right].
    + intros [= <-]. exists x, deps.
      split_and!; [apply list_elem_of_here|done|by left].
  - simpl. intros Hrun. destruct (IH Hrun) as (u & deps' & Hin & Hu & Hbad).
    exists u, deps'. split_and!; [by apply list_elem_of_further|done|done].
Qed.

(** ** Batches are all-or-nothing *)

(** A throw of either batch operation happens before [writeData]. *)
Lemma createTickets_throw now items file e file' :
  createTickets now items file = (Throw e, file') → file' = file.
Proof.
  unfold createTickets, bind, readData, lift, writeData, ret.
  destruct (createValidate items file); [|by intros [= _ <-]].
  destruct (createAll now items file []) as [[storage created]|]; [done|].
  by intros [= _ <-].
Qed.

Lemma updateTickets_throw now updates file e file' :
  updateTickets now updates file = (Throw e, file') → file' = file.
Proof.
  unfold updateTickets, bind, readData, lift, writeData, ret.
  destruct (updateExist updates file); [|by intros [= _ <-]].
  destruct (updateValidate updates file); [|by intros [= _ <-]].
  by destruct (updateApply now updates file None []).
Qed.

Lemma createTickets_fails now items file :
  createItemFails now items file ↔
  ∃ e, createTickets now items file = (Throw e, file).
Proof.
  unfold createTickets, bind, readData, lift, writeData, ret. split.
  - intros [(item & d & Hin & Hd & Hnone)
           |(before & item & after & storage & created & -> & Hb & Hcyc)].
    + destruct (createValidate items file) as [[]|e] eqn:Hval; [|eauto].
      destruct Hnone. by eapply createValidate_Ok.
    + destruct (createValidate _ file); [|eauto].
      rewrite createAll_app, Hb. simpl.
      destruct (checkCircularDependency_spec (generateId storage).1
                  (default [] (c_blockedBy item)) (generateId storage).2)
        as [[Hc _]|[_ Hno]]; [|done].
      simpl in Hc. rewrite Hc. simpl. eauto.
  - intros [e Hrun].
    destruct (createValidate items file) as [[]|e'] eqn:Hval.
    + destruct (createAll now items file []) as [[storage created]|e'] eqn:Hall;
        [done|].
      right. apply createAll_Throw in Hall
        as (before & item & after & s' & c' & -> & Hb & Hc).
      apply checkCircularDependency_Throw in Hc as [_ Hc].
      exists before, item, after, s', c'. done.
    + left. by eapply createValidate_Throw.
Qed.

Lemma updateTickets_fails now updates file :
  updateItemFails updates file ↔
  ∃ e, updateTickets now updates file = (Throw e, file).
Proof.
  unfold updateTickets, bind, readData, lift, writeData, ret. split.
  - intros (u & Hin & Hbad).
    destruct (updateExist updates file) as [[]|e] eqn:Hexist; [|eauto].
    destruct (updateValidate updates file) as [[]|e] eqn:Hvalid; [|eauto].
    exfalso. destruct Hbad as [Hnone|(deps & Hdeps & Hbad)].
    + apply Hnone. by eapply updateExist_Ok.
    + destruct (proj1 (updateValidate_Ok _ _) Hvalid u deps Hin Hdeps) as [Hv Hc].
      destruct Hbad as [Hself|[(d & Hd & Hnone)|Hcyc]].
      * destruct (proj1 (validateDependencies_Ok _ _ _) Hv _ Hself). done.
      * destruct (proj1 (validateDependencies_Ok _ _ _) Hv _ Hd). done.
      * by apply checkCircularDependency_Ok_iff in Hc.
  - intros [e Hrun].
    destruct (updateExist updates file) as [[]|e'] eqn:Hexist.
    + destruct (updateValidate updates file) as [[]|e'] eqn:Hvalid.
      { by destruct (updateApply now updates file None []). }
      apply updateValidate_Throw in Hvalid as (u & deps & Hin & Hdeps & Hbad).
      exists u. split; [done|]. right. exists deps. split; [done|].
      destruct Hbad as [Hv|Hc].
      * apply validateDependencies_Throw in Hv
          as [(_ & d & Hd & [= ->])|(d & _ & Hd & Hnone)]; [by left|].
        right. left. eauto.
      * apply checkCircularDependency_Throw in Hc as [_ Hc]. by right; right.
    + apply updateExist_Throw in Hexist as (before & u & after & -> & _ & Hnone & _).
      exists u. split; [|by left].
      apply elem_of_app. right. apply list_elem_of_here.
Qed.

(** C2. [createTickets] and [updateTickets] are atomic on the persisted
    document: when an item of the batch fails the existence validation,
    the self-dependency validation, the not-found lookup or the cycle
    check, the operation throws and the file is the one that existed
    before the call; whatever the reason of a throw, nothing has been
    written, and some item of the batch failed one of these checks.
    An id fails the existence validation or the lookup when the read
    [storage.tickets[id]] finds nothing: it is neither a key of
    [tickets] nor the name of a member of [Object.prototype]. *)
Theorem batch_atomic now items updates file :
  (createItemFails now items file →
     ∃ e, createTickets now items file = (Throw e, file))
  ∧ (updateItemFails updates file →
       ∃ e, updateTickets now updates file = (Throw e, file))
  ∧ (∀ e file', createTickets now items file = (Throw e, file') →
       file' = file ∧ createItemFails now items file)
  ∧ (∀ e file', updateTickets now updates file = (Throw e, file') →
       file' = file ∧ updateItemFails updates file).
Proof.
  split_and!.
  - apply createTickets_fails.
  - apply updateTickets_fails.
  - intros e file' Hrun.
    pose proof (createTickets_throw _ _ _ _ _ Hrun) as ->.
    split; [done|]. apply createTickets_fails. eauto.
  - intros e file' Hrun.
    pose proof (updateTickets_throw _ _ _ _ _ Hrun) as ->.
    split; [done|]. apply (updateTickets_fails now). eauto.
Qed.

Lemma batch_atomic_witness :
  (∃ e, createTickets "2025-02-02T00:00:00.000Z"
          [mkCreate "t" "d" (Some []) (Some ["TICKET-0009"])] docTwo
        = (Throw e, docTwo))
  ∧ (∃ e, updateTickets "2025-02-02T00:00:00.000Z"
            [declaredUpdate "TICKET-0001" None None (Some ["TICKET-0002"]) None;
             declaredUpdate "TICKET-0009" (Some "x") None None None] docTwo
          = (Throw e, docTwo)).
Proof.
  split.
  - apply (proj1 (batch_atomic "2025-02-02T00:00:00.000Z"
                    [mkCreate "t" "d" (Some []) (Some ["TICKET-0009"])] [] docTwo)).
    left. exists (mkCreate "t" "d" (Some []) (Some ["TICKET-0009"])), "TICKET-0009".
    split_and!; [apply list_elem_of_here|apply list_elem_of_here|].
    intros [[t Ht]|Hin]; [vm_compute in Ht; discriminate|].
    revert Hin. apply (bool_decide_eq_false_1 _). vm_compute. reflexivity.
  - apply (proj1 (proj2 (batch_atomic "2025-02-02T00:00:00.000Z" []
                    [declaredUpdate "TICKET-0001" None None (Some ["TICKET-0002"]) None;
                     declaredUpdate "TICKET-0009" (Some "x") None None None] docTwo))).
    eexists. split; [apply list_elem_of_further, list_elem_of_here|].
    left. intros [[t Ht]|Hin]; [vm_compute in Ht; discriminate|].
    revert Hin. apply (bool_decide_eq_false_1 _). vm_compute. reflexivity.
Defined.

(** ** Updates touch only what their records carry *)

Lemma untouched_refl t : untouched [] t t.
Proof. by repeat split. Qed.

Lemma fold_merge_untouched now records t :
  untouched records t (fold_left (mergeUpdate now) records t).
Proof.
  revert t. induction records as [|u records IH]; intros t; [apply untouched_refl|].
  simpl. destruct (IH (mergeUpdate now t u))
    as (Hid & Hti & Hde & Hpr & Hpi & Hbl & Hcr & Hst).
  unfold untouched.
  split_and!; intros Hall; apply Forall_cons in Hall as [Hu Hall].
  - rewrite Hid by done. simpl. by rewrite Hu.
  - rewrite Hti by done. simpl. by rewrite Hu.
  - rewrite Hde by done. simpl. by rewrite Hu.
  - rewrite Hpr by done. simpl. by rewrite Hu.
  - rewrite Hpi by done. simpl. by rewrite Hu.
  - rewrite Hbl by done. simpl. by rewrite Hu.
  - rewrite Hcr by done. simpl. by rewrite Hu.
  - rewrite Hst by done. simpl. by rewrite Hu.
Qed.

Lemma untouched_declared records t t' :
  untouched records t t' → Forall declared records → sameIdentity t t'.
Proof.
  intros (Hid & _ & _ & Hpr & Hpi & _ & Hcr & _) Hall.
  unfold sameIdentity.
  split_and!; [apply Hid|apply Hcr|apply Hpr|apply Hpi];
    (eapply Forall_impl; [exact Hall|]); by intros u (? & ? & ? & ? & ?).
Qed.

Lemma fold_merge_updatedAt now records t :
  records ≠ [] → updatedAt (fold_left (mergeUpdate now) records t) = Some now.
Proof.
  induction records as [|u records IH] using rev_ind; [done|].
  intros _. by rewrite fold_left_app.
Qed.

Lemma updateApply_cons now u rest storage proto acc :
  updateApply now (u :: rest) storage proto acc =
  updateApply now rest (applied now u storage proto).1
              (applied now u storage proto).2
              (acc ++ [mergeUpdate now (baseTicket storage proto (u_ticketId u)) u]).
Proof.
  simpl. unfold applied, baseTicket.
  destruct (tickets storage !! u_ticketId u); [done|].
  by destruct (decide (u_ticketId u = "__proto__")).
Qed.

Lemma applied_frame now u storage proto :
  version (applied now u storage proto).1 = version storage
  ∧ nextId (applied now u storage proto).1 = nextId storage.
Proof.
  unfold applied. destruct (tickets storage !! u_ticketId u); [done|].
  by destruct (decide (u_ticketId u = "__proto__")).
Qed.

Lemma applied_lookup now u storage proto k :
  tickets (applied now u storage proto).1 !! k =
  if decide (u_ticketId u = k) then
    if decide (protoKey storage k) then None
    else Some (mergeUpdate now (baseTicket storage proto k) u)
  else tickets storage !! k.
Proof.
  unfold applied, protoKey.
  destruct (decide (u_ticketId u = k)) as [<-|Hne].
  - destruct (tickets storage !! u_ticketId u) as [t|] eqn:Ht; simpl.
    + rewrite lookup_insert_eq. rewrite decide_False by (by intros [_ ?]). done.
    + destruct (decide (u_ticketId u = "__proto__")) as [Hp|Hp]; simpl.
      * rewrite decide_True by done. done.
      * rewrite lookup_insert_eq. rewrite decide_False by (by intros [? _]). done.
  - destruct (tickets storage !! u_ticketId u) as [t|] eqn:Ht; simpl.
    + by rewrite lookup_insert_ne.
    + destruct (decide (u_ticketId u = "__proto__")); simpl; [done|].
      by rewrite lookup_insert_ne.
Qed.

Lemma applied_protoKey now u storage proto k :
  protoKey (applied now u storage proto).1 k ↔ protoKey storage k.
Proof.
  unfold protoKey. rewrite applied_lookup.
  destruct (decide (u_ticketId u = k)) as [Hk|Hk]; [|done].
  destruct (decide (protoKey storage k)) as [[? ?]|Hn]; [done|].
  unfold protoKey in Hn. split; [by intros [? ?]|done].
Qed.

(** The ticket an update finds is the stored one merged with the earlier
    records for the same id. *)
Lemma updatesFor_step now k u records storage proto :
  fold_left (mergeUpdate now) (updatesFor k records)
    (baseTicket (applied now u storage proto).1 (applied now u storage proto).2 k) =
  fold_left (mergeUpdate now) (updatesFor k (u :: records))
    (baseTicket storage proto k).
Proof.
  unfold updatesFor. rewrite filter_cons.
  destruct (decide (u_ticketId u = k)) as [Hk|Hne]; simpl; f_equal.
  - unfold baseTicket at 1. rewrite applied_lookup, decide_True by done.
    destruct (decide (protoKey storage k)) as [[Hp Hnone]|Hn]; [|done].
    rewrite decide_True by done. unfold applied. rewrite Hk, Hnone.
    rewrite decide_True by done. done.
  - unfold baseTicket. rewrite applied_lookup, decide_False by done.
    destruct (tickets storage !! k); [done|].
    destruct (decide (k = "__proto__")) as [Hp|]; [|done].
    unfold applied. destruct (tickets storage !! u_ticketId u); [done|].
    rewrite decide_False by congruence. done.
Qed.

Lemma updateApply_acc now updates storage proto acc :
  updateApply now updates storage proto acc =
  ((updateApply now updates storage proto []).1,
   acc ++ (updateApply now updates storage proto []).2).
Proof.
  revert storage proto acc.
  induction updates as [|u updates IH]; intros storage proto acc.
  - simpl. by rewrite app_nil_r.
  - rewrite !updateApply_cons. rewrite IH. rewrite (IH _ _ ([] ++ _)).
    simpl. by rewrite <- app_assoc.
Qed.

(** The own keys after the third loop. *)
Lemma updateApply_storage now updates storage proto :
  let storage' := (updateApply now updates storage proto []).1 in
  version storage' = version storage ∧ nextId storage' = nextId storage
  ∧ ∀ k, tickets storage' !! k =
         if decide (protoKey storage k) then None
         else match updatesFor k updates with
              | [] => tickets storage !! k
              | records =>
                  Some (fold_left (mergeUpdate now) records
                          (baseTicket storage proto k))
              end.
Proof.
  revert storage proto. induction updates as [|u updates IH]; intros storage proto.
  { simpl. split_and!; [done|done|]. intros k.
    destruct (decide (protoKey storage k)) as [[_ ?]|]; done. }
  rewrite updateApply_cons, updateApply_acc. simpl.
  destruct (IH (applied now u storage proto).1 (applied now u storage proto).2)
    as (Hv & Hn & Hk).
  destruct (applied_frame now u storage proto) as [Hv1 Hn1].
  split_and!; [congruence|congruence|]. intros k. rewrite Hk.
  pose proof (updatesFor_step now k u updates storage proto) as Hstep.
  destruct (decide (protoKey (applied now u storage proto).1 k)) as [Hp|Hp].
  { rewrite applied_protoKey in Hp. rewrite decide_True by done. done. }
  rewrite decide_False by (by rewrite <- (applied_protoKey now u storage proto)).
  unfold updatesFor in *. rewrite filter_cons in *.
  destruct (decide (u_ticketId u = k)) as [Heq|Hne].
  - destruct (filter _ updates) as [|u' l] eqn:Hf.
    + rewrite applied_lookup, decide_True by done.
      rewrite decide_False; [done|].
      by rewrite <- (applied_protoKey now u storage proto).
    + f_equal. exact Hstep.
  - rewrite applied_lookup, decide_False by done.
    destruct (filter _ updates) as [|u' l] eqn:Hf; [done|].
    f_equal. exact Hstep.
Qed.

(** The returned tickets. *)
Lemma updateApply_result now updates storage proto :
  let result := (updateApply now updates storage proto []).2 in
  length result = length updates
  ∧ ∀ i u r, updates !! i = Some u → result !! i = Some r →
      r = fold_left (mergeUpdate now)
            (updatesFor (u_ticketId u) (take (S i) updates))
            (baseTicket storage proto (u_ticketId u)).
Proof.
  revert storage proto. induction updates as [|u updates IH]; intros storage proto.
  { split; [done|]. by intros i u r Hu. }
  rewrite updateApply_cons, updateApply_acc. simpl.
  destruct (IH (applied now u storage proto).1 (applied now u storage proto).2)
    as (Hlen & Hres).
  split; [by rewrite Hlen|].
  intros [|i] u' r Hu' Hr; simpl in *.
  - injection Hu' as <-. injection Hr as <-.
    unfold updatesFor. rewrite take_0, filter_cons, decide_True by done. done.
  - rewrite (Hres i u' r Hu' Hr).
    exact (updatesFor_step now (u_ticketId u') u (take (S i) updates) storage proto).
Qed.

Lemma updateTickets_Ok now updates file result file' :
  updateTickets now updates file = (Ok result, file') ↔
  updateExist updates file = Ok tt ∧ updateValidate updates file = Ok tt
  ∧ file' = (updateApply now updates file None []).1
  ∧ result = (updateApply now updates file None []).2.
Proof.
  unfold updateTickets, bind, readData, lift, writeData, ret.
  destruct (updateExist updates file) as [[]|]; [|naive_solver].
  destruct (updateValidate updates file) as [[]|]; [|naive_solver].
  destruct (updateApply now updates file None []). naive_solver.
Qed.

Lemma updatesFor_Forall k updates (P : TicketUpdateData → Prop) :
  (∀ u, u ∈ updates → u_ticketId u = k → P u) → Forall P (updatesFor k updates).
Proof.
  intros H. apply Forall_forall. intros u Hu.
  apply list_elem_of_filter in Hu as [Hk Hu]. eauto.
Qed.

Lemma updatesFor_nil k updates :
  updatesFor k updates = [] ↔ ∀ u, u ∈ updates → u_ticketId u ≠ k.
Proof.
  unfold updatesFor. split.
  - intros Hnil u Hu Hk.
    assert (u ∈ filter (λ u, u_ticketId u = k) updates) as Hin
      by (by apply list_elem_of_filter).
    rewrite Hnil in Hin. by apply elem_of_nil in Hin.
  - intros Hall. destruct (filter _ updates) as [|u l] eqn:Hf; [done|].
    assert (u ∈ filter (λ u, u_ticketId u = k) updates) as Hin
      by (rewrite Hf; apply list_elem_of_here).
    apply list_elem_of_filter in Hin as [Hk Hin]. by destruct (Hall u Hin).
Qed.

Lemma updatesFor_take_in i u updates :
  updates !! i = Some u → u ∈ updatesFor (u_ticketId u) (take (S i) updates).
Proof.
  intros Hu. apply list_elem_of_filter. split; [done|].
  apply list_elem_of_lookup. exists i. by rewrite lookup_take_lt by lia.
Qed.

(** After a successful batch, a stored key holds its ticket merged with
    the records that address it; a key that was not stored holds the
    merged records alone and is then the name of a prototype member. *)
Lemma updateTickets_lookup now updates file result file' :
  updateTickets now updates file = (Ok result, file') →
  (∀ k t, tickets file !! k = Some t →
     tickets file' !! k = Some (fold_left (mergeUpdate now) (updatesFor k updates) t))
  ∧ (∀ k, tickets file !! k = None →
       tickets file' !! k =
       if decide (k = "__proto__") then None
       else match updatesFor k updates with
            | [] => None
            | records => Some (fold_left (mergeUpdate now) records noTicket)
            end)
  ∧ (∀ k, tickets file !! k = None → is_Some (tickets file' !! k) →
       k ∈ prototypeMembers ∧ k ≠ "__proto__"
       ∧ ∃ u, u ∈ updates ∧ u_ticketId u = k).
Proof.
  intros Hrun. apply updateTickets_Ok in Hrun as (Hexist & _ & -> & _).
  destruct (updateApply_storage now updates file None) as (_ & _ & Hlook).
  assert (∀ k, tickets file !! k = None →
     tickets (updateApply now updates file None []).1 !! k =
       if decide (k = "__proto__") then None
       else match updatesFor k updates with
            | [] => None
            | records => Some (fold_left (mergeUpdate now) records noTicket)
            end) as Hnew.
  { intros k Hk. rewrite Hlook. unfold protoKey, baseTicket. rewrite Hk.
    destruct (decide (k = "__proto__")) as [Hp|Hp].
    - by rewrite decide_True.
    - rewrite decide_False by (by intros [? _]). done. }
  split_and!; [|done|].
  - intros k t Hk. rewrite Hlook.
    rewrite decide_False by (intros [_ ?]; congruence).
    unfold baseTicket. rewrite Hk.
    by destruct (updatesFor k updates).
  - intros k Hk [t' Ht']. rewrite Hnew in Ht' by done.
    destruct (decide (k = "__proto__")) as [|Hp]; [done|].
    destruct (updatesFor k updates) as [|u0 recs] eqn:Hrecs; [done|].
    assert (u0 ∈ updatesFor k updates) as Hin
      by (rewrite Hrecs; apply list_elem_of_here).
    apply list_elem_of_filter in Hin as [Hk0 Hin].
    split_and!; [|done|by exists u0].
    destruct (proj1 (updateExist_Ok _ _) Hexist u0 Hin) as [[t Ht]|Hm];
      [congruence|by rewrite <- Hk0].
Qed.

(** C10 (amended). After a successful [updateTickets] batch every stored
    ticket keeps each field that none of the records addressed to it
    carries; so it keeps its [id], [createdAt] and [projects] when those
    records carry only the properties [TicketUpdateData] declares;
    [updatedAt] of every updated ticket is the one timestamp [now] of
    the batch; a ticket no record addresses is unchanged altogether; and
    a key that was not stored and is stored afterwards is the name of a
    prototype member that a record addressed.  The same holds for the
    returned tickets, each compared with the stored ticket of its
    record. *)
Theorem updateTickets_frame now updates file result file' :
  updateTickets now updates file = (Ok result, file') →
  (∀ k t, tickets file !! k = Some t →
     ∃ t', tickets file' !! k = Some t'
       ∧ untouched (updatesFor k updates) t t'
       ∧ ((∀ u, u ∈ updates → u_ticketId u = k → declared u) →
            id t' = id t ∧ createdAt t' = createdAt t
            ∧ projects t' = projects t ∧ projectId t' = projectId t)
       ∧ ((∃ u, u ∈ updates ∧ u_ticketId u = k) → updatedAt t' = Some now)
       ∧ ((∀ u, u ∈ updates → u_ticketId u ≠ k) → t' = t))
  ∧ (∀ k, tickets file !! k = None → is_Some (tickets file' !! k) →
       k ∈ prototypeMembers ∧ ∃ u, u ∈ updates ∧ u_ticketId u = k)
  ∧ version file' = version file ∧ nextId file' = nextId file
  ∧ length result = length updates
  ∧ (∀ i u r, updates !! i = Some u → result !! i = Some r →
       updatedAt r = Some now
       ∧ ∀ t, tickets file !! u_ticketId u = Some t →
           untouched (updatesFor (u_ticketId u) (take (S i) updates)) t r
           ∧ ((∀ u', u' ∈ take (S i) updates → u_ticketId u' = u_ticketId u →
                 declared u') →
                id r = id t ∧ createdAt r = createdAt t
                ∧ projects r = projects t ∧ projectId r = projectId t)).
Proof.
  intros Hrun.
  destruct (updateTickets_lookup _ _ _ _ _ Hrun) as (Hold & _ & Hnew).
  apply updateTickets_Ok in Hrun as (Hexist & _ & -> & ->).
  destruct (updateApply_storage now updates file None) as (Hv & Hn & _).
  destruct (updateApply_result now updates file None) as (Hlen & Hres).
  split_and!; [| |done|done|done|].
  - intros k t Hk. eexists. split; [by apply Hold|].
    pose proof (fold_merge_untouched now (updatesFor k updates) t) as Hun.
    split_and!; [done| | |].
    + intros Hdecl. by apply (untouched_declared _ _ _ Hun), updatesFor_Forall.
    + intros (u & Hu & Huk). apply fold_merge_updatedAt.
      intros Hnil. by eapply updatesFor_nil in Hnil.
    + intros Hnone. apply updatesFor_nil in Hnone. by rewrite Hnone.
  - intros k Hk Hsome. destruct (Hnew k Hk Hsome) as (? & _ & ?). done.
  - intros i u r Hu Hr. rewrite (Hres i u r Hu Hr). split.
    + apply fold_merge_updatedAt. intros Hnil.
      pose proof (updatesFor_take_in _ _ _ Hu) as Hin.
      rewrite Hnil in Hin. by apply elem_of_nil in Hin.
    + intros t Ht. unfold baseTicket. rewrite Ht.
      set (recs := updatesFor (u_ticketId u) (take (S i) updates)).
      pose proof (fold_merge_untouched now recs t) as Hun.
      split; [done|]. intros Hdecl.
      by apply (untouched_declared _ _ _ Hun), updatesFor_Forall.
Qed.

Lemma updateTickets_frame_witness :
  ∃ result file' t',
    updateTickets "2025-02-02T00:00:00.000Z"
      [declaredUpdate "TICKET-0001" (Some "Renamed") None None None] docTwo
    = (Ok result, file')
    ∧ tickets file' !! "TICKET-0001" = Some t'
    ∧ id t' = Some "TICKET-0001"
    ∧ createdAt t' = Some "2025-01-01T00:00:00.000Z"
    ∧ updatedAt t' = Some "2025-02-02T00:00:00.000Z"
    ∧ length result = 1.
Proof.
  pose (now := "2025-02-02T00:00:00.000Z").
  pose (updates := [declaredUpdate "TICKET-0001" (Some "Renamed") None None None]).
  assert (updateTickets now updates docTwo =
          (Ok (updateApply now updates docTwo None []).2,
           (updateApply now updates docTwo None []).1)) as Hrun
    by (vm_compute; reflexivity).
  destruct (updateTickets_frame _ _ _ _ _ Hrun) as (Hkeep & _ & _ & _ & Hlen & _).
  destruct (Hkeep "TICKET-0001" (sampleTicket "TICKET-0001" [] "open"))
    as (t' & Ht' & _ & Hsame & Hup & _);
    [vm_compute; reflexivity|].
  destruct Hsame as (Hid & Hcr & _).
  { intros u Hu _. apply list_elem_of_singleton in Hu as ->. by repeat split. }
  exists (updateApply now updates docTwo None []).2,
         (updateApply now updates docTwo None []).1, t'.
  split_and!; [exact Hrun|exact Ht'|exact Hid|exact Hcr| |exact Hlen].
  apply Hup. eexists. split; [apply list_elem_of_here|reflexivity].
Defined.

(** C10 as stated fails on a record that carries more than
    [TicketUpdateData] declares: the spread copies every property of the
    record, so an [id], [createdAt] or [projects] sent along replaces
    the stored one. *)
Lemma update_record_overwrites :
  ∃ result file' t',
    updateTickets "2025-02-02T00:00:00.000Z"
      [mkUpdate "TICKET-0001" None None None None (Some "HACKED")
                (Some ["other"]) None (Some "1999-01-01T00:00:00.000Z") None]
      docTwo
    = (Ok result, file')
    ∧ tickets docTwo !! "TICKET-0001" = Some (sampleTicket "TICKET-0001" [] "open")
    ∧ tickets file' !! "TICKET-0001" = Some t'
    ∧ result = [t']
    ∧ id t' = Some "HACKED" ∧ id t' ≠ id (sampleTicket "TICKET-0001" [] "open")
    ∧ createdAt t' = Some "1999-01-01T00:00:00.000Z"
    ∧ createdAt t' ≠ createdAt (sampleTicket "TICKET-0001" [] "open")
    ∧ projects t' = Some ["other"]
    ∧ projects t' ≠ projects (sampleTicket "TICKET-0001" [] "open").
Proof.
  eexists _, _, _. split_and!; try (vm_compute; reflexivity); by vm_compute.
Qed.

(** ** Deletion *)

Lemma stripDependency_lookup ticketId (m : gmap string Ticket) k :
  delete ticketId (stripDependency ticketId <$> m) !! k =
  if decide (k = ticketId) then None else stripDependency ticketId <$> m !! k.
Proof.
  destruct (decide (k = ticketId)) as [->|Hne].
  - apply lookup_delete_eq.
  - rewrite lookup_delete_ne by done. apply lookup_fmap.
Qed.

Lemma stripAll_Ok ticketId storage stripped :
  stripAll ticketId storage = Ok stripped ↔
  allBlockedBy storage ∧ stripped = stripDependency ticketId <$> tickets storage.
Proof.
  unfold stripAll. destruct (forallb _ _) eqn:Hall.
  - apply allBlockedBy_forallb in Hall. naive_solver.
  - split; [done|]. intros [Hall' _]. apply allBlockedBy_forallb in Hall'.
    congruence.
Qed.

Lemma stripAll_Throw ticketId storage e :
  stripAll ticketId storage = Throw e ↔ e = TypeError ∧ ¬ allBlockedBy storage.
Proof.
  unfold stripAll. destruct (forallb _ _) eqn:Hall.
  - apply allBlockedBy_forallb in Hall. naive_solver.
  - split.
    + intros [= <-]. split; [done|]. intros Hall'.
      apply allBlockedBy_forallb in Hall'. congruence.
    + by intros [-> _].
Qed.

(** The three outcomes of [deleteTicket]. *)
Lemma deleteTicket_cases ticketId file :
  (¬ resolves file ticketId
   ∧ deleteTicket ticketId file = (Throw (TicketNotFound ticketId), file))
  ∨ (resolves file ticketId ∧ ¬ allBlockedBy file
     ∧ deleteTicket ticketId file = (Throw TypeError, file))
  ∨ (resolves file ticketId ∧ allBlockedBy file
     ∧ deleteTicket ticketId file =
       (Ok true,
        mkStorage (version file)
                  (delete ticketId (stripDependency ticketId <$> tickets file))
                  (nextId file))).
Proof.
  unfold deleteTicket, bind, readData, lift, writeData, ret.
  destruct (getTicket file ticketId) as [v|] eqn:Hget.
  - assert (resolves file ticketId) as Hres by (apply getTicket_resolves; eauto).
    right. destruct (stripAll ticketId file) as [stripped|e] eqn:Hstrip.
    + apply stripAll_Ok in Hstrip as [Hall ->]. by right.
    + apply stripAll_Throw in Hstrip as [-> Hall]. by left.
  - left. apply getTicket_None in Hget. done.
Qed.

Lemma deleteTicket_Ok ticketId file b file' :
  deleteTicket ticketId file = (Ok b, file') →
  resolves file ticketId ∧ allBlockedBy file ∧ b = true
  ∧ file' = mkStorage (version file)
              (delete ticketId (stripDependency ticketId <$> tickets file))
              (nextId file).
Proof.
  destruct (deleteTicket_cases ticketId file)
    as [[_ ->]|[(_ & _ & ->)|(? & ? & ->)]]; [done|done|].
  by intros [= <- <-].
Qed.

(** C9 at its failing input.  ["toString"] is not a key of [tickets] in
    [docTwo], yet [deleteTicket("toString")] finds the inherited member,
    passes the existence test, writes the document and returns [true];
    and on a document in which a ticket lists ["toString"] in its
    [blockedBy], the call also removes that entry, although no ticket
    was deleted. *)
Theorem deleteTicket_inherited_name :
  tickets docTwo !! "toString" = None
  ∧ deleteTicket "toString" docTwo = (Ok true, docTwo)
  ∧ (let file :=
       setTicket "TICKET-0003" (sampleTicket "TICKET-0003" ["toString"] "open")
                 docTwo in
     tickets file !! "toString" = None
     ∧ deleteTicket "toString" file
       = (Ok true,
          setTicket "TICKET-0003" (sampleTicket "TICKET-0003" [] "open") docTwo)).
Proof. vm_compute. done. Qed.

(** ** Creation *)

Lemma createTicket_Ok now title description projects deps file ticket file' :
  createTicket now title description projects deps file = (Ok ticket, file') ↔
  validateDependencies deps file None = Ok tt
  ∧ checkCircularDependency (generateId file).1 deps (generateId file).2 = Ok tt
  ∧ ticket = mkTicket (Some (generateId file).1) (Some title) (Some description)
                      (Some projects) None (Some deps) (Some now) (Some now)
                      (Some "open")
  ∧ file' = setTicket (generateId file).1 ticket (generateId file).2.
Proof.
  unfold createTicket, bind, readData, lift, writeData, ret.
  destruct (validateDependencies deps file None) as [[]|]; [|naive_solver].
  simpl. destruct (checkCircularDependency _ _ _) as [[]|]; naive_solver.
Qed.

Lemma createTickets_Ok now items file created file' :
  createTickets now items file = (Ok created, file') ↔
  createValidate items file = Ok tt
  ∧ createAll now items file [] = Ok (file', created).
Proof.
  unfold createTickets, bind, readData, lift, writeData, ret.
  destruct (createValidate items file) as [[]|]; [|naive_solver].
  destruct (createAll now items file []) as [[storage created']|]; naive_solver.
Qed.

(** ** Acyclicity of committed documents *)

Lemma docTwo_acyclic : acyclic docTwo.
Proof.
  assert (∀ u v, ¬ blocks docTwo u v) as Hnone.
  { intros u v (t & deps & Ht & Hd & Hv). unfold docTwo in Ht. simpl in Ht.
    apply lookup_insert_Some in Ht as [[_ <-]|[_ Ht]];
      [injection Hd as <-; by apply elem_of_nil in Hv|].
    apply lookup_insert_Some in Ht as [[_ <-]|[_ Ht]];
      [injection Hd as <-; by apply elem_of_nil in Hv|].
    by rewrite lookup_empty in Ht. }
  intros c Hc. inversion Hc; subst; by eapply Hnone.
Qed.

(** *** What the checks do guarantee *)

(** A path either avoids [k] or leaves a way from [k] to its end. *)
Lemma tc_avoid_or_through (R R' : relation string) k a b :
  (∀ x y, R x y → x ≠ k → R' x y) → tc R a b → tc R' a b ∨ rtc R k b.
Proof.
  intros Hsub. induction 1 as [a b Hab|a x b Hax Hxb IH].
  - destruct (decide (a = k)) as [->|Hne]; [right; by apply rtc_once|].
    left. apply tc_once. by apply Hsub.
  - destruct IH as [IH|IH]; [|by right].
    destruct (decide (a = k)) as [->|Hne].
    + right. apply tc_rtc. by eapply tc_l.
    + left. eapply tc_l; [by apply Hsub|done].
Qed.

Lemma edge_blocks k deps storage x y :
  edge k deps storage x y → x ≠ k → blocks storage x y.
Proof. by intros [[? _]|[_ ?]] Hne. Qed.

(** Committing the candidate edges of a passed check keeps the graph
    acyclic. *)
Lemma override_acyclic k deps storage storage' :
  acyclic storage →
  checkCircularDependency k deps storage = Ok tt →
  (∀ x y, blocks storage' x y → edge k deps storage x y) →
  acyclic storage'.
Proof.
  intros Hacyclic Hcheck Hsub c Hc.
  apply (tc_congruence (λ x, x) (edge k deps storage)) in Hc; [|done].
  destruct (checkCircularDependency_cases k deps storage) as [[Hthrow _]|[_ Hno]];
    [congruence|].
  destruct (tc_avoid_or_through _ (blocks storage) k c c
              (edge_blocks k deps storage) Hc) as [Hold|Hthrough].
  - by eapply Hacyclic.
  - by eapply Hno.
Qed.

Lemma setTicket_blocks i t storage x y :
  blocks (setTicket i t storage) x y → edge i (blockers t) storage x y.
Proof.
  unfold blocks, blockers. simpl. intros (t' & deps & Ht' & Hd & Hy).
  apply lookup_insert_Some in Ht' as [[<- <-]|[Hne Ht']].
  - left. by rewrite Hd.
  - right. split; [done|]. eauto.
Qed.

Lemma createAll_acyclic now items :
  ∀ storage created storage' created',
    createAll now items storage created = Ok (storage', created') →
    acyclic storage → acyclic storage'.
Proof.
  induction items as [|item items IH]; intros storage created storage' created' Hrun Hacyclic.
  { by injection Hrun as <- _. }
  simpl in Hrun.
  destruct (checkCircularDependency _ _ _) as [[]|] eqn:Hcheck; [|done].
  simpl in Hrun. eapply IH; [done|].
  eapply override_acyclic; [|exact Hcheck|]; [done|].
  intros x y Hxy. by apply setTicket_blocks in Hxy.
Qed.

(** The edges after a batch of one record: those of the record for its
    own ticket when it carries [blockedBy], the stored ones otherwise. *)
Lemma update_one_blocks now u file updated file' x y :
  updateTickets now [u] file = (Ok updated, file') →
  blocks file' x y →
  match u_blockedBy u with
  | Some deps => edge (u_ticketId u) deps file x y
  | None => blocks file x y
  end.
Proof.
  intros Hrun (t' & deps' & Ht' & Hd' & Hy).
  destruct (updateTickets_lookup _ _ _ _ _ Hrun) as (Hold & Hnew & _).
  assert (∀ t, fold_left (mergeUpdate now) (updatesFor x [u]) t =
               if decide (u_ticketId u = x) then mergeUpdate now t u else t)
    as Hfold.
  { intros t. unfold updatesFor. rewrite filter_cons, filter_nil.
    by destruct (decide (u_ticketId u = x)). }
  assert (∀ t, tickets file' !! x = Some (if decide (u_ticketId u = x)
                                          then mergeUpdate now t u else t) →
               blockedBy t = None ∨ tickets file !! x = Some t →
               match u_blockedBy u with
               | Some deps => edge (u_ticketId u) deps file x y
               | None => blocks file x y
               end) as Hcase.
  { intros t Hx Ht. rewrite Ht' in Hx. injection Hx as ->.
    destruct (decide (u_ticketId u = x)) as [Hk|Hk].
    - simpl in Hd'. destruct (u_blockedBy u) as [deps|]; simpl in Hd'.
      + injection Hd' as <-. by left.
      + destruct Ht as [Ht|Ht]; [congruence|]. by exists t, deps'.
    - destruct Ht as [Ht|Ht]; [congruence|].
      destruct (u_blockedBy u) as [deps|].
      + right. split; [done|]. by exists t, deps'.
      + by exists t, deps'. }
  destruct (tickets file !! x) as [t|] eqn:Hx.
  - apply (Hcase t); [|by right]. rewrite <- Hfold. by apply Hold.
  - specialize (Hnew x Hx). rewrite Ht' in Hnew.
    destruct (decide (x = "__proto__")); [done|].
    destruct (updatesFor x [u]) as [|u0 recs] eqn:Hrecs; [done|].
    apply (Hcase noTicket); [|by left].
    rewrite Ht', Hnew, Hfold. done.
Qed.

Lemma deleteTicket_blocks ticketId file file' x y :
  deleteTicket ticketId file = (Ok true, file') →
  blocks file' x y → blocks file x y ∧ x ≠ ticketId ∧ y ≠ ticketId.
Proof.
  intros Hrun (t' & deps' & Ht' & Hd' & Hy).
  apply deleteTicket_Ok in Hrun as (_ & _ & _ & ->). simpl in Ht'.
  rewrite stripDependency_lookup in Ht'. case_decide; [done|].
  apply fmap_Some in Ht' as (t & Ht & ->). simpl in Hd'.
  apply fmap_Some in Hd' as (deps & Hd & ->).
  apply list_elem_of_filter in Hy as [Hne Hy].
  split_and!; [|done|done]. by exists t, deps.
Qed.

Lemma commitOne_acyclic file file' :
  commitOne file file' → acyclic file → acyclic file'.
Proof.
  intros [now title description projects deps ticket Hrun
         |now items created Hrun
         |now update updated Hrun
         |ticketId Hrun] Hacyclic.
  - apply createTicket_Ok in Hrun as (_ & Hcheck & -> & ->).
    eapply override_acyclic; [|exact Hcheck|].
    + intros c Hc. by apply (Hacyclic c).
    + intros x y Hxy. by apply setTicket_blocks in Hxy.
  - apply createTickets_Ok in Hrun as [_ Hall]. by eapply createAll_acyclic.
  - pose proof (λ x y, update_one_blocks _ _ _ _ _ x y Hrun) as Hblocks.
    apply updateTickets_Ok in Hrun as (_ & Hvalid & _ & _).
    destruct (u_blockedBy update) as [deps|] eqn:Hdeps.
    + destruct (proj1 (updateValidate_Ok _ _) Hvalid update deps) as [_ Hcheck];
        [apply list_elem_of_here|done|].
      by eapply override_acyclic.
    + intros c Hc. apply (Hacyclic c).
      eapply (tc_congruence (λ x, x)); [|exact Hc]. done.
  - intros c Hc. apply (Hacyclic c).
    eapply (tc_congruence (λ x, x)); [|exact Hc].
    intros x y Hxy. by eapply deleteTicket_blocks.
Qed.

(** *** A batch of records that are cyclic only together *)

(** C1 at its failing input. On the acyclic document [docTwo] the batch
    [mutualUpdates] passes every check, because each record is checked
    against the document as read, and the committed document has the
    cycle TICKET-0001 -> TICKET-0002 -> TICKET-0001. *)
Theorem jointly_cyclic_batch_commits :
  let out := updateTickets "2025-02-02T00:00:00.000Z" mutualUpdates docTwo in
  acyclic docTwo
  ∧ (∃ updated, out.1 = Ok updated)
  ∧ commit docTwo out.2
  ∧ tc (blocks out.2) "TICKET-0001" "TICKET-0001"
  ∧ ¬ acyclic out.2.
Proof.
  intros out.
  assert (blocks out.2 "TICKET-0001" "TICKET-0002") as H12.
  { eexists _, _. split_and!; [vm_compute; reflexivity|reflexivity|].
    apply list_elem_of_here. }
  assert (blocks out.2 "TICKET-0002" "TICKET-0001") as H21.
  { eexists _, _. split_and!; [vm_compute; reflexivity|reflexivity|].
    apply list_elem_of_here. }
  assert (tc (blocks out.2) "TICKET-0001" "TICKET-0001") as Hcycle.
  { eapply tc_l; [exact H12|]. by apply tc_once. }
  split_and!.
  - apply docTwo_acyclic.
  - eexists. vm_compute. reflexivity.
  - eapply (commit_updateBatch _ _ "2025-02-02T00:00:00.000Z" mutualUpdates).
    subst out. vm_compute. reflexivity.
  - exact Hcycle.
  - intros Hacyclic. by eapply Hacyclic.
Qed.

(** ** No ticket blocks itself *)








(** ** The migration step *)

Lemma assignOwn_elem i v o k t :
  (k, t) ∈ assignOwn i v o → (k, t) ∈ o ∨ (k, t) = (i, v).
Proof.
  induction o as [|[k' v'] o IH]; simpl.
  - intros Hin. apply list_elem_of_singleton in Hin. by right.
  - destruct (decide (k' = i)) as [->|Hne]; intros Hin;
      apply elem_of_cons in Hin as [Heq|Hin].
    + by right.
    + left. by apply list_elem_of_further.
    + left. rewrite Heq. apply list_elem_of_here.
    + destruct (IH Hin) as [?|?]; [left; by apply list_elem_of_further|by right].
Qed.

Lemma assign_elem i v o k t :
  (k, t) ∈ assign i v o → (k, t) ∈ o ∨ ((k, t) = (i, v) ∧ i ≠ "__proto__").
Proof.
  unfold assign. destruct (decide (i = "__proto__")); [by left|].
  intros Hin. apply assignOwn_elem in Hin as [?|?]; [by left|by right].
Qed.

Lemma renamed_elem legacyTickets :
  ∀ acc k t',
    (k, t') ∈ fold_left (λ acc '(i, legacyTicket),
                           assign i (renameDependencies legacyTicket) acc)
                        legacyTickets acc →
    (k, t') ∈ acc
    ∨ (k ≠ "__proto__" ∧ ∃ t, (k, t) ∈ legacyTickets ∧ t' = renameDependencies t).
Proof.
  induction legacyTickets as [|[i t] l IH]; intros acc k t' Hin; [by left|].
  simpl in Hin. apply IH in Hin as [Hin|(Hk & t0 & Hin & ->)].
  - apply assign_elem in Hin as [Hin|[[= -> ->] Hp]]; [by left|].
    right. split; [done|]. exists t. split; [apply list_elem_of_here|done].
  - right. split; [done|]. exists t0. split; [by apply list_elem_of_further|done].
Qed.

Lemma migrate_tickets dataFile fs fs' :
  migrateFrom0_1_0To0_2_0 dataFile fs = (true, fs') →
  ∃ original legacyTickets newTickets,
    readFileSync dataFile fs = Some original
    ∧ r_tickets original = Some legacyTickets
    ∧ readFileSync dataFile fs'
      = Some (mkRawData (Some "0.2.0") (Some newTickets) (r_nextId original))
    ∧ ∀ k t', (k, t') ∈ newTickets →
        k ≠ "__proto__" ∧ ∃ t, (k, t) ∈ legacyTickets ∧ t' = renameDependencies t.
Proof.
  unfold migrateFrom0_1_0To0_2_0.
  destruct (readFileSync dataFile fs) as [original|] eqn:Hread; [|done].
  destruct (r_tickets original) as [legacyTickets|] eqn:Htickets; [|done].
  intros [= <-]. eexists _, _, _. split_and!; [done|done| |].
  - unfold readFileSync, writeFileSync. simpl. apply lookup_insert_eq.
  - intros k t' Hin. apply renamed_elem in Hin as [Hin|?]; [|done].
    by apply elem_of_nil in Hin.
Qed.




(** ** Research tree *)

Section ResearchTree.
Variable storage : TicketStorage.

Lemma size_list_to_set_le `{Countable A} (l : list A) :
  size (list_to_set l : gset A) ≤ length l.
Proof.
  induction l as [|x l IH]; simpl.
  - done.
  - rewrite size_union_alt, size_singleton.
    assert (size (list_to_set l ∖ {[x]} : gset A) ≤ size (list_to_set l : gset A))
      by (apply subseteq_size; set_solver).
    lia.
Qed.

Lemma storedIds_size : size (storedIds storage) ≤ size (tickets storage).
Proof.
  unfold storedIds. etrans; [apply size_list_to_set_le|].
  unfold ticketValues. by rewrite !length_fmap, length_map_to_list.
Qed.

Lemma isDependent_Ok ticketId ticket b :
  isDependent ticketId ticket = Ok b → is_Some (blockedBy ticket).
Proof. unfold isDependent. destruct (blockedBy ticket); [eauto|done]. Qed.

Lemma isDependent_Throw ticketId ticket e :
  isDependent ticketId ticket = Throw e → e = TypeError ∧ blockedBy ticket = None.
Proof. unfold isDependent. destruct (blockedBy ticket); [done|]. by intros [= <-]. Qed.

Lemma isDependent_total ticketId :
  allBlockedBy storage →
  Forall (λ t, ∃ b, isDependent ticketId t = Ok b) (ticketValues storage).
Proof.
  intros Hall. apply Forall_forall. intros t Ht.
  apply elem_of_ticketValues in Ht as [k Hk].
  destruct (Hall k t Hk) as [deps Hd]. unfold isDependent. rewrite Hd. eauto.
Qed.

(** The dependents of a call: stored, not closed, and every stored
    ticket was seen to have a [blockedBy]. *)
Lemma dependents_Ok ticketId dependents :
  tryFilter (isDependent ticketId) (ticketValues storage) = Ok dependents →
  allBlockedBy storage
  ∧ ∀ t, t ∈ dependents →
      id t ∈ storedIds storage ∧ status t ≠ Some "closed"
      ∧ (∃ k, tickets storage !! k = Some t)
      ∧ ∃ i deps, ticketId = Some i ∧ blockedBy t = Some deps ∧ i ∈ deps.
Proof.
  intros Hrun. apply tryFilter_Ok in Hrun as [Hall ->]. split.
  - intros k t Hk. rewrite Forall_forall in Hall.
    destruct (Hall t) as [b Hb]; [apply elem_of_ticketValues; eauto|].
    by eapply isDependent_Ok.
  - intros t Ht. apply list_elem_of_filter in Ht as [Hdep Hin].
    split_and!.
    + unfold storedIds. apply elem_of_list_to_set, list_elem_of_fmap. eauto.
    + unfold isDependent in Hdep. destruct (blockedBy t); [|done].
      injection Hdep as Hdep. apply andb_true_iff in Hdep as [_ Hopen].
      by apply bool_decide_eq_true in Hopen.
    + by apply elem_of_ticketValues.
    + unfold isDependent in Hdep. destruct (blockedBy t) as [deps|]; [|done].
      injection Hdep as Hdep. apply andb_true_iff in Hdep as [Hin' _].
      destruct ticketId as [i|]; [|done].
      apply bool_decide_eq_true in Hin'. eauto.
Qed.

Lemma buildResearchTree_unfold fuel ticketId visitedIds :
  buildResearchTree (S fuel) ticketId storage visitedIds =
  if decide (ticketId ∈ visitedIds) then Ok []
  else
    try! dependents :=
      tryFilter (isDependent ticketId) (ticketValues storage) in
    tryMap (λ dependent,
              try! unblocks :=
                buildResearchTree fuel (id dependent) storage
                                  ({[ticketId]} ∪ visitedIds) in
              Ok (TreeNode (id dependent) (title dependent) unblocks))
           dependents.
Proof. reflexivity. Qed.

(** Enough fuel: one frame for a call that hits the guard, and for an
    expanding call one frame more than the stored ids still off the path. *)
Lemma buildResearchTree_total fuel :
  allBlockedBy storage →
  ∀ ticketId visitedIds,
    (ticketId ∈ visitedIds ∧ 0 < fuel)
    ∨ size (storedIds storage ∖ ({[ticketId]} ∪ visitedIds)) + 1 < fuel →
    ∃ tree, buildResearchTree fuel ticketId storage visitedIds = Ok tree.
Proof.
  intros Hall.
  induction fuel as [|fuel IH]; intros ticketId visitedIds Hfuel; [lia|].
  rewrite buildResearchTree_unfold.
  destruct (decide (ticketId ∈ visitedIds)) as [|Hnew]; [by eexists|].
  destruct Hfuel as [[? _]|Hfuel]; [done|].
  rewrite (tryFilter_total _ _ (isDependent_total ticketId Hall)). simpl.
  apply tryMap_total. intros d Hd.
  assert (id d ∈ storedIds storage) as Hid.
  { apply list_elem_of_filter in Hd as [_ Hd].
    unfold storedIds. apply elem_of_list_to_set, list_elem_of_fmap. eauto. }
  destruct (IH (id d) ({[ticketId]} ∪ visitedIds)) as [sub ->]; [|by eexists].
  destruct (decide (id d ∈ {[ticketId]} ∪ visitedIds)) as [Hseen|Hfresh].
  - left. split; [done|lia].
  - right.
    assert (size (storedIds storage ∖ ({[id d]} ∪ ({[ticketId]} ∪ visitedIds)))
            < size (storedIds storage ∖ ({[ticketId]} ∪ visitedIds))); [|lia].
    apply subset_size. set_solver.
Qed.

(** The only exception is the one of a ticket without [blockedBy]. *)
Lemma buildResearchTree_Throw fuel :
  ∀ ticketId visitedIds e,
    buildResearchTree fuel ticketId storage visitedIds = Throw e →
    e = StackExhausted ∨ (e = TypeError ∧ ¬ allBlockedBy storage).
Proof.
  induction fuel as [|fuel IH]; intros ticketId visitedIds e Hrun.
  { injection Hrun as <-. by left. }
  rewrite buildResearchTree_unfold in Hrun.
  destruct (decide (ticketId ∈ visitedIds)); [done|].
  destruct (tryFilter _ _) as [dependents|e'] eqn:Hdeps; simpl in Hrun.
  - apply tryMap_Throw in Hrun as (d & _ & Hd).
    destruct (buildResearchTree fuel _ _ _) as [sub|e'] eqn:Hsub; [done|].
    injection Hd as <-. by eapply IH.
  - injection Hrun as <-. apply tryFilter_Throw in Hdeps as (t & Ht & Hthrow).
    apply isDependent_Throw in Hthrow as [-> Hnone]. right. split; [done|].
    intros Hall. apply elem_of_ticketValues in Ht as [k Hk].
    destruct (Hall k t Hk) as [? ?]. congruence.
Qed.

Lemma max_list_bound (l : list nat) b : Forall (λ x, x ≤ b) l → max_list l ≤ b.
Proof. induction 1; simpl; lia. Qed.

Lemma buildResearchTree_depth fuel :
  ∀ ticketId visitedIds tree,
    buildResearchTree fuel ticketId storage visitedIds = Ok tree →
    treeDepth tree ≤
      if decide (ticketId ∈ visitedIds) then 0
      else S (size (storedIds storage ∖ ({[ticketId]} ∪ visitedIds))).
Proof.
  induction fuel as [|fuel IH]; intros ticketId visitedIds tree Hrun; [done|].
  rewrite buildResearchTree_unfold in Hrun.
  destruct (decide (ticketId ∈ visitedIds)) as [|Hnew].
  { by injection Hrun as <-. }
  destruct (tryFilter _ _) as [dependents|] eqn:Hdeps; [|done]. simpl in Hrun.
  apply dependents_Ok in Hdeps as [_ Hdeps].
  apply tryMap_Ok in Hrun.
  apply max_list_bound, Forall_fmap, Forall_forall. intros node Hnode.
  destruct (Forall2_elem_r _ _ _ _ Hrun Hnode) as (d & Hd & Hbuilt).
  simpl in Hbuilt.
  destruct (buildResearchTree fuel _ _ _) as [sub|] eqn:Hsub; [|done].
  simpl in Hbuilt. injection Hbuilt as <-. simpl.
  apply IH in Hsub. fold (treeDepth sub).
  apply Hdeps in Hd as (Hid & _ & _).
  destruct (decide (id d ∈ {[ticketId]} ∪ visitedIds)) as [Hseen|Hfresh]; [lia|].
  assert (size (storedIds storage ∖ ({[id d]} ∪ ({[ticketId]} ∪ visitedIds)))
          < size (storedIds storage ∖ ({[ticketId]} ∪ visitedIds))); [|lia].
  apply subset_size. set_solver.
Qed.

Lemma buildResearchTree_open fuel :
  ∀ ticketId visitedIds tree,
    buildResearchTree fuel ticketId storage visitedIds = Ok tree →
    Forall (openTicketLabel storage) (treeLabels tree).
Proof.
  induction fuel as [|fuel IH]; intros ticketId visitedIds tree Hrun; [done|].
  rewrite buildResearchTree_unfold in Hrun.
  destruct (decide (ticketId ∈ visitedIds)) as [|Hnew].
  { injection Hrun as <-. constructor. }
  destruct (tryFilter _ _) as [dependents|] eqn:Hdeps; [|done]. simpl in Hrun.
  apply dependents_Ok in Hdeps as [_ Hdeps].
  apply tryMap_Ok in Hrun.
  apply Forall_concat, Forall_fmap, Forall_forall. intros node Hnode.
  destruct (Forall2_elem_r _ _ _ _ Hrun Hnode) as (d & Hd & Hbuilt).
  simpl in Hbuilt.
  destruct (buildResearchTree fuel _ _ _) as [sub|] eqn:Hsub; [|done].
  simpl in Hbuilt. injection Hbuilt as <-. simpl.
  apply Hdeps in Hd as (_ & Hopen & (k & Hk) & _).
  constructor.
  - by exists k, d.
  - by eapply IH.
Qed.

Lemma treeFuel_enough ticketId :
  size (storedIds storage ∖ ({[ticketId]} ∪ ∅)) + 1 < treeFuel storage.
Proof.
  unfold treeFuel. pose proof storedIds_size.
  assert (size (storedIds storage ∖ ({[ticketId]} ∪ ∅)) ≤ size (storedIds storage))
    by (apply subseteq_size; set_solver).
  lia.
Qed.

(** The call of [nextTickets]: a tree when every stored ticket has a
    [blockedBy], the exception of the property read otherwise. *)
Lemma buildResearchTree_root ticketId :
  (allBlockedBy storage ∧
   ∃ tree, buildResearchTree (treeFuel storage) ticketId storage ∅ = Ok tree)
  ∨ (¬ allBlockedBy storage ∧
     buildResearchTree (treeFuel storage) ticketId storage ∅ = Throw TypeError).
Proof.
  destruct (buildResearchTree (treeFuel storage) ticketId storage ∅)
    as [tree|e] eqn:Hrun.
  - left. split; [|eauto]. unfold treeFuel in Hrun.
    rewrite buildResearchTree_unfold in Hrun.
    rewrite decide_False in Hrun by set_solver.
    destruct (tryFilter _ _) as [dependents|] eqn:Hdeps; [|done].
    by apply dependents_Ok in Hdeps as [? _].
  - destruct (buildResearchTree_Throw _ _ _ _ Hrun) as [->|[-> Hno]]; [|by right].
    left. split.
    + (* the fuel cannot run out when every ticket has its blockedBy *)
      apply allBlockedBy_forallb.
      destruct (forallb _ _) eqn:Hall; [done|exfalso].
      assert (¬ allBlockedBy storage) as Hno
        by (intros H; apply allBlockedBy_forallb in H; congruence).
      unfold treeFuel in Hrun. rewrite buildResearchTree_unfold in Hrun.
      rewrite decide_False in Hrun by set_solver.
      destruct (tryFilter _ _) as [dependents|e'] eqn:Hdeps; simpl in Hrun.
      * by apply dependents_Ok in Hdeps as [? _].
      * injection Hrun as ->. apply tryFilter_Throw in Hdeps as (t & _ & Hthrow).
        by apply isDependent_Throw in Hthrow as [? _].
    + exfalso.
      assert (allBlockedBy storage) as Hall.
      { apply allBlockedBy_forallb.
        destruct (forallb _ _) eqn:Hall; [done|exfalso].
        unfold treeFuel in Hrun. rewrite buildResearchTree_unfold in Hrun.
        rewrite decide_False in Hrun by set_solver.
        destruct (tryFilter _ _) as [dependents|e'] eqn:Hdeps; simpl in Hrun.
        - apply dependents_Ok in Hdeps as [H _].
          apply allBlockedBy_forallb in H. congruence.
        - injection Hrun as ->. apply tryFilter_Throw in Hdeps as (t & _ & Hthrow).
          by apply isDependent_Throw in Hthrow as [? _]. }
      destruct (buildResearchTree_total (treeFuel storage) Hall ticketId ∅)
        as [tree Htree]; [right; apply treeFuel_enough|].
      congruence.
Qed.
End ResearchTree.

(** C5 (amended). For every stored document, cyclic or not,
    [buildResearchTree(ticketId, storage)] ends within the granted
    recursion depth: with a tree when every stored ticket has a
    [blockedBy] array, with the exception of the property read
    otherwise.  Every node of the returned tree stands for a stored
    ticket that is not closed; and every chain of recursive calls has at
    most as many calls as there are tickets when [ticketId] is the id of
    a stored ticket, and at most one more otherwise. *)
Theorem buildResearchTree_terminates storage ticketId :
  (allBlockedBy storage →
     ∃ tree, buildResearchTree (treeFuel storage) ticketId storage ∅ = Ok tree)
  ∧ (¬ allBlockedBy storage →
       buildResearchTree (treeFuel storage) ticketId storage ∅ = Throw TypeError)
  ∧ ∀ tree,
      buildResearchTree (treeFuel storage) ticketId storage ∅ = Ok tree →
      Forall (openTicketLabel storage) (treeLabels tree)
      ∧ treeDepth tree ≤ S (size (tickets storage))
      ∧ (ticketId ∈ storedIds storage → treeDepth tree ≤ size (tickets storage)).
Proof.
  split_and!.
  - intros Hall.
    destruct (buildResearchTree_root storage ticketId) as [[_ ?]|[? _]]; done.
  - intros Hno.
    destruct (buildResearchTree_root storage ticketId) as [[? _]|[_ ?]]; done.
  - intros tree Hrun. split; [by eapply buildResearchTree_open|].
    pose proof (buildResearchTree_depth _ _ _ _ _ Hrun) as Hdepth.
    rewrite decide_False in Hdepth by set_solver.
    pose proof (storedIds_size storage).
    split.
    + assert (size (storedIds storage ∖ ({[ticketId]} ∪ ∅)) ≤ size (storedIds storage))
        by (apply subseteq_size; set_solver).
      lia.
    + intros Hin.
      assert (size (storedIds storage ∖ ({[ticketId]} ∪ ∅)) < size (storedIds storage))
        by (apply subset_size; set_solver).
      lia.
Qed.

Lemma buildResearchTree_terminates_witness :
  ∃ tree,
    buildResearchTree (treeFuel docChain) (Some "TICKET-0001") docChain ∅ = Ok tree
    ∧ treeDepth tree ≤ 2.
Proof.
  destruct (buildResearchTree_terminates docChain (Some "TICKET-0001"))
    as (Hok & _ & Hprops).
  destruct Hok as [tree Hrun].
  { apply allBlockedBy_forallb. vm_compute. reflexivity. }
  exists tree. split; [exact Hrun|].
  destruct (Hprops tree Hrun) as (_ & _ & Hdepth). apply Hdepth.
  apply (bool_decide_unpack _). vm_compute. reflexivity.
Defined.

(** C5 as stated fails on the bound.  On the document of two tickets
    that block each other the tree of one of them is a chain of two
    nodes, built by two nested recursive calls, and a recursion limited
    to as many frames as there are tickets does not return; likewise on
    the one-ticket document whose ticket blocks itself. *)
Lemma research_path_not_shorter :
  (buildResearchTree (treeFuel docMutual) (Some "TICKET-0001") docMutual ∅
     = Ok [TreeNode (Some "TICKET-0002") (Some "Title of TICKET-0002")
             [TreeNode (Some "TICKET-0001") (Some "Title of TICKET-0001") []]]
   ∧ ¬ treeDepth [TreeNode (Some "TICKET-0002") (Some "Title of TICKET-0002")
                    [TreeNode (Some "TICKET-0001") (Some "Title of TICKET-0001") []]]
       < size (tickets docMutual)
   ∧ buildResearchTree (size (tickets docMutual)) (Some "TICKET-0001") docMutual ∅
     = Throw StackExhausted)
  ∧ (buildResearchTree (treeFuel docSelf) (Some "TICKET-0001") docSelf ∅
       = Ok [TreeNode (Some "TICKET-0001") (Some "Title of TICKET-0001") []]
     ∧ ¬ treeDepth [TreeNode (Some "TICKET-0001") (Some "Title of TICKET-0001") []]
         < size (tickets docSelf)
     ∧ buildResearchTree (size (tickets docSelf)) (Some "TICKET-0001") docSelf ∅
       = Throw StackExhausted).
Proof.
  split; split_and!; try (vm_compute; reflexivity); vm_compute; lia.
Qed.

(** ** Next tickets *)

Section NextTicketsProps.
Variable getTime : string → option Z.
Variable toLowerCase : string → string.

Lemma isUnblocked_true storage t :
  isUnblocked storage t = Ok true ↔
  status t ≠ Some "closed"
  ∧ ∃ deps, blockedBy t = Some deps
      ∧ (deps = []
         ∨ ∀ d, d ∈ deps →
             ∃ dt, tickets storage !! d = Some dt ∧ status dt = Some "closed").
Proof.
  unfold isUnblocked. destruct (decide (status t = Some "closed")) as [Hc|Hc].
  { split; [done|]. by intros [? _]. }
  destruct (blockedBy t) as [deps|].
  2:{ split; [done|]. by intros (_ & deps & ? & _). }
  destruct (decide (length deps = 0)) as [Hlen|Hlen].
  - apply nil_length_inv in Hlen as ->. split; [|done].
    intros _. split; [done|]. exists []. split; [done|by left].
  - split.
    + intros [= Hall]. split; [done|]. exists deps. split; [done|]. right.
      intros d Hd. rewrite forallb_forall in Hall.
      apply list_elem_of_In, Hall in Hd.
      destruct (getTicket storage d) as [[dt|]|] eqn:Hget; [|done|done].
      apply getTicket_TicketValue in Hget. exists dt. split; [done|].
      by apply bool_decide_eq_true in Hd.
    + intros (_ & deps' & [= <-] & [->|Hall]); [done|]. f_equal.
      apply forallb_forall. intros d Hd. apply list_elem_of_In in Hd.
      destruct (Hall d Hd) as (dt & Hdt & Hclosed).
      rewrite (getTicket_own _ _ _ Hdt). by apply bool_decide_eq_true.
Qed.

Lemma isUnblocked_Ok storage t b :
  isUnblocked storage t = Ok b →
  status t = Some "closed" ∨ is_Some (blockedBy t).
Proof.
  unfold isUnblocked. destruct (decide (status t = Some "closed")); [by left|].
  destruct (blockedBy t); [eauto|done].
Qed.

Lemma isUnblocked_Throw storage t e :
  isUnblocked storage t = Throw e →
  e = TypeError ∧ blockedBy t = None ∧ status t ≠ Some "closed".
Proof.
  unfold isUnblocked. destruct (decide (status t = Some "closed")); [done|].
  destruct (blockedBy t) as [deps|]; [|by intros [= <-]].
  by destruct (decide (length deps = 0)).
Qed.

Lemma isUnblocked_total storage :
  allBlockedBy storage →
  Forall (λ t, ∃ b, isUnblocked storage t = Ok b) (ticketValues storage).
Proof.
  intros Hall. apply Forall_forall. intros t Ht.
  apply elem_of_ticketValues in Ht as [k Hk].
  destruct (Hall k t Hk) as [deps Hd]. unfold isUnblocked. rewrite Hd.
  destruct (decide (status t = Some "closed")); [eauto|].
  destruct (decide (length deps = 0)); eauto.
Qed.

(** Membership in the selection. *)
Lemma elem_of_nextSelection project storage selection t :
  nextSelection getTime toLowerCase project storage = Ok selection →
  t ∈ selection ↔
    (∃ k, tickets storage !! k = Some t)
    ∧ isUnblocked storage t = Ok true
    ∧ (∀ p, truthy project = Some p → inProject toLowerCase p t = true).
Proof.
  unfold nextSelection.
  destruct (tryFilter _ _) as [tickets1|] eqn:Hf; [|done]. simpl.
  intros [= <-]. apply tryFilter_Ok in Hf as [_ ->].
  rewrite merge_sort_Permutation, <- elem_of_ticketValues.
  destruct (truthy project) as [p|]; rewrite ?list_elem_of_filter; naive_solver.
Qed.

Lemma nextSelection_total project storage :
  allBlockedBy storage →
  ∃ selection, nextSelection getTime toLowerCase project storage = Ok selection.
Proof.
  intros Hall. unfold nextSelection.
  rewrite (tryFilter_total _ _ (isUnblocked_total storage Hall)). simpl. eauto.
Qed.

Lemma nextSelection_Throw project storage e :
  nextSelection getTime toLowerCase project storage = Throw e →
  e = TypeError ∧ ¬ allBlockedBy storage.
Proof.
  unfold nextSelection.
  destruct (tryFilter _ _) as [tickets1|e'] eqn:Hf; [done|]. simpl.
  intros [= <-]. apply tryFilter_Throw in Hf as (t & Ht & Hthrow).
  apply isUnblocked_Throw in Hthrow as (-> & Hnone & _). split; [done|].
  intros Hall. apply elem_of_ticketValues in Ht as [k Hk].
  destruct (Hall k t Hk) as [? ?]. congruence.
Qed.

(** The outcomes of [nextTickets]: it never writes; it returns the
    selection with a tree attached to each ticket, or throws the
    exception of a property read on a ticket without [blockedBy]. *)
Lemma nextTickets_run project file :
  (∃ selection result,
     nextSelection getTime toLowerCase project file = Ok selection
     ∧ nextTickets getTime toLowerCase project file = (Ok result, file)
     ∧ Forall2 (λ t nt,
                  buildResearchTree (treeFuel file) (id t) file ∅
                    = Ok (researchTree nt)
                  ∧ nt = toNextTicket t (researchTree nt))
               selection result)
  ∨ (¬ allBlockedBy file
     ∧ nextTickets getTime toLowerCase project file = (Throw TypeError, file)).
Proof.
  unfold nextTickets, bind, readData, ret, lift.
  destruct (nextSelection getTime toLowerCase project file)
    as [selection|e] eqn:Hsel.
  - destruct (tryMap _ selection) as [result|e] eqn:Hmap.
    + left. exists selection, result. split_and!; [done|done|].
      apply tryMap_Ok in Hmap.
      eapply Forall2_impl; [done|]. intros t nt Hnt. cbv beta in Hnt.
      destruct (buildResearchTree (treeFuel file) (id t) file ∅); [|done].
      by injection Hnt as <-.
    + right. apply tryMap_Throw in Hmap as (t & _ & Hthrow).
      destruct (buildResearchTree_root file (id t)) as [[_ [tree Ht]]|[Hno Ht]];
        rewrite Ht in Hthrow; [done|].
      by injection Hthrow as <-.
  - right. apply nextSelection_Throw in Hsel as [-> Hno]. done.
Qed.

Lemma nextTickets_total project file :
  allBlockedBy file →
  ∃ result, nextTickets getTime toLowerCase project file = (Ok result, file).
Proof.
  intros Hall. destruct (nextTickets_run project file)
    as [(selection & result & _ & Hrun & _)|[Hno _]]; [eauto|done].
Qed.
End NextTicketsProps.

(** C4. [nextTickets] never writes.  Every ticket it returns comes from
    a stored ticket that is not closed and whose [blockedBy] is empty or
    names only keys of [tickets] whose ticket is closed; in particular
    no returned ticket has a dangling id in its [blockedBy].  The call
    returns whenever every stored ticket has a [blockedBy] array, and
    otherwise can only end with the exception of the property read. *)
Theorem nextTickets_ready getTime toLowerCase project file :
  (allBlockedBy file →
     ∃ result, nextTickets getTime toLowerCase project file = (Ok result, file))
  ∧ (∀ e file', nextTickets getTime toLowerCase project file = (Throw e, file') →
       e = TypeError ∧ file' = file ∧ ¬ allBlockedBy file)
  ∧ ∀ result file',
      nextTickets getTime toLowerCase project file = (Ok result, file') →
      file' = file
      ∧ ∀ nt, nt ∈ result →
          nt_status nt ≠ Some "closed"
          ∧ ∃ k t deps, tickets file !! k = Some t
              ∧ nt = toNextTicket t (researchTree nt)
              ∧ blockedBy t = Some deps
              ∧ (deps = []
                 ∨ ∀ d, d ∈ deps →
                     ∃ dt, tickets file !! d = Some dt
                           ∧ status dt = Some "closed")
              ∧ ∀ d, d ∈ deps → tickets file !! d ≠ None.
Proof.
  split_and!.
  - apply nextTickets_total.
  - intros e file' Hrun.
    destruct (nextTickets_run getTime toLowerCase project file)
      as [(selection & result & _ & Hok & _)|[Hno Hthrow]]; [congruence|].
    rewrite Hthrow in Hrun. by injection Hrun as <- <-.
  - intros result file' Hrun.
    destruct (nextTickets_run getTime toLowerCase project file)
      as [(selection & result' & Hsel & Hok & Hall)|[Hno Hthrow]]; [|congruence].
    rewrite Hok in Hrun. injection Hrun as <- <-. split; [done|].
    intros nt Hnt.
    destruct (Forall2_elem_r _ _ _ _ Hall Hnt) as (t & Ht & _ & Heq).
    apply (elem_of_nextSelection _ _ _ _ _ _ Hsel) in Ht as ((k & Hk) & Hready & _).
    apply isUnblocked_true in Hready as (Hopen & deps & Hdeps & Hclosed).
    split; [by rewrite Heq|].
    exists k, t, deps. split_and!; [done|done|done|done|].
    intros d Hd. destruct Hclosed as [->|Hclosed].
    + by apply elem_of_nil in Hd.
    + destruct (Hclosed d Hd) as (dt & -> & _). done.
Qed.

(** ** Migration check on a current document *)

(** C8. When the version detected in the data file is the current
    application version, [runMigrationIfNeeded] returns without running
    a migration step: the files and the list of writes are those from
    before the call, so no write to the data file and no backup.  In
    particular the check is a no-op on the result of a completed
    v0.1.0 to v0.2.0 migration. *)
Theorem runMigrationIfNeeded_current availableMigrations dataFile fs :
  (∀ rawData,
     readFileSync dataFile fs = Some rawData →
     detectDataVersion rawData = currentAppVersion →
     runMigrationIfNeeded availableMigrations dataFile fs = (Returned, fs))
  ∧ (∀ fs', migrateFrom0_1_0To0_2_0 dataFile fs = (true, fs') →
       runMigrationIfNeeded availableMigrations dataFile fs' = (Returned, fs')).
Proof.
  split.
  - intros rawData Hread Hversion. unfold runMigrationIfNeeded.
    rewrite Hread, Hversion. by rewrite decide_True.
  - intros fs' Hrun.
    destruct (migrate_tickets _ _ _ Hrun) as (? & ? & ? & _ & _ & Hnew & _).
    unfold runMigrationIfNeeded. rewrite Hnew. done.
Qed.

Lemma runMigrationIfNeeded_current_witness :
  runMigrationIfNeeded [migration] "data/tickets.json" currentFiles
  = (Returned, currentFiles).
Proof.
  apply (proj1 (runMigrationIfNeeded_current [migration] "data/tickets.json"
                  currentFiles) currentData).
  - vm_compute. reflexivity.
  - vm_compute. reflexivity.
Defined.

(** ** Migration path search *)

Section PathSearch.
Variable catalog : list MigrationPath.
Variable source target : string.

#[local] Abbreviation chain := (chain catalog).
#[local] Abbreviation searchInv := (searchInv catalog source target).

Lemma chain_app s t l1 l2 :
  chain s t (l1 ++ l2) ↔ ∃ mid, chain s mid l1 ∧ chain mid t l2.
Proof.
  revert s. induction l1 as [|m l1 IH]; intros s; simpl.
  - split; [by exists s|by intros (mid & -> & ?)].
  - rewrite IH. naive_solver.
Qed.

Lemma chain_snoc s t l m :
  chain s t (l ++ [m]) ↔
  chain s (fromVersion m) l ∧ m ∈ catalog ∧ toVersion m = t.
Proof. rewrite chain_app. simpl. naive_solver. Qed.

(** The inner loop appends one entry per target not seen before. *)
Lemma enqueueAll_spec path possible :
  ∀ queue seen,
    (∀ m, m ∈ possible → m ∈ catalog) →
    ∃ new,
      (enqueueAll path possible queue seen).1 = queue ++ new
      ∧ (∀ v p, (v, p) ∈ new →
           ∃ m, m ∈ possible ∧ v = toVersion m ∧ p = path ++ [m])
      ∧ (∀ v, v ∈ (enqueueAll path possible queue seen).2 ↔
              v ∈ seen ∨ v ∈ new.*1)
      ∧ (∀ m, m ∈ possible →
           toVersion m ∈ (enqueueAll path possible queue seen).2)
      ∧ length new
          + size (catalogTargets catalog ∖ (enqueueAll path possible queue seen).2)
        ≤ size (catalogTargets catalog ∖ seen).
Proof.
  induction possible as [|m possible IH]; intros queue seen Hcat; simpl.
  - exists []. rewrite app_nil_r. split_and!; try done.
    + intros v p Hin. by apply elem_of_nil in Hin.
    + intros v. split; [by left|]. intros [?|Hin]; [done|].
      by apply elem_of_nil in Hin.
    + intros m Hin. by apply elem_of_nil in Hin.
  - assert (∀ m', m' ∈ possible → m' ∈ catalog) as Hcat'
      by (intros m' ?; apply Hcat; by apply list_elem_of_further).
    destruct (decide (toVersion m ∈ seen)) as [Hseen|Hnew].
    + destruct (IH queue seen Hcat') as (new & Hq & Hnew & Hs & Hall & Hsize).
      exists new. split_and!; try done.
      * intros v p Hin. destruct (Hnew v p Hin) as (m' & Hm' & ?).
        exists m'. split; [by apply list_elem_of_further|done].
      * intros m' Hin. apply elem_of_cons in Hin as [->|Hin]; [|by apply Hall].
        apply Hs. by left.
    + destruct (IH (queue ++ [(toVersion m, path ++ [m])])
                   ({[toVersion m]} ∪ seen) Hcat')
        as (new & Hq & Hnew' & Hs & Hall & Hsize).
      exists ((toVersion m, path ++ [m]) :: new). split_and!.
      * rewrite Hq. by rewrite <- app_assoc.
      * intros v p Hin. apply elem_of_cons in Hin as [[= -> ->]|Hin].
        -- exists m. split; [apply list_elem_of_here|done].
        -- destruct (Hnew' v p Hin) as (m' & Hm' & ?).
           exists m'. split; [by apply list_elem_of_further|done].
      * intros v. rewrite Hs, fmap_cons, elem_of_cons. simpl. set_solver.
      * intros m' Hin. apply elem_of_cons in Hin as [->|Hin]; [|by apply Hall].
        apply Hs. left. set_solver.
      * simpl.
        assert (size (catalogTargets catalog ∖ ({[toVersion m]} ∪ seen))
                < size (catalogTargets catalog ∖ seen)); [|lia].
        apply subset_size.
        assert (toVersion m ∈ catalogTargets catalog).
        { apply elem_of_list_to_set, list_elem_of_fmap. exists m.
          split; [done|]. apply Hcat, list_elem_of_here. }
        set_solver.
Qed.

Lemma searchInv_init : searchInv 0 [(source, [])] [] {[source]} ∅.
Proof.
  split.
  - intros v p Hin. rewrite app_nil_r in Hin.
    by apply list_elem_of_singleton in Hin as [= -> ->].
  - intros v p Hin. by apply list_elem_of_singleton in Hin as [= -> ->].
  - intros v p Hin. by apply elem_of_nil in Hin.
  - intros v. simpl. set_solver.
  - intros v Hin. set_solver.
  - intros w steps Hchain Hlen. right.
    destruct steps; [|simpl in Hlen; lia]. simpl in Hchain. subst w.
    split; [done|]. apply list_elem_of_here.
Qed.

(** When the entries with [d] steps are used up, those with [d + 1]
    steps form the next level. *)
Lemma searchInv_level_up d next seen finished :
  searchInv d [] next seen finished → searchInv (S d) next [] seen finished.
Proof.
  intros [Hchain _ Hnext Hseen Hfin Hnear]. split.
  - intros v p Hin. rewrite app_nil_r in Hin. by apply Hchain.
  - done.
  - intros v p Hin. by apply elem_of_nil in Hin.
  - intros v. rewrite Hseen. by rewrite app_nil_r.
  - done.
  - intros w steps Hw Hlen.
    destruct (decide (length steps ≤ d)) as [Hle|Hgt].
    { destruct (Hnear w steps Hw Hle) as [?|[_ Hin]]; [by left|].
      by apply elem_of_nil in Hin. }
    assert (length steps = S d) as Hlen' by lia.
    destruct steps as [|m0 steps0] using rev_ind; [done|]. clear IHsteps0.
    rewrite length_app in Hlen'. simpl in Hlen'.
    apply chain_snoc in Hw as (Hprev & Hm & <-).
    destruct (Hnear _ _ Hprev) as [Hdone|[_ Hin]]; [lia| |by apply elem_of_nil in Hin].
    destruct (Hfin _ Hdone) as [_ Hsucc].
    specialize (Hsucc m0 Hm eq_refl).
    apply Hseen in Hsucc as [?|Hin]; [by left|].
    right. split; [rewrite length_app; simpl; lia|done].
Qed.

Lemma searchInv_found d p level next seen finished :
  searchInv d ((target, p) :: level) next seen finished →
  shortestChain catalog source target p.
Proof.
  intros [Hchain Hlevel _ _ Hfin Hnear].
  assert (chain source target p) as Hp by (apply Hchain, list_elem_of_here).
  split; [|intros Hnone; by destruct (Hnone p)].
  intros steps Hsteps. split; [done|].
  rewrite (Hlevel target p) by apply list_elem_of_here.
  destruct (decide (length steps ≤ d)) as [Hle|]; [|lia].
  destruct (Hnear _ _ Hsteps Hle) as [Hdone|[-> _]]; [|done].
  by destruct (Hfin _ Hdone) as [? _].
Qed.

Lemma searchInv_exhausted d seen finished :
  searchInv d [] [] seen finished → shortestChain catalog source target [].
Proof.
  intros [_ _ _ Hseen Hfin Hnear].
  assert (∀ w steps, chain source w steps → w ∈ finished) as Hall.
  { intros w steps. revert w.
    induction steps as [|m steps IH] using rev_ind; intros w Hw.
    - destruct (Hnear w [] Hw) as [?|[_ Hin]]; [simpl; lia|done|].
      by apply elem_of_nil in Hin.
    - apply chain_snoc in Hw as (Hprev & Hm & <-).
      destruct (Hfin _ (IH _ Hprev)) as [_ Hsucc].
      specialize (Hsucc m Hm eq_refl).
      apply Hseen in Hsucc as [?|Hin]; [done|].
      by apply elem_of_nil in Hin. }
  split; [|done]. intros steps Hsteps.
  by destruct (Hfin _ (Hall _ _ Hsteps)) as [? _].
Qed.

(** One iteration that does not find the target. *)
Lemma searchInv_step d u p level next seen finished :
  searchInv d ((u, p) :: level) next seen finished → u ≠ target →
  ∃ new,
    (enqueueAll p (filter (λ m, fromVersion m = u) catalog)
                (level ++ next) seen).1 = level ++ (next ++ new)
    ∧ searchInv d level (next ++ new)
        (enqueueAll p (filter (λ m, fromVersion m = u) catalog)
                    (level ++ next) seen).2
        ({[u]} ∪ finished)
    ∧ length new
        + size (catalogTargets catalog
                ∖ (enqueueAll p (filter (λ m, fromVersion m = u) catalog)
                              (level ++ next) seen).2)
      ≤ size (catalogTargets catalog ∖ seen).
Proof.
  intros [Hchain Hlevel Hnext Hseen Hfin Hnear] Hne.
  destruct (enqueueAll_spec p (filter (λ m, fromVersion m = u) catalog)
              (level ++ next) seen) as (new & Hq & Hnew & Hs & Hall & Hsize).
  { intros m Hm. by apply list_elem_of_filter in Hm as [_ ?]. }
  exists new. split; [by rewrite Hq, app_assoc|]. split; [|done].
  assert (chain source u p ∧ length p = d) as [Hp Hlen].
  { split; [apply Hchain|apply (Hlevel u)]; apply list_elem_of_here. }
  split.
  - intros v q Hin. rewrite app_assoc in Hin.
    apply elem_of_app in Hin as [Hin|Hin].
    + apply Hchain. by apply list_elem_of_further.
    + destruct (Hnew v q Hin) as (m & Hm & -> & ->).
      apply list_elem_of_filter in Hm as [Hfrom Hm].
      apply chain_snoc. by rewrite Hfrom.
  - intros v q Hin. apply (Hlevel v). by apply list_elem_of_further.
  - intros v q Hin. apply elem_of_app in Hin as [Hin|Hin]; [by apply (Hnext v)|].
    destruct (Hnew v q Hin) as (m & _ & _ & ->).
    rewrite length_app. simpl. lia.
  - intros v. rewrite Hs, Hseen. simpl.
    rewrite !fmap_app, !elem_of_app, elem_of_cons, elem_of_app. set_solver.
  - intros v Hv. apply elem_of_union in Hv as [Hv|Hv].
    + apply elem_of_singleton in Hv as ->. split; [done|].
      intros m Hm Hfrom. apply Hall. by apply list_elem_of_filter.
    + destruct (Hfin v Hv) as [? Hsucc]. split; [done|].
      intros m Hm Hfrom. apply Hs. left. by apply Hsucc.
  - intros w steps Hw Hle.
    destruct (Hnear w steps Hw Hle) as [?|[Heq Hin]]; [left; set_solver|].
    simpl in Hin. apply elem_of_cons in Hin as [->|Hin]; [left; set_solver|].
    by right.
Qed.

Lemma searchLoop_spec fuel :
  ∀ d level next seen finished,
    searchInv d level next seen finished →
    length (level ++ next) + size (catalogTargets catalog ∖ seen) < fuel →
    ∃ path,
      searchLoop fuel catalog target (level ++ next) seen = Some path
      ∧ shortestChain catalog source target path.
Proof.
  induction fuel as [|fuel IH]; intros d level next seen finished Hinv Hfuel; [lia|].
  assert (∃ d' level' next',
            level' ++ next' = level ++ next
            ∧ searchInv d' level' next' seen finished
            ∧ (level' = [] → next' = []))
    as (d' & level' & next' & Heq & Hinv' & Hnorm).
  { destruct level as [|e level].
    - exists (S d), next, []. rewrite app_nil_r.
      split; [done|]. split; [by apply searchInv_level_up|done].
    - exists d, (e :: level), next. by split_and!. }
  clear Hinv. rewrite <- Heq in *. clear Heq level next d.
  destruct level' as [|[u p] level'].
  - rewrite Hnorm by done. exists []. split; [done|].
    rewrite Hnorm in Hinv' by done. by eapply searchInv_exhausted.
  - simpl. destruct (decide (u = target)) as [->|Hne].
    + exists p. split; [done|]. by eapply searchInv_found.
    + destruct (searchInv_step _ _ _ _ _ _ _ Hinv' Hne)
        as (new & Hq & Hinv'' & Hsize).
      destruct (enqueueAll p _ (level' ++ next') seen) as [queue'' seen''] eqn:Hen.
      simpl in Hq, Hinv'', Hsize. subst queue''.
      eapply IH; [exact Hinv''|].
      simpl in Hfuel. rewrite !length_app in *. lia.
Qed.

Lemma findMigrationPath_spec :
  ∃ path,
    findMigrationPath catalog source target = Some path
    ∧ shortestChain catalog source target path.
Proof.
  unfold findMigrationPath.
  apply (searchLoop_spec _ 0 [(source, [])] [] {[source]} ∅ searchInv_init).
  simpl.
  assert (size (catalogTargets catalog ∖ {[source]}) ≤ length catalog); [|lia].
  etrans; [apply subseteq_size, subseteq_difference_l; reflexivity|].
  unfold catalogTargets. etrans; [apply size_list_to_set_le|].
  by rewrite length_fmap.
Qed.
End PathSearch.

(** C7. For every catalog and versions, [findMigrationPath] returns;
    when some chain of catalog steps leads from the detected version to
    the target, the result is such a chain and no chain has fewer steps;
    for distinct versions the result is empty exactly when no chain
    exists.  With catalog steps 0.1.0 -> 0.2.0 and 0.2.0 -> 0.3.0 the
    path from 0.1.0 to 0.3.0 is those two steps in that order, and
    executing it runs the first step and then the second. *)
Theorem findMigrationPath_shortest :
  (∀ catalog source target,
     ∃ path,
       findMigrationPath catalog source target = Some path
       ∧ ((∃ steps, chain catalog source target steps) →
            chain catalog source target path
            ∧ ∀ steps, chain catalog source target steps →
                length path ≤ length steps)
       ∧ (source ≠ target →
            (path = [] ↔ ¬ ∃ steps, chain catalog source target steps)))
  ∧ (∀ m1 m2,
       fromVersion m1 = "0.1.0" → toVersion m1 = "0.2.0" →
       fromVersion m2 = "0.2.0" → toVersion m2 = "0.3.0" →
       findMigrationPath [m1; m2] "0.1.0" "0.3.0" = Some [m1; m2]
       ∧ findMigrationPath [m2; m1] "0.1.0" "0.3.0" = Some [m1; m2]
       ∧ ∀ dataFile fs fs1 fs2,
           migrate m1 dataFile fs = (true, fs1) →
           migrate m2 dataFile fs1 = (true, fs2) →
           executeMigrations [m1; m2] dataFile fs = (true, fs2)).
Proof.
  split.
  - intros catalog source target.
    destruct (findMigrationPath_spec catalog source target)
      as (path & Hrun & Hmin & Hnone).
    exists path. split; [done|]. split.
    + intros (steps & Hsteps). split; [by eapply Hmin|].
      intros steps' Hsteps'. by eapply Hmin.
    + intros Hne. split.
      * intros -> (steps & Hsteps). by destruct (Hmin _ Hsteps) as [? _].
      * intros Hno. apply Hnone. intros steps Hsteps. apply Hno. eauto.
  - intros [f1 t1 file1 run1] [f2 t2 file2 run2]. simpl.
    intros -> -> -> ->. split_and!.
    + vm_compute. reflexivity.
    + vm_compute. reflexivity.
    + intros dataFile fs fs1 fs2 H1 H2. simpl. by rewrite H1, H2.
Qed.

Lemma findMigrationPath_shortest_witness :
  ∃ path,
    findMigrationPath [migration] "0.1.0" "0.2.0" = Some path
    ∧ chain [migration] "0.1.0" "0.2.0" path
    ∧ length path ≤ 1
    ∧ path ≠ [].
Proof.
  assert (chain [migration] "0.1.0" "0.2.0" [migration]) as Hchain.
  { simpl. split_and!; [apply list_elem_of_here|reflexivity|reflexivity]. }
  destruct (proj1 findMigrationPath_shortest [migration] "0.1.0" "0.2.0")
    as (path & Hrun & Hmin & Hempty).
  destruct Hmin as [Hpath Hleast]; [by exists [migration]|].
  exists path. split_and!; [exact Hrun|exact Hpath|exact (Hleast _ Hchain)|].
  intros Hnil. apply Hempty in Hnil; [|discriminate].
  apply Hnil. by exists [migration].
Defined.

(** * Further properties *)

(** ** The migration step and the start-up sequence *)

Lemma string_length_append (a b : string) :
  String.length (a +:+ b) = String.length a + String.length b.
Proof. induction a as [|c a IH]; simpl; [done|by rewrite IH]. Qed.

Lemma string_length_substring n m s :
  n + m ≤ String.length s → String.length (String.substring n m s) = m.
Proof.
  revert n m. induction s as [|c s IH]; intros n m Hlen; simpl in *.
  - destruct n, m; simpl; lia.
  - destruct n as [|n].
    + destruct m as [|m]; simpl; [done|]. rewrite IH; [done|lia].
    + apply IH. lia.
Qed.

Lemma string_prefix_length p s :
  String.prefix p s = true → String.length p ≤ String.length s.
Proof.
  revert p. induction s as [|c s IH]; intros [|a p]; simpl; try done; try lia.
  destruct (Ascii.ascii_dec a c); [|done]. intros Hp. apply IH in Hp. lia.
Qed.

Lemma string_prefix_append p b : String.prefix p (p +:+ b) = true.
Proof.
  induction p as [|a p IH]; simpl.
  - by destruct b.
  - by destruct (Ascii.ascii_dec a a).
Qed.

Lemma replaceFirst_hit pattern replacement s :
  String.prefix pattern s = true →
  replaceFirst pattern replacement s
  = replacement +:+ String.substring (String.length pattern)
                      (String.length s - String.length pattern) s.
Proof. intros Hp. destruct s; cbn [replaceFirst]; by rewrite Hp. Qed.

Lemma replaceFirst_miss pattern replacement c s :
  String.prefix pattern (String c s) = false →
  replaceFirst pattern replacement (String c s)
  = String c (replaceFirst pattern replacement s).
Proof. intros Hp. cbn [replaceFirst]. by rewrite Hp. Qed.

(** A replaced string has the length of the original, with the pattern's
    length exchanged for the replacement's. *)
Lemma replaceFirst_length pattern replacement a b :
  String.length (replaceFirst pattern replacement (a +:+ pattern +:+ b))
    + String.length pattern
  = String.length (a +:+ pattern +:+ b) + String.length replacement.
Proof.
  assert (∀ s, String.prefix pattern s = true →
               String.length (replaceFirst pattern replacement s)
                 + String.length pattern
               = String.length s + String.length replacement) as Hhit.
  { intros s Hp. pose proof (string_prefix_length _ _ Hp).
    rewrite replaceFirst_hit by done.
    rewrite string_length_append, string_length_substring; lia. }
  induction a as [|c a IH].
  - change ("" +:+ pattern +:+ b) with (pattern +:+ b).
    apply Hhit, string_prefix_append.
  - change (String c a +:+ pattern +:+ b)
      with (String c (a +:+ pattern +:+ b)) in *.
    destruct (String.prefix pattern (String c (a +:+ pattern +:+ b))) eqn:Hp;
      [by apply Hhit|].
    rewrite replaceFirst_miss by done. cbn [String.length]. lia.
Qed.

Lemma backupFile_neq a b :
  replaceFirst ".json" ".0.1.0.json" (a +:+ ".json" +:+ b)
  ≠ a +:+ ".json" +:+ b.
Proof.
  intros Heq. pose proof (replaceFirst_length ".json" ".0.1.0.json" a b) as Hlen.
  rewrite Heq in Hlen. simpl in Hlen. lia.
Qed.

Lemma assignOwn_fresh i v o :
  i ∉ o.*1 → assignOwn i v o = o ++ [(i, v)].
Proof.
  induction o as [|[k w] o IH]; intros Hi; [done|]. simpl in *.
  rewrite decide_False by set_solver. rewrite IH; [done|set_solver].
Qed.

Lemma storable_cons i t l :
  storable ((i, t) :: l) =
  if decide (i = "__proto__") then storable l else (i, t) :: storable l.
Proof.
  unfold storable. rewrite filter_cons. simpl.
  destruct (decide (i = "__proto__")) as [Hp|Hp].
  - rewrite decide_False; [done|]. by intros ?.
  - by rewrite decide_True.
Qed.

(** With distinct keys, as a parsed object has them, the migrated
    object holds the renamed tickets of the storable entries, in
    order. *)
Lemma renamed_all legacyTickets :
  ∀ acc,
    NoDup (acc.*1 ++ legacyTickets.*1) →
    fold_left (λ acc '(i, legacyTicket),
                 assign i (renameDependencies legacyTicket) acc)
              legacyTickets acc
    = acc ++ (prod_map (λ k, k) renameDependencies <$> storable legacyTickets).
Proof.
  induction legacyTickets as [|[i t] l IH]; intros acc Hnodup; simpl.
  - by rewrite app_nil_r.
  - apply NoDup_app in Hnodup as (Hacc & Hdisj & Hl).
    apply NoDup_cons in Hl as [Hi Hl].
    rewrite storable_cons. unfold assign.
    destruct (decide (i = "__proto__")) as [Hp|Hp].
    + apply IH. apply NoDup_app. split_and!; [done| |done].
      intros k Hk Hk'. apply (Hdisj k Hk). set_solver.
    + rewrite assignOwn_fresh by (intros Hin; apply (Hdisj i Hin); set_solver).
      rewrite IH.
      * by rewrite <- app_assoc.
      * rewrite fmap_app. simpl. apply NoDup_app. split_and!.
        -- apply NoDup_app. split_and!; [done| |apply NoDup_singleton].
           intros k Hk Hk'. apply list_elem_of_singleton in Hk' as ->.
           apply (Hdisj i Hk). set_solver.
        -- intros k Hk Hk'. apply elem_of_app in Hk as [Hk|Hk].
           ++ apply (Hdisj k Hk). set_solver.
           ++ apply list_elem_of_singleton in Hk as ->. done.
        -- done.
Qed.

Lemma renameDependencies_renamed t : renamed t (renameDependencies t).
Proof. by repeat split. Qed.

(** X13. [migrateFrom0_1_0To0_2_0]: on a missing data file it fails
    and touches nothing; on a document without [tickets] it fails after
    having written the backup only; otherwise it succeeds after exactly
    two writes, the backup and then the data file.  The data file then
    holds version "0.2.0", the same [nextId] and, for each legacy
    entry in order, under the same key, a ticket whose [blockedBy] is
    the legacy [dependencies], which has no [dependencies] and whose
    other fields are the legacy ones; an entry under the key
    ["__proto__"] is lost.  Every other file is untouched; and when the
    path contains ".json" the backup is a different file that holds the
    original document. *)
Theorem migrate_spec dataFile fs :
  let backupFile := replaceFirst ".json" ".0.1.0.json" dataFile in
  (readFileSync dataFile fs = None →
     migrateFrom0_1_0To0_2_0 dataFile fs = (false, fs))
  ∧ (∀ original,
       readFileSync dataFile fs = Some original → r_tickets original = None →
       migrateFrom0_1_0To0_2_0 dataFile fs
       = (false, writeFileSync backupFile original fs))
  ∧ (∀ original legacyTickets,
       readFileSync dataFile fs = Some original →
       r_tickets original = Some legacyTickets →
       ∃ fs' newTickets,
         migrateFrom0_1_0To0_2_0 dataFile fs = (true, fs')
         ∧ written fs' = written fs ++ [backupFile; dataFile]
         ∧ readFileSync dataFile fs'
           = Some (mkRawData (Some "0.2.0") (Some newTickets)
                             (r_nextId original))
         ∧ (NoDup legacyTickets.*1 →
              Forall2 (λ old new, new.1 = old.1 ∧ renamed old.2 new.2)
                      (filter (λ entry, entry.1 ≠ "__proto__") legacyTickets)
                      newTickets)
         ∧ (∀ path, path ≠ backupFile → path ≠ dataFile →
                    readFileSync path fs' = readFileSync path fs)
         ∧ ((∃ a b, dataFile = a +:+ ".json" +:+ b) →
              backupFile ≠ dataFile
              ∧ readFileSync backupFile fs' = Some original)).
Proof.
  intros backupFile. unfold migrateFrom0_1_0To0_2_0. fold backupFile.
  split_and!.
  - by intros ->.
  - by intros original -> ->.
  - intros original legacyTickets -> ->. eexists _, _.
    split; [reflexivity|]. unfold readFileSync, writeFileSync. simpl.
    split_and!.
    + by rewrite <- app_assoc.
    + apply lookup_insert_eq.
    + intros Hnodup. rewrite renamed_all by done. simpl.
      fold (storable legacyTickets).
      apply Forall2_fmap_r, Forall_Forall2_diag, Forall_forall.
      intros [k t] _. simpl. split; [done|apply renameDependencies_renamed].
    + intros path Hb Hd. by rewrite !lookup_insert_ne.
    + intros (a & b & ->).
      assert (backupFile ≠ a +:+ ".json" +:+ b) as Hne by apply backupFile_neq.
      split; [done|]. rewrite lookup_insert_ne by done. apply lookup_insert_eq.
Qed.

Lemma migrate_spec_witness :
  ∃ fs' newTickets t',
    migrateFrom0_1_0To0_2_0 "data/tickets.json" legacyFiles = (true, fs')
    ∧ written fs' = ["data/tickets.0.1.0.json"; "data/tickets.json"]
    ∧ readFileSync "data/tickets.0.1.0.json" fs' = Some legacySelf
    ∧ readFileSync "data/tickets.json" fs'
      = Some (mkRawData (Some "0.2.0") (Some newTickets) 2)
    ∧ newTickets = [("TICKET-0001", t')]
    ∧ r_blockedBy t' = Some ["TICKET-0001"] ∧ r_dependencies t' = None.
Proof.
  destruct (proj2 (proj2 (migrate_spec "data/tickets.json" legacyFiles))
              legacySelf
              [("TICKET-0001",
                mkRaw "TICKET-0001" "Legacy" "" (Some []) (Some ["TICKET-0001"])
                      None "2025-01-01T00:00:00.000Z" "2025-01-01T00:00:00.000Z"
                      "open")])
    as (fs' & newTickets & Hrun & Hwritten & Hdata & Hall & _ & Hbackup).
  - vm_compute. reflexivity.
  - reflexivity.
  - assert (NoDup ["TICKET-0001"]) as Hnodup by apply NoDup_singleton.
    apply Hall in Hnodup.
    rewrite filter_cons, decide_True, filter_nil in Hnodup by discriminate.
    apply Forall2_cons_inv_l in Hnodup as ([k t'] & rest & [Hk Hren] & Hrest & ->).
    apply Forall2_nil_inv_l in Hrest as ->. simpl in Hk. subst k.
    destruct Hren as (Hb & Hd & _).
    exists fs', [("TICKET-0001", t')], t'.
    split_and!; [exact Hrun|exact Hwritten| |exact Hdata|reflexivity|exact Hb|exact Hd].
    apply Hbackup. by exists "data/tickets", "".
Defined.

(** X14. Fail-fast: when the data file cannot be read, or its detected
    version is not the current one and no chain of catalog steps leads
    from it to the current version, [runMigrationIfNeeded] ends the
    process without having written anything. *)
Theorem runMigrationIfNeeded_no_path availableMigrations dataFile fs :
  (readFileSync dataFile fs = None →
     runMigrationIfNeeded availableMigrations dataFile fs = (ProcessExit, fs))
  ∧ (∀ rawData,
       readFileSync dataFile fs = Some rawData →
       detectDataVersion rawData ≠ currentAppVersion →
       (∀ steps, ¬ chain availableMigrations (detectDataVersion rawData)
                         currentAppVersion steps) →
       runMigrationIfNeeded availableMigrations dataFile fs = (ProcessExit, fs)).
Proof.
  unfold runMigrationIfNeeded. split.
  - by intros ->.
  - intros rawData -> Hne Hnone. rewrite decide_False by done.
    destruct (findMigrationPath_spec availableMigrations
                (detectDataVersion rawData) currentAppVersion)
      as (path & -> & _ & Hempty).
    by rewrite (Hempty Hnone).
Qed.

Lemma runMigrationIfNeeded_no_path_witness :
  runMigrationIfNeeded [] "data/tickets.json" legacyFiles
  = (ProcessExit, legacyFiles).
Proof.
  apply (proj2 (runMigrationIfNeeded_no_path [] "data/tickets.json" legacyFiles)
           legacySelf).
  - vm_compute. reflexivity.
  - vm_compute. discriminate.
  - intros [|step steps]; simpl; [discriminate|].
    intros (Hin & _). by apply elem_of_nil in Hin.
Defined.

Lemma shipped_path source :
  source ≠ currentAppVersion →
  findMigrationPath [migration] source currentAppVersion
  = Some (if decide (source = "0.1.0") then [migration] else []).
Proof.
  intros Hne. destruct (decide (source = "0.1.0")) as [->|Hother].
  - vm_compute. reflexivity.
  - destruct (findMigrationPath_spec [migration] source currentAppVersion)
      as (path & -> & _ & Hempty).
    rewrite Hempty; [done|].
    intros [|step steps]; simpl; [done|].
    intros (Hin & Hfrom & _). apply list_elem_of_singleton in Hin as ->. done.
Qed.

(** X16. Start-up is idempotent with the shipped migration catalog:
    whenever [initializeDataFile] returns, the data file exists and is
    detected at the current version, and running [initializeDataFile]
    again returns without changing or writing anything.  A missing data
    file is created with one write. *)
Theorem initializeDataFile_idempotent dataFile fs :
  (∀ fs', initializeDataFile [migration] dataFile fs = (Returned, fs') →
     (∃ rawData, readFileSync dataFile fs' = Some rawData
                 ∧ detectDataVersion rawData = currentAppVersion)
     ∧ initializeDataFile [migration] dataFile fs' = (Returned, fs'))
  ∧ (readFileSync dataFile fs = None →
       initializeDataFile [migration] dataFile fs
       = (Returned,
          mkFiles (<[dataFile := initialData]> (contents fs))
                  (written fs ++ [dataFile]))).
Proof.
  assert (∀ fs' rawData,
            readFileSync dataFile fs' = Some rawData →
            detectDataVersion rawData = currentAppVersion →
            initializeDataFile [migration] dataFile fs' = (Returned, fs'))
    as Hcurrent.
  { intros fs' rawData Hread Hv. unfold initializeDataFile, runMigrationIfNeeded.
    unfold readFileSync in Hread. rewrite decide_True by (rewrite Hread; eauto).
    unfold readFileSync. rewrite Hread, Hv. by rewrite decide_True. }
  split.
  - intros fs' Hrun.
    assert (∃ rawData, readFileSync dataFile fs' = Some rawData
                       ∧ detectDataVersion rawData = currentAppVersion)
      as (rawData & Hread & Hv); [|by eauto].
    revert Hrun. unfold initializeDataFile.
    destruct (decide (is_Some (contents fs !! dataFile))) as [[raw Hraw]|Hnone].
    + unfold runMigrationIfNeeded, readFileSync. rewrite Hraw.
      destruct (decide (detectDataVersion raw = currentAppVersion)) as [Hv|Hv].
      { intros [= <-]. eauto. }
      rewrite shipped_path by done.
      destruct (decide (detectDataVersion raw = "0.1.0")); [|done]. simpl.
      destruct (migrateFrom0_1_0To0_2_0 dataFile fs) as [[] fs1] eqn:Hmig; [|done].
      intros [= <-].
      destruct (migrate_tickets _ _ _ Hmig) as (? & ? & ? & _ & _ & Hnew & _).
      eexists. split; [exact Hnew|done].
    + intros [= <-]. exists initialData. split; [|done].
      unfold readFileSync, writeFileSync. simpl. apply lookup_insert_eq.
  - unfold initializeDataFile, readFileSync. intros Hnone.
    rewrite decide_False; [done|]. rewrite Hnone. by intros [? ?].
Qed.

Lemma initializeDataFile_idempotent_witness :
  ∃ fs',
    initializeDataFile [migration] "data/tickets.json" legacyFiles
    = (Returned, fs')
    ∧ initializeDataFile [migration] "data/tickets.json" fs' = (Returned, fs').
Proof.
  pose (out := initializeDataFile [migration] "data/tickets.json" legacyFiles).
  assert (out = (Returned, out.2)) as Hrun by (vm_compute; reflexivity).
  exists out.2. split; [exact Hrun|].
  apply (proj1 (initializeDataFile_idempotent "data/tickets.json" legacyFiles)
           out.2 Hrun).
Defined.

(** ** Dependency validation *)

(** X2. [validateDependencies] returns normally exactly when every
    listed id resolves (is a key of [tickets] or the name of a member
    of [Object.prototype]) and none equals [excludeId].  When it throws,
    the exception is the self-dependency error, for an entry equal to
    [excludeId], or the missing-dependency error naming an entry that
    does not resolve. *)
Theorem validateDependencies_iff deps storage excludeId :
  (validateDependencies deps storage excludeId = Ok tt ↔
     ∀ d, d ∈ deps → Some d ≠ excludeId ∧ resolves storage d)
  ∧ (∀ e, validateDependencies deps storage excludeId = Throw e →
       (e = SelfDependency ∧ ∃ d, d ∈ deps ∧ Some d = excludeId)
       ∨ (∃ d, e = DependencyMissing d ∧ d ∈ deps ∧ ¬ resolves storage d))
  ∧ (∀ d, d ∈ deps → d ∈ prototypeMembers → Some d ≠ excludeId →
       validateDependencies deps storage excludeId
       ≠ Throw (DependencyMissing d)).
Proof.
  split_and!.
  - apply validateDependencies_Ok.
  - intros e. apply validateDependencies_Throw.
  - intros d Hd Hm Hne Hthrow.
    apply validateDependencies_Throw in Hthrow
      as [[? _]|(d' & [= <-] & _ & Hno)]; [done|].
    apply Hno. by right.
Qed.

Lemma validateDependencies_iff_witness :
  validateDependencies ["TICKET-0002"; "constructor"] docTwo (Some "TICKET-0001")
  = Ok tt.
Proof.
  apply (proj2 (proj1 (validateDependencies_iff ["TICKET-0002"; "constructor"]
                         docTwo (Some "TICKET-0001")))).
  intros d Hd. apply elem_of_cons in Hd as [->|Hd].
  - split; [discriminate|]. left. vm_compute. eauto.
  - apply list_elem_of_singleton in Hd as ->.
    split; [discriminate|]. right. apply (bool_decide_unpack _). by vm_compute.
Defined.

(** ** Updating tickets *)

(** X9. The ticket a successful [updateTickets] returns for a record
    carries every field the record carries, with the record's value, and
    the time of the call as [updatedAt]. *)
Theorem updateTickets_applies now updates file result file' i u r :
  updateTickets now updates file = (Ok result, file') →
  updates !! i = Some u → result !! i = Some r →
  (∀ x, u_title u = Some x → title r = Some x)
  ∧ (∀ x, u_description u = Some x → description r = Some x)
  ∧ (∀ x, u_blockedBy u = Some x → blockedBy r = Some x)
  ∧ (∀ x, u_status u = Some x → status r = Some x)
  ∧ (∀ x, u_id u = Some x → id r = Some x)
  ∧ (∀ x, u_projects u = Some x → projects r = Some x)
  ∧ (∀ x, u_projectId u = Some x → projectId r = Some x)
  ∧ (∀ x, u_createdAt u = Some x → createdAt r = Some x)
  ∧ updatedAt r = Some now.
Proof.
  intros Hrun Hu Hr. apply updateTickets_Ok in Hrun as (_ & _ & _ & ->).
  destruct (updateApply_result now updates file None) as (_ & Hres).
  rewrite (Hres i u r Hu Hr). unfold updatesFor.
  rewrite (take_S_r _ _ _ Hu), filter_app, filter_cons, decide_True by done.
  rewrite filter_nil, fold_left_app. simpl.
  split_and!; try done; by intros x ->.
Qed.

Lemma updateTickets_applies_witness :
  ∃ result file' r,
    updateTickets "2025-02-02T00:00:00.000Z"
      [declaredUpdate "TICKET-0001" None None None (Some "closed")] docTwo
    = (Ok result, file')
    ∧ result !! 0 = Some r ∧ status r = Some "closed".
Proof.
  pose (now := "2025-02-02T00:00:00.000Z").
  pose (updates := [declaredUpdate "TICKET-0001" None None None (Some "closed")]).
  assert (updateTickets now updates docTwo =
          (Ok (updateApply now updates docTwo None []).2,
           (updateApply now updates docTwo None []).1)) as Hrun
    by (vm_compute; reflexivity).
  assert (∃ r, (updateApply now updates docTwo None []).2 !! 0 = Some r)
    as [r Hr] by (eexists; vm_compute; reflexivity).
  destruct (updateTickets_applies _ _ _ _ _ 0
              (declaredUpdate "TICKET-0001" None None None (Some "closed")) r
              Hrun eq_refl Hr) as (_ & _ & _ & Hstatus & _).
  eexists _, _, r. split; [exact Hrun|]. split; [exact Hr|].
  by apply Hstatus.
Defined.

Lemma checkCircularDependency_nil i storage :
  checkCircularDependency i [] storage = Ok tt.
Proof.
  destruct (checkCircularDependency_cases i [] storage)
    as [[_ (c & Hreach & Hcycle)]|[? _]]; [exfalso|done].
  assert (∀ y, ¬ edge i [] storage i y) as Hout.
  { intros y [[_ Hy]|[? _]]; [by apply elem_of_nil in Hy|done]. }
  inversion Hreach as [|? y ? Hstep _]; subst; [|by eapply Hout].
  inversion Hcycle; subst; by eapply Hout.
Qed.

(** X10. A batch whose records all address tickets that are found and
    carry no [blockedBy], or an empty one, always succeeds: changing a
    title, a description or a status, or clearing the dependencies, is
    never refused, whatever the rest of the document looks like. *)
Theorem updateTickets_plain_succeeds now updates file :
  (∀ u, u ∈ updates → resolves file (u_ticketId u)) →
  (∀ u, u ∈ updates → u_blockedBy u = None ∨ u_blockedBy u = Some []) →
  ∃ result file', updateTickets now updates file = (Ok result, file').
Proof.
  intros Hexist Hplain. eexists _, _. apply updateTickets_Ok.
  split_and!; [by apply updateExist_Ok| |done|done].
  apply updateValidate_Ok. intros u deps Hu Hdeps.
  destruct (Hplain u Hu) as [Hn|Hn]; [congruence|].
  rewrite Hdeps in Hn. injection Hn as ->.
  split; [done|apply checkCircularDependency_nil].
Qed.

Lemma updateTickets_plain_succeeds_witness :
  ∃ result file',
    updateTickets "2025-02-02T00:00:00.000Z"
      [declaredUpdate "TICKET-0001" None None None (Some "closed");
       declaredUpdate "TICKET-0002" (Some "x") None (Some []) None] docChain
    = (Ok result, file').
Proof.
  apply updateTickets_plain_succeeds.
  - intros u Hu. left.
    apply elem_of_cons in Hu as [->|Hu]; [vm_compute; eauto|].
    apply list_elem_of_singleton in Hu as ->. vm_compute. eauto.
  - intros u Hu. apply elem_of_cons in Hu as [->|Hu]; [by left|].
    apply list_elem_of_singleton in Hu as ->. by right.
Defined.

(** X19. [updateTickets] accepts a batch exactly when every record
    addresses an id that resolves (a key of [tickets] or the name of a
    member of [Object.prototype]) and, for every record that carries
    [blockedBy], each listed id resolves and differs from the record's
    [ticketId] and the list closes no cycle reachable from that ticket
    in the document as read.  A record whose id does not resolve takes
    precedence over any dependency error: the batch fails with the
    not-found error of the first such record, and the file is
    unchanged. *)
Theorem updateTickets_accepts_iff now updates file :
  ((∃ result file', updateTickets now updates file = (Ok result, file'))
   ↔ (∀ u, u ∈ updates → resolves file (u_ticketId u))
     ∧ (∀ u deps, u ∈ updates → u_blockedBy u = Some deps →
          (u_ticketId u ∉ deps)
          ∧ (∀ d, d ∈ deps → resolves file d)
          ∧ ¬ cycleReachable (u_ticketId u) deps file))
  ∧ (∀ before u after,
       updates = before ++ u :: after →
       (∀ u', u' ∈ before → resolves file (u_ticketId u')) →
       ¬ resolves file (u_ticketId u) →
       updateTickets now updates file
       = (Throw (TicketNotFound (u_ticketId u)), file)).
Proof.
  split.
  - split.
    + intros (result & file' & Hrun).
      apply updateTickets_Ok in Hrun as (Hexist & Hvalid & _ & _).
      split; [by apply updateExist_Ok|].
      intros u deps Hu Hdeps.
      destruct (proj1 (updateValidate_Ok _ _) Hvalid u deps Hu Hdeps) as [Hv Hc].
      pose proof (proj1 (validateDependencies_Ok _ _ _) Hv) as Hall.
      split_and!.
      * intros Hin. by destruct (Hall _ Hin).
      * intros d Hd. by destruct (Hall _ Hd).
      * by apply checkCircularDependency_Ok_iff.
    + intros [Hexist Hvalid]. eexists _, _. apply updateTickets_Ok.
      split_and!; [by apply updateExist_Ok| |done|done].
      apply updateValidate_Ok. intros u deps Hu Hdeps.
      destruct (Hvalid u deps Hu Hdeps) as (Hself & Hall & Hcyc).
      split; [|by apply checkCircularDependency_Ok_iff].
      apply validateDependencies_Ok. intros d Hd. split; [|by apply Hall].
      intros [= ->]. done.
  - intros before u after -> Hbefore Hnone.
    unfold updateTickets, bind, readData, lift.
    assert (updateExist (before ++ u :: after) file
            = Throw (TicketNotFound (u_ticketId u))) as ->; [|done].
    induction before as [|x before IH]; simpl.
    + apply getTicket_None in Hnone. by rewrite Hnone.
    + destruct (proj2 (getTicket_resolves file (u_ticketId x))) as [v ->];
        [apply Hbefore, list_elem_of_here|].
      apply IH. intros u' Hu'. apply Hbefore. by apply list_elem_of_further.
Qed.

Lemma updateTickets_accepts_iff_witness :
  ∃ result file',
    updateTickets "2025-02-02T00:00:00.000Z"
      [declaredUpdate "TICKET-0001" None None (Some ["TICKET-0002"]) None] docTwo
    = (Ok result, file').
Proof.
  apply (proj2 (proj1 (updateTickets_accepts_iff "2025-02-02T00:00:00.000Z"
           [declaredUpdate "TICKET-0001" None None (Some ["TICKET-0002"]) None]
           docTwo))).
  split.
  - intros u Hu. apply list_elem_of_singleton in Hu as ->.
    left. vm_compute. eauto.
  - intros u deps Hu Hdeps. apply list_elem_of_singleton in Hu as ->.
    injection Hdeps as <-. split_and!.
    + intros Hin. apply list_elem_of_singleton in Hin. discriminate.
    + intros d Hd. apply list_elem_of_singleton in Hd as ->.
      left. vm_compute. eauto.
    + apply checkCircularDependency_Ok_iff. vm_compute. reflexivity.
Defined.

(** ** Minted ids *)

Lemma pretty_N_char_value d :
  (d < 10)%N → (Ascii.N_of_ascii (pretty_N_char d) - 48 = d)%N.
Proof.
  intros Hd.
  assert (d = 0 ∨ d = 1 ∨ d = 2 ∨ d = 3 ∨ d = 4 ∨ d = 5 ∨ d = 6 ∨ d = 7
          ∨ d = 8 ∨ d = 9)%N as Hcases by lia.
  repeat (destruct Hcases as [->|Hcases]; [reflexivity|]). by subst.
Qed.

Lemma decimalValue_pretty_go x :
  ∀ s, decimalValue (pretty_N_go x s)
       = (x * 10 ^ N.of_nat (String.length s) + decimalValue s)%N.
Proof.
  induction (N.lt_wf_0 x) as [x _ IH]. intros s.
  destruct (decide (x = 0%N)) as [->|Hpos].
  { by rewrite pretty_N_go_0. }
  rewrite pretty_N_go_step by lia.
  rewrite IH by (apply N.div_lt; lia).
  cbn [decimalValue String.length].
  rewrite pretty_N_char_value by (apply N.mod_lt; lia).
  rewrite Nat2N.inj_succ, N.pow_succ_r'.
  pose proof (N.div_mod x 10). lia.
Qed.

Lemma decimalValue_pretty (n : N) : decimalValue (pretty n) = n.
Proof.
  unfold pretty, pretty_N. destruct (decide (n = 0%N)) as [->|Hn]; [done|].
  rewrite decimalValue_pretty_go. simpl. lia.
Qed.

Lemma decimalValue_zero s : decimalValue ("0" +:+ s) = decimalValue s.
Proof. reflexivity. Qed.

Lemma concat_zeros_succ k :
  String.concat "" (replicate (S k) "0")
  = "0" +:+ String.concat "" (replicate k "0").
Proof. destruct k; reflexivity. Qed.

Lemma decimalValue_zeros k s :
  decimalValue (String.concat "" (replicate k "0") +:+ s) = decimalValue s.
Proof.
  induction k as [|k IH]; [done|].
  rewrite concat_zeros_succ.
  change (("0" +:+ String.concat "" (replicate k "0")) +:+ s)
    with ("0" +:+ (String.concat "" (replicate k "0") +:+ s)).
  by rewrite decimalValue_zero.
Qed.

Lemma substring_all s : String.substring 0 (String.length s) s = s.
Proof. induction s as [|c s IH]; simpl; [done|by rewrite IH]. Qed.

Lemma idNumber_ticketIdOf n : idNumber (ticketIdOf n) = n.
Proof.
  assert (∀ digits,
            String.substring 7 (String.length ("TICKET-" +:+ digits) - 7)
                             ("TICKET-" +:+ digits) = digits) as Hstrip.
  { intros digits. simpl. rewrite Nat.sub_0_r. apply substring_all. }
  unfold idNumber, ticketIdOf. rewrite Hstrip.
  unfold padStart4. by rewrite decimalValue_zeros, decimalValue_pretty.
Qed.
Lemma ticketIdOf_inj n m : ticketIdOf n = ticketIdOf m → n = m.
Proof.
  intros Heq. by rewrite <- (idNumber_ticketIdOf n), Heq, idNumber_ticketIdOf.
Qed.

Lemma generateId_id storage : (generateId storage).1 = ticketIdOf (nextId storage).
Proof. reflexivity. Qed.

Lemma pretty_N_char_digit d : (d < 10)%N → isDigit (pretty_N_char d).
Proof.
  intros Hd. unfold isDigit.
  assert (d = 0 ∨ d = 1 ∨ d = 2 ∨ d = 3 ∨ d = 4 ∨ d = 5 ∨ d = 6 ∨ d = 7
          ∨ d = 8 ∨ d = 9)%N as Hcases by lia.
  repeat (destruct Hcases as [->|Hcases]; [vm_compute; by split; intros [=]|]).
  subst. vm_compute. by split; intros [=].
Qed.

Lemma allDigits_pretty_go x :
  ∀ s, allDigits s → allDigits (pretty_N_go x s).
Proof.
  induction (N.lt_wf_0 x) as [x _ IH]. intros s Hs.
  destruct (decide (x = 0%N)) as [->|Hpos].
  { by rewrite pretty_N_go_0. }
  rewrite pretty_N_go_step by lia.
  apply IH; [apply N.div_lt; lia|].
  split; [|done]. apply pretty_N_char_digit, N.mod_lt. lia.
Qed.

Lemma allDigits_pretty (n : N) : allDigits (pretty n).
Proof.
  unfold pretty, pretty_N. destruct (decide (n = 0%N)) as [->|Hn].
  - split; [|done]. vm_compute. by split; intros [=].
  - by apply allDigits_pretty_go.
Qed.

Lemma allDigits_zeros k s :
  allDigits s → allDigits (String.concat "" (replicate k "0") +:+ s).
Proof.
  intros Hs. induction k as [|k IH]; [done|].
  rewrite concat_zeros_succ.
  change (("0" +:+ String.concat "" (replicate k "0")) +:+ s)
    with ("0" +:+ (String.concat "" (replicate k "0") +:+ s)).
  split; [|done]. vm_compute. by split; intros [=].
Qed.

Lemma length_zeros k :
  String.length (String.concat "" (replicate k "0")) = k.
Proof.
  induction k as [|k IH]; [done|].
  by rewrite concat_zeros_succ, string_length_append, IH.
Qed.

(** The printed number has no leading zero: with [k + 1] digits it is
    at least [10 ^ k]. *)
Lemma length_pretty_go x :
  ∀ s, (0 < x)%N →
       ∃ k, String.length (pretty_N_go x s) = String.length s + S k
            ∧ (10 ^ N.of_nat k ≤ x)%N.
Proof.
  induction (N.lt_wf_0 x) as [x _ IH]. intros s Hpos.
  rewrite pretty_N_go_step by lia.
  destruct (decide (x `div` 10 = 0)%N) as [Hz|Hnz].
  - rewrite Hz, pretty_N_go_0. exists 0.
    split; [cbn [String.length]; lia|]. change (1 ≤ x)%N. clear Hz IH. lia.
  - destruct (IH (x `div` 10)%N) with (s := String (pretty_N_char (x `mod` 10)) s)
      as (k & Hlen & Hk); [apply N.div_lt; lia|by apply N.neq_0_lt_0|].
    exists (S k). simpl in Hlen. split; [lia|].
    rewrite Nat2N.inj_succ, N.pow_succ_r'.
    pose proof (N.div_mod x 10) as Hdm.
    set (p := (10 ^ N.of_nat k)%N) in *. set (q := (x `div` 10)%N) in *.
    set (r := (x `mod` 10)%N) in *. clearbody p q r. clear IH Hlen. lia.
Qed.

Lemma length_pretty (n : N) :
  ∃ k, String.length (pretty n) = S k ∧ (n ≠ 0%N → (10 ^ N.of_nat k ≤ n)%N).
Proof.
  unfold pretty, pretty_N. destruct (decide (n = 0%N)) as [->|Hn].
  - exists 0. by split.
  - destruct (length_pretty_go n "") as (k & Hlen & Hk); [lia|].
    exists k. simpl in Hlen. split; [done|by intros _].
Qed.

Lemma ticketIdOf_notMember n : ticketIdOf n ∉ prototypeMembers.
Proof.
  unfold ticketIdOf, prototypeMembers. intros Hin.
  repeat (apply elem_of_cons in Hin as [Heq|Hin]; [simpl in Heq; discriminate|]).
  by apply elem_of_nil in Hin.
Qed.

Lemma ticketIdOf_unresolved storage n :
  tickets storage !! ticketIdOf n = None → ¬ resolves storage (ticketIdOf n).
Proof.
  intros Hnone [[t Ht]|Hm]; [congruence|by apply ticketIdOf_notMember in Hm].
Qed.

(** X1. While the counter is at most [2^53], the id [generateId] mints
    is ["TICKET-"] followed by the decimal digits of the counter,
    padded with zeros on the left to four digits and without leading
    zero beyond that: the digits, read back, give the counter, so
    different counter values give different ids.  Tickets and version
    are untouched.  The counter is bumped by one while it is below
    [2^53]; at [2^53] the addition rounds back and the counter stays, so
    the same id is minted again. *)
Theorem generateId_roundtrip storage :
  (nextId storage ≤ maxSafe)%N →
  (∃ body,
     (generateId storage).1 = "TICKET-" +:+ body
     ∧ allDigits body ∧ decimalValue body = nextId storage
     ∧ 4 ≤ String.length body
     ∧ (4 < String.length body →
          (10 ^ N.of_nat (String.length body - 1) ≤ nextId storage)%N))
  ∧ tickets (generateId storage).2 = tickets storage
  ∧ version (generateId storage).2 = version storage
  ∧ ((nextId storage < maxSafe)%N →
       nextId (generateId storage).2 = (nextId storage + 1)%N)
  ∧ (nextId storage = maxSafe →
       nextId (generateId storage).2 = nextId storage
       ∧ (generateId (generateId storage).2).1 = (generateId storage).1)
  ∧ ∀ storage', (nextId storage' ≤ maxSafe)%N →
                (generateId storage).1 = (generateId storage').1 →
                nextId storage = nextId storage'.
Proof.
  intros _. split_and!; try done.
  - exists (padStart4 (pretty (nextId storage))). unfold padStart4.
    split_and!; [done| | | |].
    + apply allDigits_zeros, allDigits_pretty.
    + by rewrite decimalValue_zeros, decimalValue_pretty.
    + rewrite string_length_append, length_zeros. lia.
    + rewrite string_length_append, length_zeros. intros Hlong.
      destruct (length_pretty (nextId storage)) as (k & Hlen & Hk).
      replace (4 - String.length (pretty (nextId storage))
               + String.length (pretty (nextId storage)) - 1) with k by lia.
      apply Hk. intros Hz. rewrite Hz in Hlong.
      change (String.length (pretty 0%N)) with 1 in Hlong. lia.
  - intros Hn. simpl. by apply toDouble_succ.
  - intros Hn. simpl. rewrite Hn, toDouble_stall. done.
  - intros storage' _ Heq. by apply ticketIdOf_inj.
Qed.

Lemma generateId_roundtrip_witness :
  nextId (generateId docTwo).2 = 4%N
  ∧ nextId (generateId docFull).2 = nextId docFull.
Proof.
  assert (nextId docTwo ≤ maxSafe)%N as Htwo by (by vm_compute).
  assert (nextId docFull ≤ maxSafe)%N as Hfull by (by vm_compute).
  destruct (generateId_roundtrip docTwo Htwo) as (_ & _ & _ & Hnext & _).
  destruct (generateId_roundtrip docFull Hfull) as (_ & _ & _ & _ & Hstall & _).
  split.
  - apply Hnext. by vm_compute.
  - by apply Hstall.
Defined.

(** ** Invariants of committed documents *)


Lemma setTicket_keys i t storage k :
  is_Some (tickets storage !! k) → is_Some (tickets (setTicket i t storage) !! k).
Proof.
  intros [tk Hk]. simpl. destruct (decide (i = k)) as [->|Hne].
  - rewrite lookup_insert_eq. eauto.
  - rewrite lookup_insert_ne by done. eauto.
Qed.


Lemma generateId_resolves storage d :
  resolves (generateId storage).2 d ↔ resolves storage d.
Proof. done. Qed.

Lemma createAll_keys now items :
  ∀ storage created storage' created' k,
    createAll now items storage created = Ok (storage', created') →
    is_Some (tickets storage !! k) → is_Some (tickets storage' !! k).
Proof.
  induction items as [|item items IH];
    intros storage created storage' created' k Hrun Hk.
  { by injection Hrun as <- _. }
  simpl in Hrun.
  destruct (checkCircularDependency _ _ _) as [[]|]; [|done].
  simpl in Hrun. eapply IH; [done|]. by apply setTicket_keys.
Qed.








(** ** The counter *)

Lemma createAll_counter now items :
  ∀ storage created storage' created',
    createAll now items storage created = Ok (storage', created') →
    version storage' = version storage
    ∧ ((nextId storage ≤ maxSafe)%N →
         (nextId storage ≤ nextId storage' ≤ maxSafe)%N)
    ∧ ((nextId storage + N.of_nat (length items) ≤ maxSafe)%N →
         nextId storage' = (nextId storage + N.of_nat (length items))%N
         ∧ (counterFresh storage → counterFresh storage')).
Proof.
  induction items as [|item items IH];
    intros storage created storage' created' Hrun.
  { injection Hrun as <- _. split_and!; [done|lia| ]. intros _.
    split; [simpl; lia|done]. }
  simpl in Hrun.
  destruct (checkCircularDependency _ _ _) as [[]|]; [|done].
  simpl in Hrun. apply IH in Hrun as (Hv & Hrange & Hexact). simpl in *.
  split_and!; [done| |].
  - intros Hn. destruct (toDouble_succ_range _ Hn) as ([? ?] & _).
    specialize (Hrange ltac:(lia)). lia.
  - intros Hn. rewrite toDouble_succ in Hexact by (unfold maxSafe in *; lia).
    destruct Hexact as [Hnext Hfresh]; [lia|]. split; [lia|].
    intros Hinv. apply Hfresh. intros m Hm. simpl in *.
    rewrite lookup_insert_ne.
    + apply Hinv. lia.
    + intros Heq. apply ticketIdOf_inj in Heq. lia.
Qed.

(** A counter that ends below [2^53] never stalled. *)
Lemma createAll_no_stall now items :
  ∀ storage created storage' created',
    createAll now items storage created = Ok (storage', created') →
    (nextId storage ≤ maxSafe)%N → (nextId storage' < maxSafe)%N →
    (nextId storage + N.of_nat (length items) ≤ maxSafe)%N.
Proof.
  induction items as [|item items IH];
    intros storage created storage' created' Hrun Hn Hend.
  { simpl. lia. }
  simpl in Hrun.
  destruct (checkCircularDependency _ _ _) as [[]|]; [|done].
  simpl in Hrun.
  destruct (toDouble_succ_range _ Hn) as ([Hlo Hhi] & Hsucc & Hstall).
  pose proof (createAll_counter _ _ _ _ _ _ Hrun) as (_ & Hrange & _).
  simpl in Hrange. specialize (Hrange Hhi).
  apply IH in Hrun; [|done|done]. simpl in Hrun.
  destruct (decide (nextId storage = maxSafe)) as [Heq|Hne].
  - rewrite (Hstall Heq) in Hrange. lia.
  - rewrite Hsucc in Hrun by lia. simpl. lia.
Qed.

Lemma commit_counter file file' :
  commit file file' →
  version file' = version file
  ∧ ((nextId file ≤ maxSafe)%N → (nextId file ≤ nextId file' ≤ maxSafe)%N)
  ∧ ((nextId file ≤ maxSafe)%N → (nextId file' < maxSafe)%N →
       counterFresh file → counterFresh file').
Proof.
  intros [now title description projects deps ticket Hrun
         |now items created Hrun
         |now updates updated Hrun
         |ticketId Hrun].
  - apply createTicket_Ok in Hrun as (_ & _ & -> & ->). simpl.
    split_and!; [done| |].
    + intros Hn. destruct (toDouble_succ_range _ Hn) as ([? ?] & _). lia.
    + intros Hn Hend Hinv m Hm. simpl in *.
      destruct (toDouble_succ_range _ Hn) as (_ & Hsucc & Hstall).
      destruct (decide (nextId file = maxSafe)) as [Heq|Hne];
        [rewrite (Hstall Heq) in Hend; lia|].
      rewrite Hsucc in Hm by lia.
      rewrite lookup_insert_ne.
      * apply Hinv. lia.
      * intros Heq. apply ticketIdOf_inj in Heq. lia.
  - apply createTickets_Ok in Hrun as [_ Hall].
    destruct (createAll_counter _ _ _ _ _ _ Hall) as (Hv & Hrange & Hexact).
    split_and!; [done|done|].
    intros Hn Hend. apply Hexact. by eapply createAll_no_stall.
  - destruct (updateTickets_lookup _ _ _ _ _ Hrun) as (_ & _ & Hnew).
    apply updateTickets_Ok in Hrun as (_ & _ & -> & _).
    destruct (updateApply_storage now updates file None) as (Hv & Hn & _).
    split_and!; [done|lia|].
    intros _ _ Hinv m Hle. rewrite Hn in Hle.
    destruct (tickets _ !! ticketIdOf m) as [t|] eqn:Ht; [|done].
    destruct (Hnew (ticketIdOf m)) as (Hm & _); [by apply Hinv|eauto|].
    by apply ticketIdOf_notMember in Hm.
  - apply deleteTicket_Ok in Hrun as (_ & _ & _ & ->). simpl.
    split_and!; [done|lia|].
    intros _ _ Hinv m Hm. cbn [tickets nextId] in *.
    rewrite stripDependency_lookup. case_decide; [done|].
    by rewrite (Hinv m Hm).
Qed.

(** X4. Across any sequence of successful create, batch create, batch
    update and delete operations the document keeps its [version]; a
    counter [nextId] that is at most [2^53] never decreases (deletions
    included) and never exceeds [2^53]; and as long as it ends below
    [2^53], a document in which no id the counter can still mint is in
    use stays so: ids are not reused.  At [2^53] the counter stalls:
    two creations in a row mint the same id, and the second replaces
    the ticket of the first. *)
Theorem counter_invariant file file' :
  (rtc commit file file' →
   (nextId file ≤ maxSafe)%N →
   version file' = version file
   ∧ (nextId file ≤ nextId file' ≤ maxSafe)%N
   ∧ ((nextId file' < maxSafe)%N → counterFresh file → counterFresh file'))
  ∧ (let first := createTicket "2025-02-02T00:00:00.000Z" "a" "d" [] [] docFull in
     let second := createTicket "2025-02-03T00:00:00.000Z" "b" "d" [] [] first.2 in
     ∃ t1 t2, first.1 = Ok t1 ∧ second.1 = Ok t2
       ∧ id t1 = Some "TICKET-9007199254740992" ∧ id t2 = id t1
       ∧ nextId second.2 = nextId docFull
       ∧ tickets first.2 !! "TICKET-9007199254740992" = Some t1
       ∧ tickets second.2 !! "TICKET-9007199254740992" = Some t2
       ∧ title t1 ≠ title t2).
Proof.
  split.
  - intros Hsteps. induction Hsteps as [|file mid file' Hstep _ IH].
    { intros Hn. split_and!; [done|lia|lia|done]. }
    intros Hn.
    destruct (commit_counter _ _ Hstep) as (Hv & Hrange & Hf).
    specialize (Hrange Hn).
    destruct IH as (Hv' & Hrange' & Hf'); [lia|].
    split_and!; [congruence|lia|lia|].
    intros Hend Hfresh. apply Hf'; [done|]. apply Hf; [done|lia|done].
  - eexists _, _. split_and!; try (vm_compute; reflexivity). by vm_compute.
Qed.

Lemma docTwo_counterFresh : counterFresh docTwo.
Proof.
  intros n Hn. simpl in Hn. unfold docTwo. simpl.
  rewrite !lookup_insert_ne, lookup_empty; [done| |].
  - change "TICKET-0002" with (ticketIdOf 2). intros Heq.
    apply ticketIdOf_inj in Heq. lia.
  - change "TICKET-0001" with (ticketIdOf 1). intros Heq.
    apply ticketIdOf_inj in Heq. lia.
Qed.

Lemma counter_invariant_witness :
  counterFresh (deleteTicket "TICKET-0001" docTwo).2.
Proof.
  destruct (proj1 (counter_invariant docTwo (deleteTicket "TICKET-0001" docTwo).2))
    as (_ & _ & Hfresh).
  - apply rtc_once, (commit_delete _ _ "TICKET-0001"). vm_compute. reflexivity.
  - by vm_compute.
  - apply Hfresh; [by vm_compute|exact docTwo_counterFresh].
Defined.

(** ** Creation on a well-formed document *)

Lemma createTicket_adds_one_eq now title description projects deps file ticket file' :
  createTicket now title description projects deps file = (Ok ticket, file') →
  ticket = mkTicket (Some (ticketIdOf (nextId file))) (Some title)
             (Some description) (Some projects) None (Some deps) (Some now)
             (Some now) (Some "open")
  ∧ file' = setTicket (ticketIdOf (nextId file)) ticket (generateId file).2.
Proof.
  intros Hrun. by apply createTicket_Ok in Hrun as (_ & _ & -> & ->).
Qed.

(** X5. On a document whose counter is fresh and at most [2^53], a
    successful [createTicket] adds exactly one ticket, under the id
    minted from the counter, open, with both timestamps set to the time
    of the call and the given fields; no existing ticket is replaced or
    changed and the version is kept.  The counter grows by one below
    [2^53] and stays where it is at [2^53]. *)
Theorem createTicket_adds_one now title description projects deps file ticket file' :
  counterFresh file → (nextId file ≤ maxSafe)%N →
  createTicket now title description projects deps file = (Ok ticket, file') →
  ticket = mkTicket (Some (ticketIdOf (nextId file))) (Some title)
             (Some description) (Some projects) None (Some deps) (Some now)
             (Some now) (Some "open")
  ∧ tickets file !! ticketIdOf (nextId file) = None
  ∧ tickets file' !! ticketIdOf (nextId file) = Some ticket
  ∧ (∀ k, k ≠ ticketIdOf (nextId file) → tickets file' !! k = tickets file !! k)
  ∧ size (tickets file') = S (size (tickets file))
  ∧ version file' = version file
  ∧ ((nextId file < maxSafe)%N → nextId file' = (nextId file + 1)%N)
  ∧ (nextId file = maxSafe → nextId file' = nextId file).
Proof.
  intros Hfresh _ Hrun. apply createTicket_adds_one_eq in Hrun as [-> ->].
  assert (tickets file !! ticketIdOf (nextId file) = None) as Hnone
    by (apply Hfresh; lia).
  simpl. split_and!; try done.
  - apply lookup_insert_eq.
  - intros k Hne. by apply lookup_insert_ne.
  - by apply map_size_insert_None.
  - intros Hlt. by apply toDouble_succ.
  - intros Heq. rewrite Heq. by vm_compute.
Qed.

Lemma createTicket_adds_one_witness :
  ∃ ticket file',
    createTicket "2025-02-02T00:00:00.000Z" "t" "d" [] ["TICKET-0001"] docTwo
    = (Ok ticket, file')
    ∧ id ticket = Some "TICKET-0003"
    ∧ size (tickets file') = 3
    ∧ nextId file' = 4%N.
Proof.
  pose (run := createTicket "2025-02-02T00:00:00.000Z" "t" "d" []
                 ["TICKET-0001"] docTwo).
  assert (run = (Ok (mkTicket (Some "TICKET-0003") (Some "t") (Some "d")
                      (Some []) None (Some ["TICKET-0001"])
                      (Some "2025-02-02T00:00:00.000Z")
                      (Some "2025-02-02T00:00:00.000Z") (Some "open")), run.2))
    as Hrun by (vm_compute; reflexivity).
  assert (nextId docTwo ≤ maxSafe)%N as Hn by (by vm_compute).
  destruct (createTicket_adds_one _ _ _ _ _ _ _ _ docTwo_counterFresh Hn Hrun)
    as (_ & _ & _ & _ & Hsize & _ & Hnext & _).
  eexists _, _. split; [exact Hrun|]. split; [reflexivity|].
  split; [rewrite Hsize; reflexivity|]. rewrite Hnext; [reflexivity|].
  by vm_compute.
Defined.

(** No edge enters [k]: a path that does not start at [k] never uses an
    edge that leaves [k]. *)
Lemma tc_never_through (R R' : relation string) k a b :
  (∀ x, ¬ R x k) → (∀ x y, R x y → x ≠ k → R' x y) →
  a ≠ k → tc R a b → tc R' a b.
Proof.
  intros Hin Hsub Ha Hab. induction Hab as [a b Hab|a x b Hax Hxb IH].
  - apply tc_once. by apply Hsub.
  - eapply tc_l; [by apply Hsub|]. apply IH. intros ->. by eapply Hin.
Qed.

Lemma tc_target (R : relation string) a b : tc R a b → ∃ x, R x b.
Proof. induction 1; eauto. Qed.

(** The cycle check of an id that no [blockedBy] names passes on an
    acyclic document. *)
Lemma checkCircularDependency_unreferenced i deps storage :
  (∀ k t, tickets storage !! k = Some t → i ∉ blockers t) →
  i ∉ deps → acyclic storage →
  checkCircularDependency i deps storage = Ok tt.
Proof.
  intros Hstored Hself Hacyclic.
  destruct (checkCircularDependency_cases i deps storage)
    as [[_ (c & _ & Hcycle)]|[? _]]; [exfalso|done].
  assert (∀ x, ¬ edge i deps storage x i) as Hin.
  { intros x [[_ Hx]|[_ (t & deps' & Ht & Hdeps' & Hx)]]; [done|].
    apply (Hstored x t Ht). unfold blockers. by rewrite Hdeps'. }
  apply (Hacyclic c).
  eapply (tc_never_through _ _ i); [exact Hin|apply edge_blocks| |exact Hcycle].
  intros ->. destruct (tc_target _ _ _ Hcycle) as [x Hx]. by eapply Hin.
Qed.

(** An id the counter can still mint does not resolve. *)
Lemma counterFresh_unresolved file n :
  counterFresh file → (nextId file ≤ n)%N → ¬ resolves file (ticketIdOf n).
Proof.
  intros Hfresh Hn [[t Ht]|Hm].
  - by rewrite (Hfresh n Hn) in Ht.
  - by apply ticketIdOf_notMember in Hm.
Qed.

Lemma createAll_succeeds now items (c : N) :
  ∀ storage created,
    (c ≤ nextId storage ≤ maxSafe)%N →
    (∀ n k t, (c ≤ n)%N → tickets storage !! k = Some t →
              ticketIdOf n ∉ blockers t) →
    acyclic storage →
    (∀ n item, (c ≤ n)%N → item ∈ items →
               ticketIdOf n ∉ default [] (c_blockedBy item)) →
    ∃ storage' created',
      createAll now items storage created = Ok (storage', created').
Proof.
  induction items as [|item items IH];
    intros storage created Hn Hstored Hacyclic Hdeps; [simpl; eauto|].
  simpl. fold (ticketIdOf (nextId storage)).
  pose proof (checkCircularDependency_unreferenced (ticketIdOf (nextId storage))
                (default [] (c_blockedBy item))
                (mkStorage (version storage) (tickets storage)
                           (toDouble (nextId storage + 1)))
                (λ k t, Hstored (nextId storage) k t (proj1 Hn))
                (Hdeps (nextId storage) item (proj1 Hn) (list_elem_of_here _ _))
                Hacyclic) as Hcheck.
  rewrite Hcheck. simpl. apply IH.
  - simpl. destruct (toDouble_succ_range (nextId storage) (proj2 Hn))
      as ([? ?] & _). lia.
  - intros n k t Hcn Hk. simpl in Hk.
    apply lookup_insert_Some in Hk as [[_ <-]|[_ Hk]]; [|by eapply Hstored].
    unfold blockers. simpl. apply Hdeps; [done|apply list_elem_of_here].
  - eapply override_acyclic; [|exact Hcheck|]; [exact Hacyclic|].
    intros x y Hxy. by apply setTicket_blocks in Hxy.
  - intros n item' Hcn Hin. apply Hdeps; [done|by apply list_elem_of_further].
Qed.

Lemma createValidate_succeeds items storage :
  (∀ item d, item ∈ items → d ∈ default [] (c_blockedBy item) →
             resolves storage d) →
  createValidate items storage = Ok tt.
Proof.
  intros Hdeps. apply createValidate_Ok. done.
Qed.

(** X6. On a well-formed document (counter fresh and at most [2^53],
    every [blockedBy] id resolving, no cycle) a create request succeeds
    exactly when every id in its [blockedBy] resolves: is a key of
    [tickets] or the name of a member of [Object.prototype].  The same
    for a batch, where every item is held against the document as it
    was before the call, so an item cannot name a ticket created by the
    same batch. *)
Theorem create_succeeds_iff now file :
  counterFresh file → depsResolve file → acyclic file →
  (nextId file ≤ maxSafe)%N →
  (∀ title description projects deps,
     (∀ d, d ∈ deps → resolves file d)
     ↔ ∃ ticket file',
         createTicket now title description projects deps file
         = (Ok ticket, file'))
  ∧ (∀ items,
       (∀ item d, item ∈ items → d ∈ default [] (c_blockedBy item) →
                  resolves file d)
       ↔ ∃ created file', createTickets now items file = (Ok created, file')).
Proof.
  intros Hfresh Hrefs Hacyclic Hn.
  assert (∀ n k t, (nextId file ≤ n)%N → tickets file !! k = Some t →
                   ticketIdOf n ∉ blockers t) as Hstored.
  { intros n k t Hle Hk Hin.
    by apply (counterFresh_unresolved file n Hfresh Hle), (Hrefs k t). }
  split.
  - intros title description projects deps. split.
    + intros Hdeps.
      assert (validateDependencies deps file None = Ok tt) as Hval.
      { apply validateDependencies_Ok. intros d Hd. split; [done|by apply Hdeps]. }
      assert (checkCircularDependency (generateId file).1 deps (generateId file).2
              = Ok tt) as Hcheck.
      { apply checkCircularDependency_unreferenced; [|
          |exact Hacyclic].
        - intros k t. by apply (Hstored (nextId file)).
        - intros Hin.
          by apply (counterFresh_unresolved file (nextId file) Hfresh), Hdeps. }
      eexists _, _. apply createTicket_Ok. by split_and!.
    + intros (ticket & file' & Hrun) d Hd.
      apply createTicket_Ok in Hrun as (Hval & _).
      by destruct (proj1 (validateDependencies_Ok _ _ _) Hval d Hd).
  - intros items. split.
    + intros Hdeps.
      destruct (createAll_succeeds now items (nextId file) file [])
        as (storage' & created' & Hall); [lia|done|done| |].
      { intros n item Hle Hin Hd.
        by apply (counterFresh_unresolved file n Hfresh Hle), (Hdeps item). }
      eexists _, _. apply createTickets_Ok.
      split; [by apply createValidate_succeeds|exact Hall].
    + intros (created & file' & Hrun).
      apply createTickets_Ok in Hrun as [Hval _].
      by apply createValidate_Ok.
Qed.

Lemma docTwo_depsResolve : depsResolve docTwo.
Proof.
  intros k t d Hk Hd. unfold docTwo in Hk. simpl in Hk.
  apply lookup_insert_Some in Hk as [[_ <-]|[_ Hk]];
    [by apply elem_of_nil in Hd|].
  apply lookup_insert_Some in Hk as [[_ <-]|[_ Hk]];
    [by apply elem_of_nil in Hd|by rewrite lookup_empty in Hk].
Qed.

Lemma create_succeeds_iff_witness :
  ∃ created file',
    createTickets "2025-02-02T00:00:00.000Z"
      [mkCreate "a" "d" (Some []) (Some ["TICKET-0001"; "toString"]);
       mkCreate "b" "d" (Some []) None] docTwo
    = (Ok created, file').
Proof.
  apply (proj2 (create_succeeds_iff "2025-02-02T00:00:00.000Z" docTwo
                  docTwo_counterFresh docTwo_depsResolve docTwo_acyclic
                  ltac:(by vm_compute))).
  intros item d Hin Hd.
  apply elem_of_cons in Hin as [->|Hin].
  - apply elem_of_cons in Hd as [->|Hd]; [left; vm_compute; eauto|].
    apply list_elem_of_singleton in Hd as ->. right.
    apply (bool_decide_unpack _). vm_compute. exact I.
  - apply list_elem_of_singleton in Hin as ->. by apply elem_of_nil in Hd.
Defined.

Lemma createAll_result now items :
  ∀ storage created0 storage' created',
    counterFresh storage →
    (nextId storage + N.of_nat (length items) ≤ maxSafe)%N →
    createAll now items storage created0 = Ok (storage', created') →
    ∃ new,
      created' = created0 ++ new
      ∧ length new = length items
      ∧ (∀ j item, items !! j = Some item →
           new !! j
           = Some (mkTicket (Some (ticketIdOf (nextId storage + N.of_nat j)))
                     (Some (c_title item)) (Some (c_description item))
                     (c_projects item) None
                     (Some (default [] (c_blockedBy item)))
                     (Some now) (Some now) (Some "open")))
      ∧ (∀ c, c ∈ new → ∃ i, id c = Some i ∧ tickets storage' !! i = Some c)
      ∧ (∀ k t, tickets storage !! k = Some t → tickets storage' !! k = Some t)
      ∧ size (tickets storage') = size (tickets storage) + length items.
Proof.
  induction items as [|item items IH];
    intros storage created0 storage' created' Hfresh Hn Hrun.
  { injection Hrun as <- <-. exists []. rewrite app_nil_r.
    split_and!;
      [done|done|by intros j item Hj
      |intros c Hc; by apply elem_of_nil in Hc|done|simpl; lia]. }
  simpl in Hrun. fold (ticketIdOf (nextId storage)) in Hrun.
  destruct (checkCircularDependency _ _ _) as [[]|]; [|done].
  simpl in Hrun. simpl in Hn.
  rewrite toDouble_succ in Hrun by lia.
  set (ticket := mkTicket (Some (ticketIdOf (nextId storage)))
                   (Some (c_title item)) (Some (c_description item))
                   (c_projects item) None
                   (Some (default [] (c_blockedBy item)))
                   (Some now) (Some now) (Some "open")) in *.
  assert (tickets storage !! ticketIdOf (nextId storage) = None) as Hnone
    by (apply Hfresh; lia).
  apply IH in Hrun as (new & -> & Hlen & Hidx & Hnew & Hold & Hsize).
  - exists (ticket :: new). simpl in *. split_and!.
    + by rewrite <- app_assoc.
    + by rewrite Hlen.
    + intros [|j] item' Hitem; simpl in *.
      * injection Hitem as <-. by rewrite N.add_0_r.
      * rewrite (Hidx j item' Hitem). do 4 f_equal. lia.
    + intros c Hc. apply elem_of_cons in Hc as [->|Hc]; [|by apply Hnew].
      exists (ticketIdOf (nextId storage)). split; [done|].
      apply Hold. apply lookup_insert_eq.
    + intros k t Hk. apply Hold. rewrite lookup_insert_ne; [done|].
      intros <-. congruence.
    + rewrite Hsize, map_size_insert_None by done. lia.
  - intros n Hle. simpl in *. rewrite lookup_insert_ne.
    + apply Hfresh. lia.
    + intros Heq. apply ticketIdOf_inj in Heq. lia.
  - simpl. lia.
Qed.

(** X7. On a document whose counter is fresh and far enough from
    [2^53] ([nextId] plus the number of items is at most [2^53]), a
    successful [createTickets] returns one ticket per item, in order,
    the [j]-th under the id minted from [nextId + j], open and stamped
    with the time of the call; the ids are pairwise different, every
    returned ticket is stored as returned under its id, the tickets
    that existed are kept unchanged, and the counter advances by the
    number of items. *)
Theorem createTickets_result now items file created file' :
  counterFresh file →
  (nextId file + N.of_nat (length items) ≤ maxSafe)%N →
  createTickets now items file = (Ok created, file') →
  length created = length items
  ∧ (∀ j item, items !! j = Some item →
       created !! j
       = Some (mkTicket (Some (ticketIdOf (nextId file + N.of_nat j)))
                 (Some (c_title item)) (Some (c_description item))
                 (c_projects item) None
                 (Some (default [] (c_blockedBy item)))
                 (Some now) (Some now) (Some "open")))
  ∧ NoDup (id <$> created)
  ∧ (∀ c, c ∈ created → ∃ i, id c = Some i ∧ tickets file' !! i = Some c)
  ∧ (∀ k t, tickets file !! k = Some t → tickets file' !! k = Some t)
  ∧ size (tickets file') = size (tickets file) + length items
  ∧ nextId file' = (nextId file + N.of_nat (length items))%N.
Proof.
  intros Hfresh Hn Hrun. apply createTickets_Ok in Hrun as [_ Hall].
  destruct (createAll_counter _ _ _ _ _ _ Hall) as (_ & _ & Hnext).
  destruct (Hnext Hn) as [Hnext' _].
  destruct (createAll_result _ _ _ _ _ _ Hfresh Hn Hall)
    as (new & -> & Hlen & Hidx & Hnew & Hold & Hsize).
  simpl. split_and!; try done.
  apply NoDup_alt. intros i j x Hi Hj.
  rewrite list_lookup_fmap in Hi, Hj.
  destruct (new !! i) as [ci|] eqn:Hci; [|done].
  destruct (new !! j) as [cj|] eqn:Hcj; [|done].
  simpl in Hi, Hj. injection Hi as <-. injection Hj as Hj.
  destruct (lookup_lt_is_Some_2 items i) as [itemi Hitemi];
    [rewrite <- Hlen; by eapply lookup_lt_Some|].
  destruct (lookup_lt_is_Some_2 items j) as [itemj Hitemj];
    [rewrite <- Hlen; by eapply lookup_lt_Some|].
  rewrite (Hidx i itemi Hitemi) in Hci. rewrite (Hidx j itemj Hitemj) in Hcj.
  injection Hci as <-. injection Hcj as <-. simpl in Hj.
  apply (inj Some), ticketIdOf_inj in Hj. lia.
Qed.

Lemma createTickets_result_witness :
  ∃ created file',
    createTickets "2025-02-02T00:00:00.000Z"
      [mkCreate "a" "d" (Some []) (Some ["TICKET-0001"]);
       mkCreate "b" "d" (Some []) None] docTwo
    = (Ok created, file')
    ∧ length created = 2 ∧ size (tickets file') = 4.
Proof.
  pose (now := "2025-02-02T00:00:00.000Z").
  pose (items := [mkCreate "a" "d" (Some []) (Some ["TICKET-0001"]);
                  mkCreate "b" "d" (Some []) None]).
  assert (∃ created, (createTickets now items docTwo).1 = Ok created)
    as [created Hcreated] by (eexists; vm_compute; reflexivity).
  assert (createTickets now items docTwo
          = (Ok created, (createTickets now items docTwo).2)) as Hrun.
  { rewrite <- Hcreated. by destruct (createTickets now items docTwo). }
  assert (nextId docTwo + N.of_nat (length items) ≤ maxSafe)%N as Hn
    by (by vm_compute).
  destruct (createTickets_result _ _ _ _ _ docTwo_counterFresh Hn Hrun)
    as (Hlen & _ & _ & _ & _ & Hsize & _).
  exists created, (createTickets now items docTwo).2.
  split; [exact Hrun|]. split; [exact Hlen|]. rewrite Hsize. reflexivity.
Defined.

(** ** Acyclicity without multi-record update batches *)

(** X20. The acyclicity invariant holds as long as no update batch has
    more than one record: from an acyclic document, every sequence of
    successful create, batch create, one-record update and delete
    operations commits an acyclic document. *)
Theorem single_update_keeps_acyclic file file' :
  acyclic file → rtc commitOne file file' → acyclic file'.
Proof.
  intros Hacyclic Hsteps. induction Hsteps; [done|].
  eauto using commitOne_acyclic.
Qed.

Lemma single_update_keeps_acyclic_witness :
  acyclic (updateTickets "2025-02-02T00:00:00.000Z"
             [declaredUpdate "TICKET-0001" None None (Some ["TICKET-0002"]) None]
             docTwo).2.
Proof.
  apply (single_update_keeps_acyclic docTwo); [exact docTwo_acyclic|].
  apply rtc_once.
  eapply (one_update _ _ "2025-02-02T00:00:00.000Z"
            (declaredUpdate "TICKET-0001" None None (Some ["TICKET-0002"]) None)).
  vm_compute. reflexivity.
Defined.

(** ** Deleting a ticket *)

(** X21. The three outcomes of [deleteTicket].  An id that does not
    resolve gives the not-found error, nothing written.  When the id
    resolves but some stored ticket has no [blockedBy] array, the call
    ends with a TypeError, nothing written.  Otherwise it returns
    [true] and persists a document that keeps [version] and [nextId],
    no longer has the id as a key, keeps every other key, and in which
    every remaining ticket has its [blockedBy] with all occurrences of
    the id removed and every other field, [updatedAt] included,
    unchanged. *)
Theorem deleteTicket_spec ticketId file :
  (¬ resolves file ticketId →
     deleteTicket ticketId file = (Throw (TicketNotFound ticketId), file))
  ∧ (resolves file ticketId → ¬ allBlockedBy file →
       deleteTicket ticketId file = (Throw TypeError, file))
  ∧ (resolves file ticketId → allBlockedBy file →
       ∃ file',
         deleteTicket ticketId file = (Ok true, file')
         ∧ version file' = version file ∧ nextId file' = nextId file
         ∧ tickets file' !! ticketId = None
         ∧ (∀ k, k ≠ ticketId → tickets file !! k = None →
                 tickets file' !! k = None)
         ∧ ∀ k t, k ≠ ticketId → tickets file !! k = Some t →
             ∃ t' deps, tickets file' !! k = Some t'
               ∧ blockedBy t = Some deps
               ∧ blockedBy t' = Some (filter (λ dep, dep ≠ ticketId) deps)
               ∧ id t' = id t ∧ title t' = title t
               ∧ description t' = description t ∧ projects t' = projects t
               ∧ projectId t' = projectId t ∧ createdAt t' = createdAt t
               ∧ updatedAt t' = updatedAt t ∧ status t' = status t).
Proof.
  destruct (deleteTicket_cases ticketId file)
    as [[Hno ->]|[(Hres & Hno & ->)|(Hres & Hall & ->)]].
  - split_and!; done.
  - split_and!; done.
  - split_and!; [done|done|]. intros _ _. eexists. split; [done|].
    cbn [version nextId tickets]. split_and!; [done|done| | |].
    + apply lookup_delete_eq.
    + intros k Hne Hk. by rewrite stripDependency_lookup, decide_False, Hk.
    + intros k t Hne Hk. destruct (Hall k t Hk) as [deps Hdeps].
      exists (stripDependency ticketId t), deps. split_and!; try done.
      * by rewrite stripDependency_lookup, decide_False, Hk.
      * simpl. by rewrite Hdeps.
Qed.

Lemma docChain_allBlockedBy : allBlockedBy docChain.
Proof.
  intros k t Hk. unfold docChain in Hk. simpl in Hk.
  apply lookup_insert_Some in Hk as [[_ <-]|[_ Hk]]; [by eexists|].
  apply lookup_insert_Some in Hk as [[_ <-]|[_ Hk]]; [by eexists|].
  by rewrite lookup_empty in Hk.
Qed.

Lemma deleteTicket_spec_witness :
  ∃ file' t',
    deleteTicket "TICKET-0001" docChain = (Ok true, file')
    ∧ tickets file' !! "TICKET-0001" = None
    ∧ tickets file' !! "TICKET-0002" = Some t'
    ∧ blockedBy t' = Some [].
Proof.
  destruct (proj2 (proj2 (deleteTicket_spec "TICKET-0001" docChain)))
    as (file' & Hrun & _ & _ & Hgone & _ & Hkept).
  - left. vm_compute. eauto.
  - exact docChain_allBlockedBy.
  - destruct (Hkept "TICKET-0002"
                (sampleTicket "TICKET-0002" ["TICKET-0001"] "open"))
      as (t' & deps & Hk & Hdeps & Hstripped & _);
      [discriminate|vm_compute; reflexivity|].
    exists file', t'. split_and!; [done|done|done|].
    rewrite Hstripped. injection Hdeps as <-. reflexivity.
Defined.

(** ** Reading back what was written *)

Lemma filter_none {A} (P : A → Prop) `{∀ x, Decision (P x)} (l : list A) :
  (∀ x, x ∈ l → ¬ P x) → filter P l = [].
Proof.
  induction l as [|x l IH]; intros Hall; [done|].
  rewrite filter_cons, decide_False by (apply Hall, list_elem_of_here).
  apply IH. intros y Hy. apply Hall. by apply list_elem_of_further.
Qed.

Lemma updatesFor_prefix k i u (updates : list TicketUpdateData) :
  updates !! i = Some u →
  (∀ j u', i < j → updates !! j = Some u' → u_ticketId u' ≠ k) →
  updatesFor k updates = updatesFor k (take (S i) updates).
Proof.
  intros Hi Hlater. rewrite <- (take_drop (S i) updates) at 1.
  unfold updatesFor. rewrite filter_app, (filter_none _ (drop (S i) updates)).
  - by rewrite app_nil_r.
  - intros u' Hu' Hk. apply list_elem_of_lookup in Hu' as [j Hj].
    rewrite lookup_drop in Hj. eapply (Hlater (S i + j)); [lia|done|done].
Qed.

Lemma readTicket_cases ticketId file :
  (∃ t, tickets file !! ticketId = Some t
        ∧ readTicket ticketId file = (Ok (TicketValue t), file))
  ∨ (tickets file !! ticketId = None ∧ ticketId ∈ prototypeMembers
     ∧ readTicket ticketId file = (Ok (PrototypeMember ticketId), file))
  ∨ (¬ resolves file ticketId
     ∧ readTicket ticketId file = (Throw (TicketNotFound ticketId), file)).
Proof.
  unfold readTicket, bind, readData, lift, ret, getTicket, resolves.
  destruct (tickets file !! ticketId) as [t|]; [left; eauto|right].
  destruct (decide (ticketId ∈ prototypeMembers)) as [Hm|Hm]; [by left|right].
  split; [|done]. by intros [[? ?]|?].
Qed.

(** X8. What [readTicket] returns.  It never writes.  For a key of
    [tickets] it returns the stored ticket; for a name that is no key
    but a member of [Object.prototype] it returns that member instead
    of failing; only for an id that resolves to neither it throws the
    not-found error.  After a write: the ticket [createTicket] returned
    is read back under its id; the ticket an update record returned is
    read back under the record's [ticketId], unless a later record of
    the batch addresses the same ticket or the id is ["__proto__"] and
    no key; after a successful [deleteTicket] the id is not found,
    unless it names a prototype member, which is then returned. *)
Theorem read_after_write :
  (∀ ticketId file, (readTicket ticketId file).2 = file)
  ∧ (∀ ticketId file t,
       tickets file !! ticketId = Some t →
       readTicket ticketId file = (Ok (TicketValue t), file))
  ∧ (∀ ticketId file,
       tickets file !! ticketId = None → ticketId ∈ prototypeMembers →
       readTicket ticketId file = (Ok (PrototypeMember ticketId), file))
  ∧ (∀ ticketId file,
       tickets file !! ticketId = None → ticketId ∉ prototypeMembers →
       readTicket ticketId file = (Throw (TicketNotFound ticketId), file))
  ∧ (∀ now title description projects deps file ticket file',
       createTicket now title description projects deps file = (Ok ticket, file') →
       ∃ i, id ticket = Some i
            ∧ readTicket i file' = (Ok (TicketValue ticket), file'))
  ∧ (∀ now updates file result file' i u r,
       updateTickets now updates file = (Ok result, file') →
       updates !! i = Some u → result !! i = Some r →
       (∀ j u', i < j → updates !! j = Some u' →
                u_ticketId u' ≠ u_ticketId u) →
       ¬ protoKey file (u_ticketId u) →
       readTicket (u_ticketId u) file' = (Ok (TicketValue r), file'))
  ∧ (∀ ticketId file file',
       deleteTicket ticketId file = (Ok true, file') →
       tickets file' !! ticketId = None
       ∧ (ticketId ∉ prototypeMembers →
            readTicket ticketId file'
            = (Throw (TicketNotFound ticketId), file'))
       ∧ (ticketId ∈ prototypeMembers →
            readTicket ticketId file'
            = (Ok (PrototypeMember ticketId), file'))).
Proof.
  assert (∀ ticketId file t,
            tickets file !! ticketId = Some t →
            readTicket ticketId file = (Ok (TicketValue t), file)) as Hown.
  { intros ticketId file t Ht.
    destruct (readTicket_cases ticketId file)
      as [(t' & Ht' & ->)|[(Hnone & _)|(Hno & _)]]; [congruence|congruence|].
    destruct Hno. left. eauto. }
  assert (∀ ticketId file,
            tickets file !! ticketId = None → ticketId ∈ prototypeMembers →
            readTicket ticketId file = (Ok (PrototypeMember ticketId), file))
    as Hmember.
  { intros ticketId file Hnone Hm.
    destruct (readTicket_cases ticketId file)
      as [(t' & Ht' & _)|[(_ & _ & ->)|(Hno & _)]]; [congruence|done|].
    destruct Hno. by right. }
  assert (∀ ticketId file,
            tickets file !! ticketId = None → ticketId ∉ prototypeMembers →
            readTicket ticketId file = (Throw (TicketNotFound ticketId), file))
    as Habsent.
  { intros ticketId file Hnone Hm.
    destruct (readTicket_cases ticketId file)
      as [(t' & Ht' & _)|[(_ & ? & _)|(_ & ->)]]; [congruence|done|done]. }
  split_and!; [|exact Hown|exact Hmember|exact Habsent| | |].
  - intros ticketId file.
    by destruct (readTicket_cases ticketId file)
      as [(t' & _ & ->)|[(_ & _ & ->)|(_ & ->)]].
  - intros now title description projects deps file ticket file' Hrun.
    apply createTicket_Ok in Hrun as (_ & _ & -> & ->).
    eexists. split; [reflexivity|]. apply Hown. simpl. apply lookup_insert_eq.
  - intros now updates file result file' i u r Hrun Hu Hr Hlater Hproto.
    destruct (updateTickets_lookup _ _ _ _ _ Hrun) as (Hold & Hnew & _).
    apply updateTickets_Ok in Hrun as (_ & _ & _ & ->).
    destruct (updateApply_result now updates file None) as (_ & Hres).
    apply Hown. rewrite (Hres i u r Hu Hr).
    rewrite <- (updatesFor_prefix _ i u updates Hu Hlater).
    unfold baseTicket.
    destruct (tickets file !! u_ticketId u) as [t|] eqn:Ht; [by apply Hold|].
    rewrite (Hnew _ Ht).
    destruct (decide (u_ticketId u = "__proto__")) as [Hk|Hk];
      [by destruct Hproto|].
    destruct (updatesFor (u_ticketId u) updates) as [|u0 recs] eqn:Hrecs;
      [|done].
    assert (u ∈ updatesFor (u_ticketId u) updates) as Hin.
    { apply list_elem_of_filter. split; [done|].
      by eapply list_elem_of_lookup_2. }
    rewrite Hrecs in Hin. by apply elem_of_nil in Hin.
  - intros ticketId file file' Hrun.
    apply deleteTicket_Ok in Hrun as (_ & _ & _ & ->).
    assert (tickets (mkStorage (version file)
                       (delete ticketId (stripDependency ticketId <$> tickets file))
                       (nextId file)) !! ticketId = None) as Hgone
      by apply lookup_delete_eq.
    split_and!; [done| |].
    + intros Hm. by apply Habsent.
    + intros Hm. by apply Hmember.
Qed.

Lemma read_after_write_witness :
  readTicket "TICKET-0001" (deleteTicket "TICKET-0001" docChain).2
  = (Throw (TicketNotFound "TICKET-0001"),
     (deleteTicket "TICKET-0001" docChain).2).
Proof.
  destruct read_after_write as (_ & _ & _ & _ & _ & _ & Hdelete).
  destruct (Hdelete "TICKET-0001" docChain (deleteTicket "TICKET-0001" docChain).2)
    as (_ & Habsent & _).
  - vm_compute. reflexivity.
  - apply Habsent. apply (bool_decide_unpack _). vm_compute. exact I.
Defined.

(** ** Listing tickets *)

Lemma truthy_given arg v : truthy arg = Some v ↔ given arg v.
Proof.
  unfold truthy, given. destruct arg as [w|]; [|naive_solver].
  destruct (decide (w = "")); naive_solver.
Qed.

Lemma truthy_None arg : truthy arg = None ↔ ∀ v, ¬ given arg v.
Proof.
  split.
  - intros Hnone v Hv. apply truthy_given in Hv. congruence.
  - intros Hno. destruct (truthy arg) as [v|] eqn:Hv; [|done].
    apply truthy_given in Hv. by destruct (Hno v).
Qed.

(** Sortedness for a comparator that is consistent on the elements of
    the list carries over to the order it stands for. *)
Lemma Sorted_on {A} (R R' : relation A) (P : A → Prop) (l : list A) :
  (∀ a b, P a → P b → R a b → R' a b) →
  Forall P l → Sorted R l → Sorted R' l.
Proof.
  intros Hsub Hall Hsorted. induction Hsorted as [|a l Hl IH Hhd]; [constructor|].
  apply Forall_cons in Hall as [Ha Hall]. constructor; [by apply IH|].
  destruct Hhd as [|b l' Hab]; constructor.
  apply Forall_cons in Hall as [Hb _]. by apply Hsub.
Qed.

Section ListingProps.
Variable getTime : string → option Z.
Variable toLowerCase : string → string.

#[local] Existing Instance newestFirst_dec.

#[local] Instance newestFirst_total : Total (newestFirst getTime).
Proof.
  intros a b. unfold newestFirst, compareCreated.
  destruct (createdTime getTime a), (createdTime getTime b); simpl; try tauto.
  lia.
Qed.

#[local] Instance notOlder_trans : Transitive (notOlder getTime).
Proof.
  intros a b c (sa & sb & ta & tb & -> & -> & Hta & Htb & Hab)
               (sb' & sc & tb' & tc & [= <-] & -> & Htb' & Htc & Hbc).
  exists sa, sc, ta, tc. split_and!; try done.
  rewrite Htb in Htb'. injection Htb' as <-. lia.
Qed.

Lemma newestFirst_notOlder a b :
  dated getTime (createdAt a) → dated getTime (createdAt b) →
  newestFirst getTime a b → notOlder getTime (createdAt a) (createdAt b).
Proof.
  intros (sa & ta & Ha & Hta) (sb & tb & Hb & Htb).
  unfold newestFirst, compareCreated, createdTime.
  rewrite Ha, Hb, Hta, Htb. intros Hle.
  exists sa, sb, ta, tb. split_and!; try done. lia.
Qed.

(** The sort puts newest first whenever every creation date parses. *)
Lemma merge_sort_notOlder (l : list Ticket) :
  (∀ t, t ∈ l → dated getTime (createdAt t)) →
  StronglySorted (λ a b, notOlder getTime (createdAt a) (createdAt b))
                 (merge_sort (newestFirst getTime) l).
Proof.
  intros Hdated. apply Sorted_StronglySorted.
  { intros a b c. apply notOlder_trans. }
  apply (Sorted_on (newestFirst getTime) _
           (λ t, dated getTime (createdAt t))).
  - intros a b. apply newestFirst_notOlder.
  - apply Forall_forall. intros t Ht. apply Hdated.
    by rewrite merge_sort_Permutation in Ht.
  - apply Sorted_merge_sort, _.
Qed.

Lemma inProject_belongsTo p t :
  inProject toLowerCase p t = true ↔ belongsTo toLowerCase p t.
Proof.
  unfold inProject, belongsTo. destruct (projects t) as [ps|].
  - rewrite existsb_exists. split.
    + intros (x & Hx & Heq). left. exists ps, x.
      apply bool_decide_eq_true in Heq. apply list_elem_of_In in Hx. done.
    + intros [(ps' & x & [= <-] & Hx & Heq)|[? _]]; [|done].
      exists x. split; [by apply list_elem_of_In|].
      by apply bool_decide_eq_true.
  - split.
    + intros Hp. right. split; [done|].
      destruct (truthy (projectId t)) as [pid|] eqn:Hpid; [|done].
      apply truthy_given in Hpid as [Hpid Hne]. exists pid.
      apply bool_decide_eq_true in Hp. done.
    + intros [(ps' & x & ? & _)|(_ & pid & Hpid & Hne & Heq)]; [done|].
      rewrite (proj2 (truthy_given (projectId t) pid)) by done.
      by apply bool_decide_eq_true.
Qed.

Lemma dependsOnTicket_true d t :
  dependsOnTicket d t = Ok true ↔ ∃ deps, blockedBy t = Some deps ∧ d ∈ deps.
Proof.
  unfold dependsOnTicket. destruct (blockedBy t) as [deps|].
  - split.
    + intros [= Hd]. exists deps. apply bool_decide_eq_true in Hd. done.
    + intros (deps' & [= <-] & Hd). f_equal. by apply bool_decide_eq_true.
  - split; [done|]. by intros (? & ? & _).
Qed.

(** The tickets that reach the [dependsOn] filter. *)
Lemma listSelection_cases project statusFilter dependsOn storage :
  ∃ tickets2,
    (∀ t, t ∈ tickets2 ↔
       (∃ k, tickets storage !! k = Some t)
       ∧ (∀ p, given project p → belongsTo toLowerCase p t)
       ∧ (∀ s, given statusFilter s → status t = Some s))
    ∧ ((∀ p, ¬ given project p) → (∀ s, ¬ given statusFilter s) →
         tickets2 = ticketValues storage)
    ∧ ((∀ d, ¬ given dependsOn d) →
         listSelection getTime toLowerCase project statusFilter dependsOn storage
         = Ok (merge_sort (newestFirst getTime) tickets2))
    ∧ (∀ d, given dependsOn d →
         listSelection getTime toLowerCase project statusFilter dependsOn storage
         = match tryFilter (dependsOnTicket d) tickets2 with
           | Ok tickets3 => Ok (merge_sort (newestFirst getTime) tickets3)
           | Throw e => Throw e
           end).
Proof.
  unfold listSelection.
  set (tickets1 := match truthy project with
                   | Some p => filter (λ t, inProject toLowerCase p t = true)
                                      (ticketValues storage)
                   | None => ticketValues storage
                   end).
  set (tickets2 := match truthy statusFilter with
                   | Some s => filter (λ t, status t = Some s) tickets1
                   | None => tickets1
                   end).
  exists tickets2. split_and!.
  - intros t. subst tickets2 tickets1. rewrite <- elem_of_ticketValues.
    destruct (truthy project) as [p|] eqn:Hp,
             (truthy statusFilter) as [s|] eqn:Hs;
      rewrite ?list_elem_of_filter, ?inProject_belongsTo.
    + pose proof (proj1 (truthy_given _ _) Hp) as Hp'; clear Hp; rename Hp' into Hp. pose proof (proj1 (truthy_given _ _) Hs) as Hs'; clear Hs; rename Hs' into Hs.
      split.
      * intros (Hst & Hpr & Hin). split_and!; [done| |].
        -- intros p' [Hp' _]. destruct Hp as [Hp _]. congruence.
        -- intros s' [Hs' _]. destruct Hs as [Hs _]. congruence.
      * intros (Hin & Hpr & Hst). split_and!; [by apply Hst|by apply Hpr|done].
    + pose proof (proj1 (truthy_given _ _) Hp) as Hp'; clear Hp; rename Hp' into Hp. pose proof (proj1 (truthy_None _) Hs) as Hs'; clear Hs; rename Hs' into Hs.
      split.
      * intros (Hpr & Hin). split_and!; [done| |].
        -- intros p' [Hp' _]. destruct Hp as [Hp _]. congruence.
        -- intros s' Hs'. by destruct (Hs s').
      * intros (Hin & Hpr & Hst). split; [by apply Hpr|done].
    + pose proof (proj1 (truthy_None _) Hp) as Hp'; clear Hp; rename Hp' into Hp. pose proof (proj1 (truthy_given _ _) Hs) as Hs'; clear Hs; rename Hs' into Hs.
      split.
      * intros (Hst & Hin). split_and!; [done| |].
        -- intros p' Hp'. by destruct (Hp p').
        -- intros s' [Hs' _]. destruct Hs as [Hs _]. congruence.
      * intros (Hin & Hpr & Hst). split; [by apply Hst|done].
    + pose proof (proj1 (truthy_None _) Hp) as Hp'; clear Hp; rename Hp' into Hp. pose proof (proj1 (truthy_None _) Hs) as Hs'; clear Hs; rename Hs' into Hs.
      split.
      * intros Hin. split_and!; [done| |].
        -- intros p' Hp'. by destruct (Hp p').
        -- intros s' Hs'. by destruct (Hs s').
      * by intros (Hin & _).
  - intros Hnp Hns. apply truthy_None in Hnp, Hns. subst tickets2 tickets1.
    by rewrite Hnp, Hns.
  - intros Hno. apply truthy_None in Hno. by rewrite Hno.
  - intros d Hd. apply truthy_given in Hd. rewrite Hd.
    by destruct (tryFilter (dependsOnTicket d) tickets2).
Qed.
End ListingProps.

(** X11. [listTickets] never writes.  It returns whenever [dependsOn]
    is absent or empty or every stored ticket has a [blockedBy] array,
    and can otherwise only end with the TypeError of reading
    [blockedBy] on a ticket that has none.  A ticket is in the result
    exactly when it is stored and passes each filter whose argument is
    given and not empty: membership in the project (by [projects],
    else by a non-empty legacy [projectId], compared in lower case),
    equal status, [dependsOn] among its [blockedBy].  Without filters
    the result is a rearrangement of all stored tickets.  When every
    creation date in the result parses, the result is ordered newest
    first. *)
Theorem listTickets_spec getTime toLowerCase project statusFilter dependsOn file :
  let out := listTickets getTime toLowerCase project statusFilter dependsOn file in
  out.2 = file
  ∧ ((∀ d, ¬ given dependsOn d) ∨ allBlockedBy file → ∃ result, out.1 = Ok result)
  ∧ (∀ e, out.1 = Throw e →
       e = TypeError ∧ (∃ d, given dependsOn d)
       ∧ ∃ k t, tickets file !! k = Some t ∧ blockedBy t = None
           ∧ (∀ p, given project p → belongsTo toLowerCase p t)
           ∧ (∀ s, given statusFilter s → status t = Some s))
  ∧ ∀ result, out.1 = Ok result →
      (∀ t, t ∈ result
            ↔ listed toLowerCase project statusFilter dependsOn file t)
      ∧ ((∀ p, ¬ given project p) → (∀ s, ¬ given statusFilter s) →
         (∀ d, ¬ given dependsOn d) → result ≡ₚ ticketValues file)
      ∧ ((∀ t, t ∈ result → dated getTime (createdAt t)) →
         StronglySorted (λ a b, notOlder getTime (createdAt a) (createdAt b))
                        result).
Proof.
  intros out. subst out. unfold listTickets, bind, readData, lift. simpl.
  destruct (listSelection_cases getTime toLowerCase project statusFilter
              dependsOn file) as (tickets2 & Hmem & Hall2 & Hplain & Hdep).
  assert (listSelection getTime toLowerCase project statusFilter dependsOn file
          = listSelection getTime toLowerCase project statusFilter dependsOn file)
    as Hsel by done.
  destruct (truthy dependsOn) as [d|] eqn:Hd.
  - apply truthy_given in Hd. rewrite (Hdep d Hd).
    destruct (tryFilter (dependsOnTicket d) tickets2) as [tickets3|e] eqn:Hf.
    + apply tryFilter_Ok in Hf as [Hall ->]. split_and!; [done|eauto|done|].
      intros result [= <-]. split_and!.
      * intros t. rewrite merge_sort_Permutation, list_elem_of_filter.
        rewrite dependsOnTicket_true, Hmem. unfold listed, blockers. split.
        -- intros ((deps & Hdeps & Hin) & Hst & Hpr & Hs).
           split_and!; [done|done|done|].
           intros d' [Hd' _]. destruct Hd as [Hd _].
           rewrite Hd in Hd'. injection Hd' as <-. by rewrite Hdeps.
        -- intros (Hst & Hpr & Hs & Hdeps). split; [|done].
           specialize (Hdeps d Hd).
           destruct (blockedBy t) as [deps|]; [eauto|].
           by apply elem_of_nil in Hdeps.
      * intros _ _ Hno. by destruct (Hno d).
      * intros Hdated. apply merge_sort_notOlder. intros t Ht. apply Hdated.
        by rewrite merge_sort_Permutation.
    + apply tryFilter_Throw in Hf as (t & Ht & Hthrow).
      unfold dependsOnTicket in Hthrow.
      destruct (blockedBy t) as [deps|] eqn:Hdeps; [done|].
      injection Hthrow as <-. apply Hmem in Ht as ((k & Hk) & Hpr & Hs).
      split_and!; [done| |by intros e [= <-]; eauto 10|done].
      intros [Hno|Hall]; [by destruct (Hno d)|].
      destruct (Hall k t Hk) as [? ?]. congruence.
  - pose proof (proj1 (truthy_None _) Hd) as Hd'. clear Hd. rename Hd' into Hd.
    rewrite (Hplain Hd).
    split_and!; [done|eauto|done|].
    intros result [= <-]. split_and!.
    + intros t. rewrite merge_sort_Permutation, Hmem. unfold listed. split.
      * intros (Hst & Hpr & Hs). split_and!; [done|done|done|].
        intros d' Hd'. by destruct (Hd d').
      * by intros (Hst & Hpr & Hs & _).
    + intros Hnp Hns _. by rewrite merge_sort_Permutation, Hall2.
    + intros Hdated. apply merge_sort_notOlder. intros t Ht. apply Hdated.
      by rewrite merge_sort_Permutation.
Qed.

Lemma listTickets_spec_witness :
  ∃ result,
    (listTickets (λ _, Some 0%Z) (λ s, s) (Some "demo") (Some "open") None
                 docTwo).1 = Ok result
    ∧ sampleTicket "TICKET-0001" [] "open" ∈ result.
Proof.
  destruct (listTickets_spec (λ _, Some 0%Z) (λ s, s) (Some "demo")
              (Some "open") None docTwo) as (_ & Hreturns & _ & Hspec).
  destruct Hreturns as [result Hrun]; [left; by intros d [? _]|].
  exists result. split; [exact Hrun|].
  apply (proj1 (Hspec result Hrun)). split_and!.
  - exists "TICKET-0001". vm_compute. reflexivity.
  - intros p [[= <-] _]. left. exists ["demo"], "demo".
    split_and!; [reflexivity|apply list_elem_of_here|reflexivity].
  - intros s [[= <-] _]. reflexivity.
  - intros d [Hd _]. discriminate.
Defined.

(** ** Next tickets, in full *)

Section NextFull.
Variable getTime : string → option Z.
Variable toLowerCase : string → string.

#[local] Existing Instance newestFirst_dec.

Lemma isUnblocked_ready storage t :
  isUnblocked storage t = Ok true ↔ ready storage t.
Proof.
  rewrite isUnblocked_true. unfold ready. split.
  - intros (Hopen & deps & Hdeps & Hor). split; [done|].
    exists deps. split; [done|]. destruct Hor as [->|Hall]; [|done].
    intros d Hd. by apply elem_of_nil in Hd.
  - intros (Hopen & deps & Hdeps & Hall). split; [done|].
    exists deps. split; [done|by right].
Qed.

(** Membership in the selection, in the terms of the properties. *)
Lemma nextSelection_ready project storage selection t :
  nextSelection getTime toLowerCase project storage = Ok selection →
  t ∈ selection ↔
    (∃ k, tickets storage !! k = Some t)
    ∧ ready storage t
    ∧ (∀ p, given project p → belongsTo toLowerCase p t).
Proof.
  intros Hsel. rewrite (elem_of_nextSelection _ _ _ _ _ _ Hsel).
  rewrite isUnblocked_ready. split.
  - intros (Hk & Hready & Hp). split_and!; [done|done|].
    intros p Hgiven. apply inProject_belongsTo, Hp. by apply truthy_given.
  - intros (Hk & Hready & Hp). split_and!; [done|done|].
    intros p Hgiven. apply inProject_belongsTo, Hp. by apply truthy_given.
Qed.

Lemma nextSelection_sorted project storage selection :
  nextSelection getTime toLowerCase project storage = Ok selection →
  (∀ t, t ∈ selection → dated getTime (createdAt t)) →
  StronglySorted (λ a b, notOlder getTime (createdAt a) (createdAt b)) selection.
Proof.
  unfold nextSelection.
  destruct (tryFilter _ _) as [tickets1|]; [|done]. simpl.
  intros [= <-] Hdated. apply merge_sort_notOlder.
  intros t Ht. apply Hdated. by rewrite merge_sort_Permutation.
Qed.

Lemma StronglySorted_Forall2 {A B} (R : relation A) (R' : relation B)
    (P : A → B → Prop) l k :
  (∀ a b a' b', P a a' → P b b' → R a b → R' a' b') →
  Forall2 P l k → StronglySorted R l → StronglySorted R' k.
Proof.
  intros Hsub Hlk. induction Hlk as [|a a' l k Ha Hlk IH]; [constructor|].
  intros Hsorted. apply StronglySorted_inv in Hsorted as [Hl Hhd].
  constructor; [by apply IH|].
  apply Forall_forall. intros b' Hb'.
  destruct (Forall2_elem_r _ _ _ _ Hlk Hb') as (b & Hb & Hbb').
  rewrite Forall_forall in Hhd. eauto.
Qed.
End NextFull.

(** X12. A successful [nextTickets] returns every ready ticket and only
    those: each stored ticket that is not closed, whose [blockedBy] ids
    are all keys of closed tickets, and that belongs to the project
    when one is given, appears in the result, and every entry of the
    result is such a ticket without its [blockedBy], carrying the tree
    [buildResearchTree] computes for its id.  The result has as many
    entries as tickets were selected, and when every creation date in
    it parses it is ordered newest first. *)
Theorem nextTickets_complete getTime toLowerCase project file result file' :
  nextTickets getTime toLowerCase project file = (Ok result, file') →
  (∀ k t,
     tickets file !! k = Some t → ready file t →
     (∀ p, given project p → belongsTo toLowerCase p t) →
     ∃ nt, nt ∈ result ∧ nt = toNextTicket t (researchTree nt))
  ∧ (∀ nt, nt ∈ result →
       ∃ k t, tickets file !! k = Some t ∧ ready file t
         ∧ (∀ p, given project p → belongsTo toLowerCase p t)
         ∧ nt = toNextTicket t (researchTree nt)
         ∧ buildResearchTree (treeFuel file) (id t) file ∅
           = Ok (researchTree nt))
  ∧ ((∀ nt, nt ∈ result → dated getTime (nt_createdAt nt)) →
     StronglySorted (λ a b, notOlder getTime (nt_createdAt a) (nt_createdAt b))
                    result).
Proof.
  intros Hrun.
  destruct (nextTickets_run getTime toLowerCase project file)
    as [(selection & result' & Hsel & Hok & Hall)|[_ Hthrow]]; [|congruence].
  rewrite Hok in Hrun. injection Hrun as <- <-.
  pose proof (λ t, nextSelection_ready getTime toLowerCase _ _ _ t Hsel) as Hmem.
  split_and!.
  - intros k t Hk Hready Hproject.
    assert (t ∈ selection) as Ht by (apply Hmem; eauto).
    destruct (Forall2_elem_l _ _ _ _ Hall Ht) as (nt & Hnt & _ & Heq). eauto.
  - intros nt Hnt.
    destruct (Forall2_elem_r _ _ _ _ Hall Hnt) as (t & Ht & Htree & Heq).
    apply Hmem in Ht as ((k & Hk) & Hready & Hproject).
    exists k, t. done.
  - intros Hdated.
    eapply (StronglySorted_Forall2
              (λ a b, notOlder getTime (createdAt a) (createdAt b)));
      [|exact Hall|].
    { intros a b a' b' [_ ->] [_ ->] Hab. exact Hab. }
    apply (nextSelection_sorted _ _ _ _ _ Hsel).
    intros t Ht. destruct (Forall2_elem_l _ _ _ _ Hall Ht) as (nt & Hnt & _ & Heq).
    specialize (Hdated nt Hnt). by rewrite Heq in Hdated.
Qed.

Lemma nextTickets_complete_witness :
  ∃ result nt,
    nextTickets (λ _, Some 0%Z) (λ s, s) None docChain = (Ok result, docChain)
    ∧ nt ∈ result ∧ nt_id nt = Some "TICKET-0001".
Proof.
  destruct (nextTickets_total (λ _, Some 0%Z) (λ s, s) None docChain
              docChain_allBlockedBy) as [result Hrun].
  destruct (nextTickets_complete _ _ _ _ _ _ Hrun) as (Hall & _).
  destruct (Hall "TICKET-0001" (sampleTicket "TICKET-0001" [] "open"))
    as (nt & Hnt & Heq).
  - vm_compute. reflexivity.
  - split; [discriminate|]. exists []. split; [reflexivity|].
    intros d Hd. exfalso. exact (proj1 (elem_of_nil d) Hd).
  - intros p [Hp _]. discriminate.
  - exists result, nt. split; [exact Hrun|]. split; [exact Hnt|].
    rewrite Heq. reflexivity.
Defined.

(** ** Resolving a blocker *)

Lemma nextTickets_returns getTime toLowerCase file k t :
  allBlockedBy file → tickets file !! k = Some t → ready file t →
  ∃ result nt,
    nextTickets getTime toLowerCase None file = (Ok result, file)
    ∧ nt ∈ result ∧ nt = toNextTicket t (researchTree nt).
Proof.
  intros Hall Hk Hready.
  destruct (nextTickets_run getTime toLowerCase None file)
    as [(selection & result & Hsel & Hok & Hmap)|[Hno _]]; [|done].
  assert (t ∈ selection) as Ht.
  { apply (nextSelection_ready getTime toLowerCase _ _ _ t Hsel).
    split_and!; [eauto|done|]. by intros p [? _]. }
  destruct (Forall2_elem_l _ _ _ _ Hmap Ht) as (nt & Hnt & _ & Heq). eauto.
Qed.

(** X18. Closing or deleting a blocker makes its dependents ready.  In
    a document in which every ticket has a [blockedBy] array, take a
    stored ticket other than the blocker, not closed, whose other
    [blockedBy] ids are all keys of closed tickets.  After a successful
    [deleteTicket] of the blocker it is returned by [nextTickets], with
    the blocker stripped from its [blockedBy]; and when the blocker is
    a key of [tickets], after a successful one-record update that sets
    the blocker's status to closed. *)
Theorem blocker_resolved getTime toLowerCase blocker file k t deps :
  allBlockedBy file →
  tickets file !! k = Some t → k ≠ blocker → status t ≠ Some "closed" →
  blockedBy t = Some deps →
  (∀ d, d ∈ deps →
        d = blocker
        ∨ ∃ dt, tickets file !! d = Some dt ∧ status dt = Some "closed") →
  (∀ file',
     deleteTicket blocker file = (Ok true, file') →
     ∃ result nt,
       nextTickets getTime toLowerCase None file' = (Ok result, file')
       ∧ nt ∈ result
       ∧ nt = toNextTicket (stripDependency blocker t) (researchTree nt))
  ∧ (∀ now updated file',
       is_Some (tickets file !! blocker) →
       updateTickets now [declaredUpdate blocker None None None (Some "closed")]
                     file
       = (Ok updated, file') →
       ∃ result nt,
         nextTickets getTime toLowerCase None file' = (Ok result, file')
         ∧ nt ∈ result
         ∧ nt = toNextTicket t (researchTree nt)).
Proof.
  intros Hall Hk Hne Hopen Hdeps Hclosed. split.
  - intros file' Hrun. apply deleteTicket_Ok in Hrun as (_ & _ & _ & ->).
    apply (nextTickets_returns _ _ _ k).
    + intros k' t'. cbn [tickets]. rewrite stripDependency_lookup.
      case_decide; [done|]. intros Hk'.
      apply fmap_Some in Hk' as (t0 & Ht0 & ->).
      destruct (Hall k' t0 Ht0) as [deps0 Hdeps0]. simpl. rewrite Hdeps0.
      by eexists.
    + cbn [tickets]. by rewrite stripDependency_lookup, decide_False, Hk.
    + split; [done|]. exists (filter (λ dep, dep ≠ blocker) deps).
      split; [simpl; by rewrite Hdeps|].
      intros d Hd. apply list_elem_of_filter in Hd as [Hdne Hd].
      destruct (Hclosed d Hd) as [->|(dt & Hdt & Hst)]; [done|].
      exists (stripDependency blocker dt). cbn [tickets].
      by rewrite stripDependency_lookup, decide_False, Hdt.
  - intros now updated file' [tb Htb] Hrun.
    destruct (updateTickets_lookup _ _ _ _ _ Hrun) as (Hold & _ & Hnew).
    assert (updatesFor blocker
              [declaredUpdate blocker None None None (Some "closed")]
            = [declaredUpdate blocker None None None (Some "closed")]) as Hfor.
    { unfold updatesFor. rewrite filter_cons, decide_True by done. done. }
    assert (∀ k', k' ≠ blocker →
              updatesFor k'
                [declaredUpdate blocker None None None (Some "closed")] = [])
      as Hother.
    { intros k' Hk'. unfold updatesFor.
      rewrite filter_cons, decide_False; [done|]. simpl. congruence. }
    assert (∀ k' t', tickets file' !! k' = Some t' →
              ∃ t0, tickets file !! k' = Some t0
                    ∧ blockedBy t' = blockedBy t0
                    ∧ (k' ≠ blocker → t' = t0)
                    ∧ (k' = blocker → status t' = Some "closed")) as Hshape.
    { intros k' t' Hk'.
      destruct (tickets file !! k') as [t0|] eqn:Ht0.
      - exists t0. rewrite (Hold k' t0 Ht0) in Hk'. injection Hk' as <-.
        destruct (decide (k' = blocker)) as [->|Hkb].
        + rewrite Hfor. simpl. split_and!; [done|done|done|done].
        + rewrite (Hother k' Hkb). simpl. split_and!; [done|done|done|done].
      - destruct (Hnew k' Ht0) as (_ & _ & u & Hu & Hid); [eauto|].
        apply list_elem_of_singleton in Hu as ->. simpl in Hid. subst k'.
        congruence. }
    apply (nextTickets_returns _ _ _ k).
    + intros k' t' Hk'. destruct (Hshape k' t' Hk') as (t0 & Ht0 & -> & _).
      by eapply Hall.
    + rewrite (Hold k t Hk), (Hother k Hne). done.
    + split; [done|]. exists deps. split; [done|].
      intros d Hd. destruct (Hclosed d Hd) as [->|(dt & Hdt & Hst)].
      * rewrite (Hold blocker tb Htb), Hfor. eexists. split; [done|]. done.
      * destruct (decide (d = blocker)) as [->|Hdb].
        -- rewrite (Hold blocker dt Hdt), Hfor. eexists. split; [done|]. done.
        -- rewrite (Hold d dt Hdt), (Hother d Hdb). eauto.
Qed.

Lemma blocker_resolved_witness :
  ∃ result nt,
    nextTickets (λ _, Some 0%Z) (λ s, s) None
      (deleteTicket "TICKET-0001" docChain).2
    = (Ok result, (deleteTicket "TICKET-0001" docChain).2)
    ∧ nt ∈ result ∧ nt_id nt = Some "TICKET-0002".
Proof.
  assert (∀ d, d ∈ ["TICKET-0001"] →
            d = "TICKET-0001"
            ∨ ∃ dt, tickets docChain !! d = Some dt
                    ∧ status dt = Some "closed") as Hdeps.
  { intros d Hd. apply list_elem_of_singleton in Hd as ->. by left. }
  destruct (proj1 (blocker_resolved (λ _, Some 0%Z) (λ s, s) "TICKET-0001"
                     docChain "TICKET-0002"
                     (sampleTicket "TICKET-0002" ["TICKET-0001"] "open")
                     ["TICKET-0001"] docChain_allBlockedBy eq_refl
                     ltac:(discriminate) ltac:(discriminate) eq_refl Hdeps)
              (deleteTicket "TICKET-0001" docChain).2)
    as (result & nt & Hrun & Hnt & Heq).
  - vm_compute. reflexivity.
  - exists result, nt. split; [exact Hrun|]. split; [exact Hnt|].
    rewrite Heq. reflexivity.
Defined.

(** ** A ticket stored under an inherited name *)

(** X22. An update addressed to a name inherited from
    [Object.prototype] is accepted although no such ticket exists, and
    stores under that name a ticket made of the record's fields and
    [updatedAt] only.  On [docTwo], after the one-record update of
    ["constructor"] with a title, the document has a ticket without
    [id], [status] and [blockedBy]; from then on [nextTickets],
    [listTickets] with a [dependsOn] filter and [deleteTicket] of any
    ticket end with a TypeError, and write nothing. *)
Theorem update_inherited_name getTime toLowerCase :
  let now := "2025-02-02T00:00:00.000Z" in
  let out :=
    updateTickets now [declaredUpdate "constructor" (Some "x") None None None]
                  docTwo in
  tickets docTwo !! "constructor" = None
  ∧ (∃ updated, out.1 = Ok updated)
  ∧ tickets out.2 !! "constructor"
    = Some (mkTicket None (Some "x") None None None None None (Some now) None)
  ∧ ¬ allBlockedBy out.2
  ∧ nextTickets getTime toLowerCase None out.2 = (Throw TypeError, out.2)
  ∧ listTickets getTime toLowerCase None None (Some "TICKET-0001") out.2
    = (Throw TypeError, out.2)
  ∧ deleteTicket "TICKET-0001" out.2 = (Throw TypeError, out.2).
Proof.
  intros now out.
  assert (tickets out.2 !! "constructor"
          = Some (mkTicket None (Some "x") None None None None None (Some now)
                           None)) as Hstored by (vm_compute; reflexivity).
  assert (¬ allBlockedBy out.2) as Hno.
  { intros Hall. destruct (Hall _ _ Hstored) as [deps Hdeps]. discriminate. }
  split_and!; [vm_compute; reflexivity|eexists; vm_compute; reflexivity
              |exact Hstored|exact Hno| | |].
  - destruct (nextTickets_run getTime toLowerCase None out.2)
      as [(selection & result & Hsel & _ & _)|[_ Hthrow]]; [|exact Hthrow].
    exfalso. revert Hsel. unfold nextSelection.
    destruct (tryFilter (isUnblocked out.2) (ticketValues out.2))
      as [kept|e] eqn:Hf; [|done].
    apply tryFilter_Ok in Hf as [Hall _]. rewrite Forall_forall in Hall.
    destruct (Hall (mkTicket None (Some "x") None None None None None (Some now)
                             None)) as [b Hb]; [|done].
    apply elem_of_ticketValues. eauto.
  - unfold listTickets, bind, readData, lift, listSelection. simpl.
    destruct (tryFilter (dependsOnTicket "TICKET-0001") (ticketValues out.2))
      as [kept|e] eqn:Hf; simpl.
    + exfalso. apply tryFilter_Ok in Hf as [Hall _].
      rewrite Forall_forall in Hall.
      destruct (Hall (mkTicket None (Some "x") None None None None None
                               (Some now) None)) as [b Hb]; [|done].
      apply elem_of_ticketValues. eauto.
    + apply tryFilter_Throw in Hf as (t & _ & Hthrow).
      unfold dependsOnTicket in Hthrow.
      destruct (blockedBy t); [done|]. by injection Hthrow as <-.
  - destruct (deleteTicket_cases "TICKET-0001" out.2)
      as [[Hres _]|[(_ & _ & Hrun)|(_ & Hall & _)]]; [|done|done].
    destruct Hres. left. vm_compute. eauto.
Qed.
